(** * Multi-scale metapopulation SIRS simulation (msmp_simulation.py)

    A shallow embedding of the simulation core of [msmp_simulation.py]:
    the contact-graph generator [generateErdosRenyi], the migration
    topology [findContextToMoveTo], the per-community update
    [performGraphIteration] and the main loop.

    Conventions of the embedding.
    - Python integers that count people are [Z] (they can become negative);
      node ids and list positions are [nat] (they come from [range]).
    - Python floats are only ever compared, never added or multiplied, so a
      float is modelled by the rational number it denotes ([Q]).
    - [random.random()] reads a hidden generator state: the generator is a
      function [random : nat -> Q] (the k-th value it returns) and the
      number of values already consumed is threaded through the monad [M].
    - A Python exception ([KeyError], [IndexError], [TypeError],
      networkx's [NetworkXError]) is the failure [None] of [M].
    - A [networkx.Graph] is the insertion-ordered dictionary of its nodes
      (each carrying its ['label'] attribute) and the list of its edges in
      insertion order; the adjacency of a node lists its neighbours in the
      order the edges were added, as networkx's adjacency dictionaries do. *)

From Stdlib Require Import List ZArith QArith Lia Bool Arith String.
Import ListNotations.

Open Scope Z_scope.

(** ** Compartments and graphs *)

(** The three values of the node attribute ['label'], which are also the
    keys of the per-community counters. *)
Inductive Label : Type :=
| Susceptible
| Infected
| Recovered.

Definition Label_eqb (a b : Label) : bool :=
  match a, b with
  | Susceptible, Susceptible => true
  | Infected, Infected => true
  | Recovered, Recovered => true
  | _, _ => false
  end.

Record Graph : Type := mkGraph {
  nodes : list (nat * Label);   (* G._node, insertion order *)
  edges : list (nat * nat)      (* edges, insertion order *)
}.

(** [nx.Graph()] *)
Definition nx_Graph : Graph := mkGraph [] [].

(** [for node in g]: the node ids in insertion order. *)
Definition node_ids (g : Graph) : list nat := map fst (nodes g).

(** [x in g] *)
Definition has_node (g : Graph) (x : nat) : bool :=
  existsb (Nat.eqb x) (node_ids g).

Fixpoint lookup (x : nat) (ns : list (nat * Label)) : option Label :=
  match ns with
  | [] => None
  | (y, l) :: rest => if Nat.eqb x y then Some l else lookup x rest
  end.

Fixpoint set_attr (x : nat) (l : Label) (ns : list (nat * Label))
  : list (nat * Label) :=
  match ns with
  | [] => []
  | (y, ly) :: rest =>
      if Nat.eqb x y then (y, l) :: rest else (y, ly) :: set_attr x l rest
  end.

(** [g.nodes[x]['label']]; [KeyError] when [x] is not a node. *)
Definition label (g : Graph) (x : nat) : option Label := lookup x (nodes g).

(** [g.nodes[x]['label'] = l]; [KeyError] when [x] is not a node. *)
Definition set_label (g : Graph) (x : nat) (l : Label) : option Graph :=
  if has_node g x then Some (mkGraph (set_attr x l (nodes g)) (edges g))
  else None.

(** [G.add_node(x, label=l)]: a node that is already present keeps its
    position and its edges and only has its attribute overwritten; a new
    node is appended, without edges. *)
Definition add_node (g : Graph) (x : nat) (l : Label) : Graph :=
  if has_node g x then mkGraph (set_attr x l (nodes g)) (edges g)
  else mkGraph (nodes g ++ [(x, l)]) (edges g).

Definition has_edge (g : Graph) (u v : nat) : bool :=
  existsb (fun e => (Nat.eqb (fst e) u && Nat.eqb (snd e) v)
                    || (Nat.eqb (fst e) v && Nat.eqb (snd e) u))%bool
          (edges g).

(** [G.add_edge(u, v)].  At its only call site both endpoints are nodes
    already, so networkx's implicit creation of missing endpoints never
    fires; an edge that is present is not added twice. *)
Definition add_edge (g : Graph) (u v : nat) : Graph :=
  if has_edge g u v then g else mkGraph (nodes g) (edges g ++ [(u, v)]).

(** [g[x]]: the neighbours of [x]; [KeyError] when [x] is not a node. *)
Definition adj (g : Graph) (x : nat) : option (list nat) :=
  if has_node g x then
    Some (flat_map (fun e => if Nat.eqb (fst e) x then [snd e]
                             else if Nat.eqb (snd e) x then [fst e]
                             else [])
                   (edges g))
  else None.

(** [g.remove_node(x)]: removes the node and its incident edges;
    networkx raises when [x] is not a node. *)
Definition remove_node (g : Graph) (x : nat) : option Graph :=
  if has_node g x then
    Some (mkGraph
            (filter (fun p => negb (Nat.eqb (fst p) x)) (nodes g))
            (filter (fun e => negb (Nat.eqb (fst e) x)
                              && negb (Nat.eqb (snd e) x))%bool
                    (edges g)))
  else None.

(** ** Communities *)

(** One entry of the global list [graphs]: the dictionary with the keys
    ["graph"], ["cmap"], ["susceptible"], ["infected"], ["recovered"]. *)
Record Community : Type := mkCommunity {
  c_graph : Graph;
  c_cmap : list string;
  c_susceptible : Z;
  c_infected : Z;
  c_recovered : Z
}.

(** [graphs[i][l]] for a label [l] used as dictionary key. *)
Definition count (c : Community) (l : Label) : Z :=
  match l with
  | Susceptible => c_susceptible c
  | Infected => c_infected c
  | Recovered => c_recovered c
  end.

(** [graphs[i][l] = v] *)
Definition set_count (c : Community) (l : Label) (v : Z) : Community :=
  match l with
  | Susceptible =>
      mkCommunity (c_graph c) (c_cmap c) v (c_infected c) (c_recovered c)
  | Infected =>
      mkCommunity (c_graph c) (c_cmap c) (c_susceptible c) v (c_recovered c)
  | Recovered =>
      mkCommunity (c_graph c) (c_cmap c) (c_susceptible c) (c_infected c) v
  end.

(** [graphs[i]["graph"] = g] and in-place mutation of that graph. *)
Definition set_graph (c : Community) (g : Graph) : Community :=
  mkCommunity g (c_cmap c) (c_susceptible c) (c_infected c) (c_recovered c).

Definition population (c : Community) : Z :=
  c_susceptible c + c_infected c + c_recovered c.

(** Replacing the element at position [i]; [IndexError] out of range. *)
Fixpoint update_nth {A : Type} (i : nat) (x : A) (l : list A)
  : option (list A) :=
  match l, i with
  | [], _ => None
  | _ :: rest, O => Some (x :: rest)
  | y :: rest, S j =>
      match update_nth j x rest with
      | Some rest' => Some (y :: rest')
      | None => None
      end
  end.

(** ** Comparisons of floats *)

Definition Qltb (x y : Q) : bool :=
  (Qnum x * QDen y <? Qnum y * QDen x)%Z.

(** ** The effect monad: generator position and exceptions *)

Definition M (A : Type) : Type := nat -> option (A * nat).

Definition ret {A : Type} (a : A) : M A := fun k => Some (a, k).

Definition bind {A B : Type} (m : M A) (f : A -> M B) : M B :=
  fun k => match m k with
           | Some (a, k') => f a k'
           | None => None
           end.

Definition raise {A : Type} : M A := fun _ => None.

Definition lift {A : Type} (o : option A) : M A :=
  fun k => match o with
           | Some a => Some (a, k)
           | None => None
           end.

Notation "x <- m ;; f" := (bind m (fun x => f))
  (at level 61, m at next level, right associativity).

(** A [for] loop whose body updates a state and may draw or raise. *)
Fixpoint for_each {A S : Type} (xs : list A) (body : A -> S -> M S) (s : S)
  : M S :=
  match xs with
  | [] => ret s
  | x :: rest => s' <- body x s ;; for_each rest body s'
  end.

(** [range(a, b)] for [a], [b] that are non-negative. *)
Definition range (a b : nat) : list nat := seq a (b - a).

Section Simulation.

(** The generator: [random k] is the value of the k-th call of
    [random.random()]. *)
Variable random : nat -> Q.

(** The module-level parameters read from the user: contact, infection,
    recovery and movement probability.  The prompts, their validation and
    the conversion of the digits typed into a float are outside the model;
    a parameter is the float that results. *)
Variable gamma : Q.
Variable beta : Q.
Variable recovery : Q.
Variable move_probability : Q.

Definition r_to_s : Q := recovery.

(** [random.random()] *)
Definition random_random : M Q := fun k => Some (random k, S k).

(** ** generateErdosRenyi *)

Definition block_label (susceptible infected : Z) (i : nat) : Label :=
  if Z.of_nat i <? susceptible then Susceptible
  else if Z.of_nat i <? susceptible + infected then Infected
  else Recovered.

Definition block_color (l : Label) : string :=
  match l with
  | Susceptible => "orange"%string
  | Infected => "red"%string
  | Recovered => "green"%string
  end.

Definition generateErdosRenyi (susceptible infected recovered : Z) (p : Q)
  : M (Graph * list string) :=
  let N := Z.to_nat (susceptible + infected + recovered) in
  let G := nx_Graph in
  let color_map := [] in
  (* for i in range(N): add the labelled node and its colour *)
  let '(G, color_map) :=
    fold_left
      (fun (acc : Graph * list string) (i : nat) =>
         let l := block_label susceptible infected i in
         (add_node (fst acc) i l, snd acc ++ [block_color l]))
      (range 0 N) (G, color_map) in
  (* for i in range(0, N): for j in range(i+1, N): *)
  G <- for_each (range 0 N)
         (fun i G =>
            for_each (range (i + 1) N)
              (fun j G =>
                 u <- random_random ;;
                 if Qltb u p then ret (add_edge G i j) else ret G)
              G)
         G ;;
  ret (G, color_map).

(** ** findContextToMoveTo *)

(** The value returned is [Some d], or [None] for Python's implicit
    [return None] when no inner branch matches. *)
Definition findContextToMoveTo (group_num : nat) : M (option nat) :=
  sampler <- random_random ;;
  if Qle_bool sampler (1 # 2) then
    if Nat.eqb group_num 1 then ret (Some 2%nat)
    else if Nat.eqb group_num 2 then ret (Some 1%nat)
    else if Nat.eqb group_num 3 then ret (Some 4%nat)
    else if Nat.eqb group_num 4 then ret (Some 3%nat)
    else ret None
  else if (Qltb (1 # 2) sampler && Qle_bool sampler (3 # 4))%bool then
    if Nat.eqb group_num 1 then ret (Some 3%nat)
    else if Nat.eqb group_num 2 then ret (Some 3%nat)
    else if Nat.eqb group_num 3 then ret (Some 1%nat)
    else if Nat.eqb group_num 4 then ret (Some 1%nat)
    else ret None
  else
    if Nat.eqb group_num 1 then ret (Some 4%nat)
    else if Nat.eqb group_num 2 then ret (Some 4%nat)
    else if Nat.eqb group_num 3 then ret (Some 2%nat)
    else if Nat.eqb group_num 4 then ret (Some 2%nat)
    else ret None.

(** ** performGraphIteration *)

(** The state of one call: the global list [graphs], the three local
    counters and the list [nodes_to_remove]. *)
Record PassState : Type := mkPass {
  ps_graphs : list Community;
  local_susceptible : Z;
  local_infected : Z;
  local_recovered : Z;
  nodes_to_remove : list nat
}.

Definition with_graphs (st : PassState) (gs : list Community) : PassState :=
  mkPass gs (local_susceptible st) (local_infected st) (local_recovered st)
         (nodes_to_remove st).

Definition with_locals (st : PassState) (s i r : Z) : PassState :=
  mkPass (ps_graphs st) s i r (nodes_to_remove st).

(** The parameter [g] of the Python function is the same object as
    [graphs[num_graph]["graph"]]; every access through [g] is an access to
    that entry of the store. *)
Definition the_graph (st : PassState) (num_graph : nat) : M Graph :=
  c <- lift (nth_error (ps_graphs st) num_graph) ;;
  ret (c_graph c).

(** A mutation of the graph object [g]. *)
Definition put_graph (st : PassState) (num_graph : nat) (g : Graph)
  : M PassState :=
  c <- lift (nth_error (ps_graphs st) num_graph) ;;
  gs <- lift (update_nth num_graph (set_graph c g) (ps_graphs st)) ;;
  ret (with_graphs st gs).

(** Lines 199-200: the node is added to the destination graph under the
    id it has in [g], with its current label, and the destination counter
    of that label is incremented at once.  [new_context] is one of 1..4
    wherever this is reached, so [new_context - 1] is a list position. *)
Definition move_node (num_graph node new_context : nat) (st : PassState)
  : M PassState :=
  g <- the_graph st num_graph ;;
  l <- lift (label g node) ;;
  d <- lift (nth_error (ps_graphs st) (new_context - 1)) ;;
  gs <- lift (update_nth (new_context - 1)
                (set_graph d (add_node (c_graph d) node l)) (ps_graphs st)) ;;
  let st := with_graphs st gs in
  g <- the_graph st num_graph ;;
  l <- lift (label g node) ;;
  d <- lift (nth_error (ps_graphs st) (new_context - 1)) ;;
  gs <- lift (update_nth (new_context - 1)
                (set_count d l (count d l + 1)) (ps_graphs st)) ;;
  ret (with_graphs st gs).

(** Lines 223-233: the scan of the neighbours of a susceptible node, with
    its [break]; the result is the list [newly_infected]. *)
Fixpoint neighbor_loop (g : Graph) (node : nat) (nbrs : list nat)
  (st : PassState) : M (list nat * PassState) :=
  match nbrs with
  | [] => ret ([], st)
  | neighbor :: rest =>
      l <- lift (label g neighbor) ;;
      hit <- (if Label_eqb l Infected
              then u <- random_random ;; ret (Qltb u beta)
              else ret false) ;;
      if hit then
        ret ([node],
             with_locals st (local_susceptible st - 1)
               (local_infected st + 1) (local_recovered st))
      else neighbor_loop g node rest st
  end.

(** The body of [for node in g]. *)
Definition scan_node (num_graph : nat) (node : nat) (st : PassState)
  : M PassState :=
  u <- random_random ;;
  if Qltb u move_probability then
    r <- findContextToMoveTo (num_graph + 1) ;;
    new_context <- lift r ;;
    st <- move_node num_graph node new_context st ;;
    ret (mkPass (ps_graphs st) (local_susceptible st) (local_infected st)
           (local_recovered st) (nodes_to_remove st ++ [node]))
  else
    g <- the_graph st num_graph ;;
    l <- lift (label g node) ;;
    recovers <- (if Label_eqb l Infected
                 then u <- random_random ;; ret (Qltb u recovery)
                 else ret false) ;;
    if recovers then
      g <- lift (set_label g node Recovered) ;;
      st <- put_graph st num_graph g ;;
      ret (with_locals st (local_susceptible st) (local_infected st - 1)
             (local_recovered st + 1))
    else
      relapses <- (if Label_eqb l Recovered
                   then u <- random_random ;; ret (Qltb u r_to_s)
                   else ret false) ;;
      if relapses then
        g <- lift (set_label g node Susceptible) ;;
        st <- put_graph st num_graph g ;;
        ret (with_locals st (local_susceptible st + 1) (local_infected st)
               (local_recovered st - 1))
      else if Label_eqb l Susceptible then
        nbrs <- lift (adj g node) ;;
        r <- neighbor_loop g node nbrs st ;;
        let '(newly_infected, st) := r in
        (* for x in newly_infected: still inside the loop over the nodes *)
        for_each newly_infected
          (fun x st =>
             g <- the_graph st num_graph ;;
             g <- lift (set_label g x Infected) ;;
             put_graph st num_graph g)
          st
      else ret st.

(** The body of [for node in nodes_to_remove]. *)
Definition remove_scheduled (num_graph : nat) (node : nat) (st : PassState)
  : M PassState :=
  g <- the_graph st num_graph ;;
  l <- lift (label g node) ;;
  let st :=
    if Label_eqb l Susceptible then
      with_locals st (local_susceptible st - 1) (local_infected st)
        (local_recovered st)
    else if Label_eqb l Infected then
      with_locals st (local_susceptible st) (local_infected st - 1)
        (local_recovered st)
    else if Label_eqb l Recovered then
      with_locals st (local_susceptible st) (local_infected st)
        (local_recovered st - 1)
    else st in
  g <- lift (remove_node g node) ;;
  put_graph st num_graph g.

Definition start_pass (num_graph : nat) (graphs : list Community)
  : M PassState :=
  c <- lift (nth_error graphs num_graph) ;;
  ret (mkPass graphs (c_susceptible c) (c_infected c) (c_recovered c) []).

(** Lines 193-237. *)
Definition scan_nodes (num_graph : nat) (st : PassState) : M PassState :=
  g <- the_graph st num_graph ;;
  for_each (node_ids g) (scan_node num_graph) st.

(** Lines 240-250. *)
Definition remove_nodes (num_graph : nat) (st : PassState) : M PassState :=
  for_each (nodes_to_remove st) (remove_scheduled num_graph) st.

(** Lines 253-255. *)
Definition finish_pass (num_graph : nat) (st : PassState)
  : M (list Community) :=
  c <- lift (nth_error (ps_graphs st) num_graph) ;;
  lift (update_nth num_graph
          (mkCommunity (c_graph c) (c_cmap c) (local_susceptible st)
             (local_infected st) (local_recovered st))
          (ps_graphs st)).

Definition performGraphIteration (num_graph : nat) (graphs : list Community)
  : M (list Community) :=
  st <- start_pass num_graph graphs ;;
  st <- scan_nodes num_graph st ;;
  st <- remove_nodes num_graph st ;;
  finish_pass num_graph st.

(** ** The main loop *)

Record World : Type := mkWorld {
  graphs : list Community;
  global_susceptible : list Z;
  global_infected : list Z;
  global_recovered : list Z;
  timesteps : list nat
}.

(** The branch [t == 0]; [n] is the population entered by the user. *)
Definition initial_conditions (n : Z) : M World :=
  gs <- for_each (range 0 4)
          (fun _ (gs : list Community) =>
             r <- generateErdosRenyi (n - 1) 1 0 gamma ;;
             let '(g, cmap) := r in
             ret (gs ++ [mkCommunity g cmap (n - 1) 1 0]))
          [] ;;
  ret (mkWorld gs [4 * (n - 1)] [4] [0] [0%nat]).

(** The running totals [curr_global_*] together with the store. *)
Record Tally : Type := mkTally {
  t_graphs : list Community;
  curr_global_susceptible : Z;
  curr_global_infected : Z;
  curr_global_recovered : Z
}.

(** Lines 288-295. *)
Definition update_pass (gs : list Community) : M Tally :=
  for_each (range 0 (List.length gs))
    (fun n acc =>
       gs <- performGraphIteration n (t_graphs acc) ;;
       c <- lift (nth_error gs n) ;;
       ret (mkTally gs
              (curr_global_susceptible acc + c_susceptible c)
              (curr_global_infected acc + c_infected c)
              (curr_global_recovered acc + c_recovered c)))
    (mkTally gs 0 0 0).

(** Lines 298-304. *)
Definition redraw_pass (gs : list Community) : M (list Community) :=
  for_each (range 0 (List.length gs))
    (fun n gs =>
       c <- lift (nth_error gs n) ;;
       r <- generateErdosRenyi (c_susceptible c) (c_infected c)
              (c_recovered c) gamma ;;
       let '(g, cmap) := r in
       lift (update_nth n
               (mkCommunity g cmap (c_susceptible c) (c_infected c)
                  (c_recovered c))
               gs))
    gs.

(** The branch [t > 0]. *)
Definition timestep (t : nat) (w : World) : M World :=
  acc <- update_pass (graphs w) ;;
  gs <- redraw_pass (t_graphs acc) ;;
  ret (mkWorld gs
         (global_susceptible w ++ [curr_global_susceptible acc])
         (global_infected w ++ [curr_global_infected acc])
         (global_recovered w ++ [curr_global_recovered acc])
         (timesteps w ++ [t])).

(** The state once the iteration for timestep [t] has run. *)
Fixpoint state_after (n : Z) (t : nat) : M World :=
  match t with
  | O => initial_conditions n
  | S t' => w <- state_after n t' ;; timestep t w
  end.

(** [while t <= num_iter], from a fresh generator. *)
Definition main (n : Z) (num_iter : nat) : option World :=
  match state_after n num_iter 0%nat with
  | Some (w, _) => Some w
  | None => None
  end.

End Simulation.

(** ** Notions used to state the properties *)

(** The binary tree of the docstring of [findContextToMoveTo]: the
    sibling of a community, and the two communities of the other subtree,
    lower number first. *)
Definition sibling (group_num : nat) : nat :=
  match group_num with
  | 1 => 2 | 2 => 1 | 3 => 4 | 4 => 3 | _ => 0
  end%nat.

Definition remote_low (group_num : nat) : nat :=
  match group_num with
  | 1 => 3 | 2 => 3 | 3 => 1 | 4 => 1 | _ => 0
  end%nat.

Definition remote_high (group_num : nat) : nat :=
  match group_num with
  | 1 => 4 | 2 => 4 | 3 => 2 | 4 => 2 | _ => 0
  end%nat.

(** The distance of two communities in that tree: 1 under the same
    parent, 2 otherwise. *)
Definition tree_distance (a b : nat) : nat :=
  if Nat.eqb a b then 0%nat
  else if Nat.eqb ((a - 1) / 2) ((b - 1) / 2) then 1%nat
  else 2%nat.

(** The two symmetric pairings of communities at distance 2. *)
Definition pairing_13_24 (group_num : nat) : nat :=
  match group_num with
  | 1 => 3 | 3 => 1 | 2 => 4 | 4 => 2 | _ => 0
  end%nat.

Definition pairing_14_23 (group_num : nat) : nat :=
  match group_num with
  | 1 => 4 | 4 => 1 | 2 => 3 | 3 => 2 | _ => 0
  end%nat.

(** With the sample [u], every community is sent to its partner under
    [pairing]. *)
Definition branch_realizes (u : Q) (pairing : nat -> nat) : Prop :=
  forall group_num, (1 <= group_num <= 4)%nat ->
    findContextToMoveTo (fun _ => u) group_num 0%nat
    = Some (Some (pairing group_num), 1%nat).

(** A generator given by the list of its first values and the value it
    returns ever after. *)
Definition stream_of (l : list Q) (d : Q) : nat -> Q := fun k => nth k l d.

(** What a run shows of the store: per community the labelled nodes, the
    edges and the three counters. *)
Definition view (gs : list Community)
  : list (list (nat * Label) * list (nat * nat) * (Z * Z * Z)) :=
  map (fun c => (nodes (c_graph c), edges (c_graph c),
                 (c_susceptible c, c_infected c, c_recovered c))) gs.

(** The graph of community [i] of the store. *)
Definition graph_of (gs : list Community) (i : nat) : option Graph :=
  option_map c_graph (nth_error gs i).

(** Running a computation from a fresh generator and observing its
    result. *)
Definition observe {A B : Type} (m : M A) (f : A -> B) : option B :=
  match m 0%nat with
  | Some (a, _) => Some (f a)
  | None => None
  end.

Definition sum_Z (l : list Z) : Z := fold_right Z.add 0 l.

(** *** Scenario A: an infection spreads twice within one scan

    Population 3, contact and infection probability 1/2, no recovery, no
    movement.  The generator makes community 1 (index 0) the path
    1 - 0 - 2 and lets both infection checks of timestep 1 succeed. *)
Definition stream_A : nat -> Q :=
  stream_of [1#4; 1#4; 3#4;  3#4; 3#4; 3#4;  3#4; 3#4; 3#4;  3#4; 3#4; 3#4;
             3#4; 1#4;  3#4; 1#4] (3#4).

Definition A_start : M World :=
  state_after stream_A (1#2) (1#2) 0 0 3 0.

Definition A_updated : M (list Community) :=
  w <- A_start ;;
  performGraphIteration stream_A (1#2) 0 0 0 (graphs w).

(** *** Scenario B: a migrant into a community that was already summed

    Population 1, movement probability 1/2, no infection, no recovery.
    In timestep 1 the only individual of community 2 (index 1) moves to
    community 1 (index 0), whose update has run already. *)
Definition stream_B : nat -> Q := stream_of [3#4; 3#4; 1#4; 1#4] (3#4).

Definition B_run : M World :=
  state_after stream_B (1#2) 0 0 (1#2) 1 1.

(** *** Scenario C: a migrant whose id is taken in the destination

    Population 2, all probabilities 1/2 except recovery 0.  In timestep 1
    node 0 of community 1 (index 0) is infected; then node 0 of community
    2 (index 1), susceptible, moves to community 1. *)
Definition stream_C : nat -> Q :=
  stream_of [1#4; 3#4; 3#4; 3#4;  3#4; 1#4; 3#4; 3#4;  1#4; 1#4] (3#4).

Definition C_first_updated : M (list Community) :=
  w <- state_after stream_C (1#2) (1#2) 0 (1#2) 2 0 ;;
  performGraphIteration stream_C (1#2) 0 (1#2) 0 (graphs w).

Definition C_second_updated : M (list Community) :=
  gs <- C_first_updated ;;
  performGraphIteration stream_C (1#2) 0 (1#2) 1 gs.

(** *** Scenario D: a scheduled migrant that still infects

    Population 3, all probabilities 1/2 except recovery 0.  Timestep 1
    infects everybody in community 1 (index 0).  In timestep 2 its node 0
    moves to community 2 (index 1), where it takes the place of the
    susceptible node 0, which has an edge to node 1.  In the update of
    community 2 node 0 is scheduled to move on, and node 1 is scanned
    after it. *)
Definition stream_D : nat -> Q :=
  stream_of
    ([3#4; 1#4; 1#4] ++ repeat (3#4) 9
     ++ [3#4; 1#4; 3#4; 1#4; 3#4; 3#4] ++ repeat (3#4) 12
     ++ [3#4; 3#4; 3#4; 1#4; 3#4; 3#4] ++ repeat (3#4) 6
     ++ [1#4; 1#4; 3#4; 3#4; 3#4; 3#4]
     ++ [1#4; 1#4; 3#4; 1#4; 3#4; 3#4])
    (3#4).

Definition D_first_updated : M (list Community) :=
  w <- state_after stream_D (1#2) (1#2) 0 (1#2) 3 1 ;;
  performGraphIteration stream_D (1#2) 0 (1#2) 0 (graphs w).

Definition D_scan_start : M PassState :=
  gs <- D_first_updated ;;
  start_pass 1 gs.

Definition D_scheduled : M PassState :=
  st <- D_scan_start ;;
  scan_node stream_D (1#2) 0 (1#2) 1 0 st.

Definition D_neighbor_scanned : M PassState :=
  st <- D_scheduled ;;
  scan_node stream_D (1#2) 0 (1#2) 1 1 st.

Definition D_scan_done : M PassState :=
  st <- D_neighbor_scanned ;;
  scan_node stream_D (1#2) 0 (1#2) 1 2 st.

Definition D_second_updated : M (list Community) :=
  gs <- D_first_updated ;;
  performGraphIteration stream_D (1#2) 0 (1#2) 1 gs.

(** ** Invariants of the store and outcomes of the scan *)

(** Replacement at a position that exists. *)
Fixpoint upd {A : Type} (i : nat) (x : A) (l : list A) : list A :=
  match l, i with
  | [], _ => []
  | _ :: rest, O => x :: rest
  | y :: rest, S j => y :: upd j x rest
  end.

(** The graph after [g.nodes[x]['label'] = l] for a node [x] of [g]. *)
Definition relabel (g : Graph) (x : nat) (l : Label) : Graph :=
  mkGraph (set_attr x l (nodes g)) (edges g).

(** The graph after [g.remove_node(x)] for a node [x] of [g]. *)
Definition without_node (g : Graph) (x : nat) : Graph :=
  mkGraph (filter (fun p => negb (Nat.eqb (fst p) x)) (nodes g))
          (filter (fun e => negb (Nat.eqb (fst e) x)
                            && negb (Nat.eqb (snd e) x))%bool
                  (edges g)).

(** What networkx guarantees of a graph: node ids are the keys of a
    dictionary, and every edge joins two nodes. *)
Definition wf_graph (g : Graph) : Prop :=
  NoDup (node_ids g)
  /\ forall e, In e (edges g) ->
       In (fst e) (node_ids g) /\ In (snd e) (node_ids g).

(** The store of a run: four communities, each with a graph. *)
Definition wf_store (gs : list Community) : Prop :=
  List.length gs = 4%nat /\ forall c, In c gs -> wf_graph (c_graph c).

Definition size (g : Graph) : Z := Z.of_nat (List.length (nodes g)).

(** The local counter of a label. *)
Definition local_count (st : PassState) (l : Label) : Z :=
  match l with
  | Susceptible => local_susceptible st
  | Infected => local_infected st
  | Recovered => local_recovered st
  end.

Definition local_population (st : PassState) : Z :=
  local_susceptible st + local_infected st + local_recovered st.

(** How many of the nodes [xs] carry the label [l] in [g]. *)
Definition labelled (g : Graph) (l : Label) (xs : list nat) : Z :=
  Z.of_nat
    (List.length
       (filter (fun x => match label g x with
                         | Some l' => Label_eqb l' l
                         | None => false
                         end) xs)).

(** How many nodes of [g] carry the label [l]. *)
Definition holders (g : Graph) (l : Label) : Z :=
  labelled g l (node_ids g).

(** The total of a counter over the store. *)
Definition total (gs : list Community) (l : Label) : Z :=
  sum_Z (map (fun c => count c l) gs).

(** What the scan of one node does to the state of the call, with the
    draw that decided it. *)
Inductive scan_outcome (random : nat -> Q)
  (beta recovery move_probability : Q) (num_graph node : nat)
  (st st' : PassState) : Prop :=
| node_moves (c cd : Community) (l : Label) (d j : nat) :
    Qltb (random j) move_probability = true ->
    nth_error (ps_graphs st) num_graph = Some c ->
    label (c_graph c) node = Some l ->
    d <> num_graph ->
    nth_error (ps_graphs st) d = Some cd ->
    st' = mkPass
            (upd d (set_count (set_graph cd (add_node (c_graph cd) node l))
                      l (count cd l + 1))
               (ps_graphs st))
            (local_susceptible st) (local_infected st) (local_recovered st)
            (nodes_to_remove st ++ [node]) ->
    scan_outcome random beta recovery move_probability num_graph node st st'
| node_recovers (c : Community) (j : nat) :
    Qltb (random j) recovery = true ->
    nth_error (ps_graphs st) num_graph = Some c ->
    label (c_graph c) node = Some Infected ->
    st' = mkPass
            (upd num_graph
               (set_graph c (relabel (c_graph c) node Recovered))
               (ps_graphs st))
            (local_susceptible st) (local_infected st - 1)
            (local_recovered st + 1) (nodes_to_remove st) ->
    scan_outcome random beta recovery move_probability num_graph node st st'
| node_relapses (c : Community) (j : nat) :
    Qltb (random j) recovery = true ->
    nth_error (ps_graphs st) num_graph = Some c ->
    label (c_graph c) node = Some Recovered ->
    st' = mkPass
            (upd num_graph
               (set_graph c (relabel (c_graph c) node Susceptible))
               (ps_graphs st))
            (local_susceptible st + 1) (local_infected st)
            (local_recovered st - 1) (nodes_to_remove st) ->
    scan_outcome random beta recovery move_probability num_graph node st st'
| node_catches (c : Community) (neighbor j : nat) (nbrs : list nat) :
    Qltb (random j) beta = true ->
    nth_error (ps_graphs st) num_graph = Some c ->
    label (c_graph c) node = Some Susceptible ->
    adj (c_graph c) node = Some nbrs ->
    In neighbor nbrs ->
    label (c_graph c) neighbor = Some Infected ->
    st' = mkPass
            (upd num_graph
               (set_graph c (relabel (c_graph c) node Infected))
               (ps_graphs st))
            (local_susceptible st - 1) (local_infected st + 1)
            (local_recovered st) (nodes_to_remove st) ->
    scan_outcome random beta recovery move_probability num_graph node st st'
| node_stays :
    st' = st ->
    scan_outcome random beta recovery move_probability num_graph node st st'.

(** What stays true of the call for community [num_graph] while its scan
    runs: the store is well formed, the graph scanned keeps the node ids
    [ids] it started with, and the nodes scheduled for removal together
    with the nodes still to scan are distinct nodes of that graph. *)
Definition scan_wf (num_graph : nat) (ids rest : list nat) (st : PassState)
  : Prop :=
  wf_store (ps_graphs st)
  /\ (exists c, nth_error (ps_graphs st) num_graph = Some c
                /\ node_ids (c_graph c) = ids)
  /\ NoDup (nodes_to_remove st ++ rest)
  /\ incl (nodes_to_remove st ++ rest) ids.

(** By how much the counters of a community exceed the size of its
    graph. *)
Definition excess (c : Community) : Z := population c - size (c_graph c).

(** The entry of a community when its call returns: [st] is the state at
    the end of the scan, [c] the entry the scan left and [g'] the graph
    the removal loop left. *)
Definition settled (st : PassState) (c : Community) (g' : Graph)
  : Community :=
  mkCommunity g' (c_cmap c)
    (local_susceptible st
     - labelled (c_graph c) Susceptible (nodes_to_remove st))
    (local_infected st - labelled (c_graph c) Infected (nodes_to_remove st))
    (local_recovered st
     - labelled (c_graph c) Recovered (nodes_to_remove st)).

(** The three counters of a community. *)
Definition counters (c : Community) : Z * Z * Z :=
  (c_susceptible c, c_infected c, c_recovered c).

(** What the redraw makes of an entry [c]: the counters are kept and the
    graph is a fresh well-formed graph with as many nodes as the counters
    ask for, none when their sum is negative. *)
Definition redrawn_entry (c c' : Community) : Prop :=
  counters c' = counters c
  /\ wf_graph (c_graph c')
  /\ nodes (c_graph c')
     = map (fun i => (i, block_label (c_susceptible c) (c_infected c) i))
           (seq 0 (Z.to_nat (population c))).

Definition redrawn (gs gs' : list Community) : Prop :=
  List.length gs' = List.length gs
  /\ forall i c, nth_error gs i = Some c ->
       exists c', nth_error gs' i = Some c' /\ redrawn_entry c c'.

(** The store the branch [t == 0] builds for the population [n]. *)
Definition started (n : Z) (gs : list Community) : Prop :=
  List.length gs = 4%nat
  /\ forall c, In c gs ->
       counters c = (n - 1, 1, 0)
       /\ wf_graph (c_graph c)
       /\ nodes (c_graph c)
          = map (fun i => (i, block_label (n - 1) 1 i))
                (seq 0 (Z.to_nat (n - 1 + 1 + 0))).

(** *** Scenario E: a migrant whose id is free in the destination

    A store in the middle of a timestep: community 1 (index 0) has lost
    its node 0 to an earlier removal, and node 0 of community 2 (index 1),
    infected, is about to move there. *)
Definition store_E : list Community :=
  [ mkCommunity (mkGraph [(1, Infected); (2, Recovered)]%nat [(1, 2)]%nat)
      [] 0 1 1;
    mkCommunity (mkGraph [(0, Infected); (1, Susceptible)]%nat [(0, 1)]%nat)
      [] 1 1 0;
    mkCommunity (mkGraph [(0, Infected)]%nat []) [] 0 1 0;
    mkCommunity (mkGraph [(0, Infected)]%nat []) [] 0 1 0 ].

(** The state scenario D reaches when the update of community 2 (index 1)
    begins in timestep 2: community 1 (index 0) has lost its node 0, and
    node 0 of community 2 is about to move there. *)
Definition state_D : PassState :=
  mkPass
    [ mkCommunity (mkGraph [(1, Infected); (2, Infected)]%nat [])
        ["red"; "red"; "red"]%string 0 2 0;
      mkCommunity
        (mkGraph [(0, Infected); (1, Susceptible); (2, Infected)]%nat
           [(0, 1)]%nat)
        ["orange"; "orange"; "red"]%string 2 2 0;
      mkCommunity
        (mkGraph [(0, Susceptible); (1, Susceptible); (2, Infected)]%nat [])
        ["orange"; "orange"; "red"]%string 2 1 0;
      mkCommunity
        (mkGraph [(0, Susceptible); (1, Susceptible); (2, Infected)]%nat [])
        ["orange"; "orange"; "red"]%string 2 1 0 ]
    2 2 0 [].

(** ** Tactics *)

Ltac split_all :=
  repeat match goal with |- _ /\ _ => split end.

Ltac four_groups g :=
  let H := fresh in
  intros H;
  destruct g as [|[|[|[|[|g]]]]]; try (exfalso; lia); clear H.

(** ** Closed forms of the generator *)

(** The pairs the double loop of [generateErdosRenyi] visits for [N]
    nodes, in the order in which it draws for them. *)
Definition pairs (N : nat) : list (nat * nat) :=
  flat_map (fun i => map (fun j => (i, j)) (range (i + 1) N)) (range 0 N).

(** The pairs of [es] that are kept when the generator [random], at
    position [k], is compared with [p] once for each of them. *)
Fixpoint chosen (random : nat -> Q) (p : Q) (k : nat)
  (es : list (nat * nat)) : list (nat * nat) :=
  match es with
  | [] => []
  | e :: rest =>
      if Qltb (random k) p then e :: chosen random p (S k) rest
      else chosen random p (S k) rest
  end.

(** The number of individuals the counters of the whole store stand
    for. *)
Definition whole (gs : list Community) : Z := sum_Z (map population gs).

(** What can happen to the entry of a community during the call for
    another one: migrants arrive.  Counters do not go down, nodes are not
    taken away, edges and colour map stay. *)
Definition grown (c c' : Community) : Prop :=
  (forall l, count c l <= count c' l)
  /\ incl (node_ids (c_graph c)) (node_ids (c_graph c'))
  /\ edges (c_graph c') = edges (c_graph c)
  /\ c_cmap c' = c_cmap c.

(** The list of recorded totals of a label. *)
Definition global_series (w : World) (l : Label) : list Z :=
  match l with
  | Susceptible => global_susceptible w
  | Infected => global_infected w
  | Recovered => global_recovered w
  end.

(** The running total of a label. *)
Definition curr_global (acc : Tally) (l : Label) : Z :=
  match l with
  | Susceptible => curr_global_susceptible acc
  | Infected => curr_global_infected acc
  | Recovered => curr_global_recovered acc
  end.

(** The colour map of an entry lists the colour of the label of each
    node of its graph, in the order of the nodes. *)
Definition colored (c : Community) : Prop :=
  c_cmap c = map (fun nl => block_color (snd nl)) (nodes (c_graph c)).

(** The compartment after the current one in the cycle
    susceptible -> infected -> recovered -> susceptible. *)
Definition next_label (l : Label) : Label :=
  match l with
  | Susceptible => Infected
  | Infected => Recovered
  | Recovered => Susceptible
  end.

(** The entry every community has throughout a run for the population
    0: no node, no colour, and the counters -1, 1, 0. *)
Definition hollow : Community := mkCommunity nx_Graph [] (-1) 1 0.

(** A community as the initialisation leaves it when every contact draw
    succeeds: [n - 1] susceptible nodes followed by one infected node,
    every two of them joined. *)
Definition seeded_complete (n : Z) (c : Community) : Prop :=
  counters c = (n - 1, 1, 0)
  /\ nodes (c_graph c)
     = map (fun i => (i, block_label (n - 1) 1 i)) (seq 0 (Z.to_nat n))
  /\ edges (c_graph c) = pairs (Z.to_nat n).

(** * Properties *)

(** ** The migration topology *)

Lemma Qltb_lt (x y : Q) : Qltb x y = true <-> (x < y)%Q.
Proof. unfold Qltb, Qlt. apply Z.ltb_lt. Qed.

Lemma Qltb_ge (x y : Q) : Qltb x y = false <-> (y <= x)%Q.
Proof. unfold Qltb, Qle. apply Z.ltb_ge. Qed.

Lemma Qle_bool_false (x y : Q) : Qle_bool x y = false <-> (y < x)%Q.
Proof.
  unfold Qle_bool, Qlt. rewrite Z.leb_gt. reflexivity.
Qed.

(** The destination, as a position of the list [graphs]. *)
Lemma destination_index (random : nat -> Q) (num_graph k : nat) :
  (num_graph < 4)%nat ->
  exists d,
    findContextToMoveTo random (num_graph + 1) k = Some (Some (S d), S k)
    /\ (d < 4)%nat /\ d <> num_graph.
Proof.
  intros H.
  destruct num_graph as [|[|[|[|g]]]]; try (exfalso; lia);
    unfold findContextToMoveTo, bind, random_random, ret; simpl;
    destruct (Qle_bool (random k) (1 # 2));
    try destruct (Qltb (1 # 2) (random k) && Qle_bool (random k) (3 # 4))%bool;
    eexists; (split; [reflexivity | lia]).
Qed.

(** C8: for a source community in 1..4 and whatever value the generator
    hands out, [findContextToMoveTo] returns a community in 1..4 that is
    not the source community. *)
Theorem findContextToMoveTo_never_source :
  forall (random : nat -> Q) (group_num k : nat),
    (1 <= group_num <= 4)%nat ->
    exists d,
      findContextToMoveTo random group_num k = Some (Some d, S k)
      /\ (1 <= d <= 4)%nat /\ d <> group_num.
Proof.
  intros random group_num k.
  four_groups group_num;
    unfold findContextToMoveTo, bind, random_random, ret; simpl;
    destruct (Qle_bool (random k) (1 # 2));
    try destruct (Qltb (1 # 2) (random k) && Qle_bool (random k) (3 # 4))%bool;
    eexists; (split; [reflexivity | lia]).
Qed.

Lemma findContextToMoveTo_never_source_witness :
  exists d,
    findContextToMoveTo (fun _ => 3 # 5) 2 0%nat = Some (Some d, 1%nat)
    /\ (1 <= d <= 4)%nat /\ d <> 2%nat.
Proof.
  apply (findContextToMoveTo_never_source (fun _ => 3 # 5) 2 0). lia.
Defined.

Lemma findContextToMoveTo_eq (random : nat -> Q) (group_num k : nat) :
  (1 <= group_num <= 4)%nat ->
  findContextToMoveTo random group_num k
  = Some (Some (if Qle_bool (random k) (1 # 2) then sibling group_num
                else if Qle_bool (random k) (3 # 4)
                     then remote_low group_num
                     else remote_high group_num),
          S k).
Proof.
  revert group_num.
  intros group_num; four_groups group_num;
    unfold findContextToMoveTo, bind, random_random, ret; simpl;
    destruct (Qle_bool (random k) (1 # 2)) eqn:Hhalf; try reflexivity;
    apply Qle_bool_false, Qltb_lt in Hhalf; rewrite Hhalf; simpl;
    destruct (Qle_bool (random k) (3 # 4)); reflexivity.
Qed.

(** C9, as the code has it: a sample of at most 1/2 selects the sibling
    (1<->2, 3<->4), at distance 1 in the tree; a sample in (1/2, 3/4]
    selects the lower-numbered community of the other subtree (1->3,
    2->3, 3->1, 4->1) and a sample above 3/4 the higher-numbered one
    (1->4, 2->4, 3->2, 4->2), both at distance 2. *)
Theorem findContextToMoveTo_table :
  forall (random : nat -> Q) (group_num k : nat),
    (1 <= group_num <= 4)%nat ->
    exists d,
      findContextToMoveTo random group_num k = Some (Some d, S k)
      /\ ((random k <= 1 # 2)%Q -> d = sibling group_num)
      /\ ((1 # 2 < random k)%Q /\ (random k <= 3 # 4)%Q ->
          d = remote_low group_num)
      /\ ((3 # 4 < random k)%Q -> d = remote_high group_num)
      /\ tree_distance group_num (sibling group_num) = 1%nat
      /\ tree_distance group_num (remote_low group_num) = 2%nat
      /\ tree_distance group_num (remote_high group_num) = 2%nat
      /\ (remote_low group_num < remote_high group_num)%nat.
Proof.
  intros random group_num k Hg.
  rewrite (findContextToMoveTo_eq random group_num k Hg).
  eexists. split; [reflexivity|].
  destruct (Qle_bool (random k) (1 # 2)) eqn:Hhalf;
    [apply Qle_bool_iff in Hhalf | apply Qle_bool_false in Hhalf];
    (destruct (Qle_bool (random k) (3 # 4)) eqn:Hthree;
     [apply Qle_bool_iff in Hthree | apply Qle_bool_false in Hthree]).
  all: split;
    [intros H;
     first [reflexivity | exfalso; exact (Qlt_not_le _ _ Hhalf H)]|].
  all: split;
    [intros [H1 H2];
     first [reflexivity
           | exfalso; exact (Qlt_not_le _ _ H1 Hhalf)
           | exfalso; exact (Qlt_not_le _ _ Hthree H2)]|].
  all: split;
    [intros H;
     first [reflexivity
           | exfalso; exact (Qlt_not_le _ _ H Hthree)
           | exfalso; apply (Qlt_not_le _ _ H);
             apply (Qle_trans _ (1 # 2)); [assumption | discriminate]]|].
  all: revert Hg; four_groups group_num; repeat split; simpl; lia.
Qed.

Lemma findContextToMoveTo_table_witness :
  findContextToMoveTo (fun _ => 3 # 5) 2 0%nat = Some (Some 3%nat, 1%nat).
Proof.
  destruct (findContextToMoveTo_table (fun _ => 3 # 5) 2 0 ltac:(lia))
    as (d & E & _ & H & _).
  rewrite E, H; [reflexivity|]. split; reflexivity || discriminate.
Defined.

(** C9 as stated fails: the branch for samples in (1/2, 3/4] sends both
    1 and 2 to 3, so it realizes neither symmetric pairing, whichever
    pairing the other branch is given. *)
Lemma distance2_branches_are_not_pairings :
  ~ (branch_realizes (3 # 5) pairing_13_24
     /\ branch_realizes (9 # 10) pairing_14_23)
  /\ ~ (branch_realizes (3 # 5) pairing_14_23
        /\ branch_realizes (9 # 10) pairing_13_24).
Proof.
  split; intros [HA _].
  - specialize (HA 2%nat ltac:(lia)). vm_compute in HA. discriminate.
  - specialize (HA 1%nat ltac:(lia)). vm_compute in HA. discriminate.
Qed.

(** ** Runs of the simulation on explicit generators *)

(** C1, on the code: in scenario A node 1 has node 0 as its only
    neighbour and node 0 is susceptible when timestep 1 begins; node 0 is
    infected during the scan and its label is changed before node 1 is
    scanned, so node 1 is infected by it within the same timestep. *)
Theorem infection_is_applied_within_the_scan :
  observe A_start (fun w => view (graphs w))
  = Some [([(0, Susceptible); (1, Susceptible); (2, Infected)]%nat,
           [(0, 1); (0, 2)]%nat, (2, 1, 0));
          ([(0, Susceptible); (1, Susceptible); (2, Infected)]%nat,
           [], (2, 1, 0));
          ([(0, Susceptible); (1, Susceptible); (2, Infected)]%nat,
           [], (2, 1, 0));
          ([(0, Susceptible); (1, Susceptible); (2, Infected)]%nat,
           [], (2, 1, 0))]
  /\ observe A_start
       (fun w => match graph_of (graphs w) 0 with
                 | Some g => adj g 1
                 | None => None
                 end)
     = Some (Some [0%nat])
  /\ observe A_updated (fun gs => nth_error (view gs) 0)
     = Some (Some ([(0, Infected); (1, Infected); (2, Infected)]%nat,
                   [(0, 1); (0, 2)]%nat, (0, 3, 0))).
Proof. split_all; vm_compute; reflexivity. Qed.

(** C2, on the code: in scenario B the totals recorded for timestep 1
    count 3 infected, while the four communities hold 4 infected once the
    four updates have run: the migrant entered a community whose counters
    had been added to the totals before. *)
Theorem global_snapshot_misses_late_migrant :
  observe B_run global_infected = Some [4; 3]
  /\ observe B_run (fun w => map c_infected (graphs w)) = Some [2; 0; 1; 1]
  /\ observe B_run (fun w => sum_Z (map c_infected (graphs w))) = Some 4.
Proof. split_all; vm_compute; reflexivity. Qed.

(** C5 as stated fails: scenario B has no infection and no recovery, yet
    the counters of communities 1 and 2 after timestep 1 are not those of
    timestep 0, because an individual moved from one to the other. *)
Lemma per_community_counters_move_with_migrants :
  observe (state_after stream_B (1#2) 0 0 (1#2) 1 0)
    (fun w => map counters (graphs w))
  = Some [(0, 1, 0); (0, 1, 0); (0, 1, 0); (0, 1, 0)]
  /\ observe B_run (fun w => map counters (graphs w))
     = Some [(0, 2, 0); (0, 0, 0); (0, 1, 0); (0, 1, 0)].
Proof. split; vm_compute; reflexivity. Qed.

(** C4, on the code: in scenario C the migrant is inserted under the id
    0 it has in its source graph, which is taken in the destination.  No
    node is added there, the resident node 0, infected before, is
    susceptible afterwards, and the susceptible counter of the
    destination still goes up by one, so that the counters then stand
    for three individuals in a graph of two nodes. *)
Lemma migrant_overwrites_resident :
  observe C_first_updated (fun gs => nth_error (view gs) 0)
  = Some (Some ([(0, Infected); (1, Infected)]%nat, [(0, 1)]%nat, (0, 2, 0)))
  /\ observe C_second_updated (fun gs => nth_error (view gs) 0)
     = Some (Some ([(0, Susceptible); (1, Infected)]%nat, [(0, 1)]%nat,
                   (1, 2, 0))).
Proof. split; vm_compute; reflexivity. Qed.

(** C6, on the code: with population 0 every community starts with
    -1 susceptible, whatever the generator and the probabilities. *)
Theorem zero_population_negative_susceptible :
  forall (random : nat -> Q) (gamma beta recovery move_probability : Q),
    option_map (fun w => (view (graphs w), global_susceptible w))
      (main random gamma beta recovery move_probability 0 0)
    = Some ([([], [], (-1, 1, 0)); ([], [], (-1, 1, 0));
             ([], [], (-1, 1, 0)); ([], [], (-1, 1, 0))], [-4]).
Proof. intros. reflexivity. Qed.

(** Within a timestep the counters and the graph can disagree: when the
    update of community 2 (index 1) begins in scenario D, its counters
    add up to 4 while its graph has 3 nodes, the migrant having taken the
    place of a resident. *)
Lemma counters_diverge_within_timestep :
  observe D_scan_start
    (fun st => map (fun c => (population c, size (c_graph c)))
                   (ps_graphs st))
  = Some [(2, 2); (4, 3); (3, 3); (3, 3)].
Proof. vm_compute. reflexivity. Qed.

(** C10: in scenario D, timestep 2, update of community 2 (index 1).
    Node 0 is infected and is scheduled to move; at that moment the
    infected counter of its destination (index 0) goes from 2 to 3, and
    node 0 is still a node of the source graph.  Node 1, susceptible, with
    node 0 as its only neighbour, is scanned next and is infected by it.
    Node 0 leaves the source graph only in the removal loop after the
    scan. *)
Theorem scheduled_migrant_still_infects :
  observe D_scan_start (fun st => view (ps_graphs st))
  = Some [([(1, Infected); (2, Infected)]%nat, [], (0, 2, 0));
          ([(0, Infected); (1, Susceptible); (2, Infected)]%nat,
           [(0, 1)]%nat, (2, 2, 0));
          ([(0, Susceptible); (1, Susceptible); (2, Infected)]%nat,
           [], (2, 1, 0));
          ([(0, Susceptible); (1, Susceptible); (2, Infected)]%nat,
           [], (2, 1, 0))]
  /\ observe D_scheduled
       (fun st => (nodes_to_remove st,
                   option_map (fun g => label g 0) (graph_of (ps_graphs st) 1),
                   option_map c_infected (nth_error (ps_graphs st) 0)))
     = Some ([0%nat], Some (Some Infected), Some 3)
  /\ observe D_neighbor_scanned
       (fun st => (nodes_to_remove st,
                   option_map (fun g => (label g 0, label g 1, adj g 1))
                     (graph_of (ps_graphs st) 1)))
     = Some ([0%nat],
             Some (Some Infected, Some Infected, Some [0%nat]))
  /\ observe D_scan_done
       (fun st => option_map node_ids (graph_of (ps_graphs st) 1))
     = Some (Some [0; 1; 2]%nat)
  /\ observe (st <- D_scan_done ;;
              st <- remove_nodes 1 st ;;
              finish_pass 1 st) view
     = observe D_second_updated view
  /\ observe D_second_updated (fun gs => nth_error (view gs) 1)
     = Some (Some ([(1, Infected); (2, Infected)]%nat, [], (1, 2, 0))).
Proof. split_all; vm_compute; reflexivity. Qed.

(** ** Lists, lookups and the monad *)

Lemma update_nth_upd {A : Type} (i : nat) (x : A) (l : list A) :
  (i < List.length l)%nat -> update_nth i x l = Some (upd i x l).
Proof.
  revert i; induction l as [|y l IH]; intros [|i] Hi; simpl in *;
    try lia; try reflexivity.
  rewrite IH by lia. reflexivity.
Qed.

Lemma upd_length {A : Type} (i : nat) (x : A) (l : list A) :
  List.length (upd i x l) = List.length l.
Proof.
  revert i; induction l as [|y l IH]; intros [|i]; simpl; auto.
Qed.

Lemma nth_error_upd_same {A : Type} (i : nat) (x : A) (l : list A) :
  (i < List.length l)%nat -> nth_error (upd i x l) i = Some x.
Proof.
  revert i; induction l as [|y l IH]; intros [|i] Hi; simpl in *;
    try lia; auto.
  apply IH; lia.
Qed.

Lemma nth_error_upd_other {A : Type} (i j : nat) (x : A) (l : list A) :
  i <> j -> nth_error (upd i x l) j = nth_error l j.
Proof.
  revert i j; induction l as [|y l IH]; intros [|i] [|j] Hij; simpl;
    try reflexivity; try congruence.
  apply IH; congruence.
Qed.

Lemma upd_upd {A : Type} (i : nat) (x y : A) (l : list A) :
  upd i y (upd i x l) = upd i y l.
Proof.
  revert i; induction l as [|z l IH]; intros [|i]; simpl; auto.
  rewrite IH. reflexivity.
Qed.

Lemma In_upd {A : Type} (i : nat) (x y : A) (l : list A) :
  In y (upd i x l) -> y = x \/ In y l.
Proof.
  revert i; induction l as [|z l IH]; intros [|i]; simpl; auto.
  - intros [H|H]; auto.
  - intros [H|H]; auto. apply IH in H. tauto.
Qed.

Lemma nth_error_lt {A : Type} (l : list A) (i : nat) :
  (i < List.length l)%nat -> exists x, nth_error l i = Some x.
Proof.
  intros H. destruct (nth_error l i) eqn:E; eauto.
  apply nth_error_None in E. lia.
Qed.

Lemma sum_Z_upd {A : Type} (f : A -> Z) (i : nat) (x y : A) (l : list A) :
  nth_error l i = Some y ->
  sum_Z (map f (upd i x l)) = sum_Z (map f l) - f y + f x.
Proof.
  revert i; induction l as [|z l IH]; intros [|i] H; simpl in *;
    try discriminate.
  - injection H as ->. unfold sum_Z. lia.
  - unfold sum_Z in *. simpl. rewrite (IH i H). lia.
Qed.

Lemma bind_eq {A B : Type} (m : M A) (f : A -> M B) (k k' : nat) (a : A) :
  m k = Some (a, k') -> bind m f k = f a k'.
Proof. unfold bind. intros ->. reflexivity. Qed.

Lemma bind_inv {A B : Type} (m : M A) (f : A -> M B) (k k2 : nat) (b : B) :
  bind m f k = Some (b, k2) ->
  exists a k1, m k = Some (a, k1) /\ f a k1 = Some (b, k2).
Proof.
  unfold bind. destruct (m k) as [[a k1]|]; [eauto | discriminate].
Qed.

Lemma lift_eq {A : Type} (o : option A) (a : A) (k : nat) :
  o = Some a -> lift o k = Some (a, k).
Proof. intros ->. reflexivity. Qed.

(** A loop runs to its end and establishes [P []] when each turn of the
    body runs and carries [P] from the elements still to come to those
    left after it. *)
Lemma for_each_total {A S : Type} (P : list A -> S -> Prop)
  (body : A -> S -> M S) :
  (forall x rest s k, P (x :: rest) s ->
     exists s' k', body x s k = Some (s', k') /\ P rest s') ->
  forall xs s k, P xs s ->
    exists s' k', for_each xs body s k = Some (s', k') /\ P [] s'.
Proof.
  intros Hbody xs; induction xs as [|x xs IH]; intros s k HP; simpl.
  - exists s, k. split; [reflexivity | assumption].
  - destruct (Hbody x xs s k HP) as (s1 & k1 & E1 & HP1).
    rewrite (bind_eq _ _ _ _ _ E1). apply IH; assumption.
Qed.

(** ** Graph operations *)

Lemma has_node_In (g : Graph) (x : nat) :
  has_node g x = true <-> In x (node_ids g).
Proof.
  unfold has_node. rewrite existsb_exists. split.
  - intros (y & Hy & E). apply Nat.eqb_eq in E. subst. assumption.
  - intros H. exists x. split; [assumption | apply Nat.eqb_refl].
Qed.

Lemma has_node_not_In (g : Graph) (x : nat) :
  has_node g x = false <-> ~ In x (node_ids g).
Proof.
  rewrite <- has_node_In. destruct (has_node g x); split; congruence.
Qed.

Lemma lookup_In (x : nat) (ns : list (nat * Label)) :
  In x (map fst ns) -> exists l, lookup x ns = Some l.
Proof.
  induction ns as [|[y ly] ns IH]; simpl; [tauto|].
  intros H. destruct (Nat.eqb_spec x y); [eauto|].
  apply IH. destruct H; [congruence | assumption].
Qed.

Lemma lookup_Some_In (x : nat) (l : Label) (ns : list (nat * Label)) :
  lookup x ns = Some l -> In x (map fst ns).
Proof.
  induction ns as [|[y ly] ns IH]; simpl; [discriminate|].
  destruct (Nat.eqb_spec x y); auto.
Qed.

Lemma set_attr_ids (x : nat) (l : Label) (ns : list (nat * Label)) :
  map fst (set_attr x l ns) = map fst ns.
Proof.
  induction ns as [|[y ly] ns IH]; simpl; [reflexivity|].
  destruct (Nat.eqb x y); simpl; congruence.
Qed.

Lemma set_attr_length (x : nat) (l : Label) (ns : list (nat * Label)) :
  List.length (set_attr x l ns) = List.length ns.
Proof.
  rewrite <- (length_map fst (set_attr x l ns)), set_attr_ids.
  apply length_map.
Qed.

Lemma lookup_set_attr_same (x : nat) (l : Label) (ns : list (nat * Label)) :
  In x (map fst ns) -> lookup x (set_attr x l ns) = Some l.
Proof.
  induction ns as [|[y ly] ns IH]; simpl; [tauto|].
  intros H. destruct (Nat.eqb_spec x y) as [->|Hxy]; simpl.
  - rewrite Nat.eqb_refl. reflexivity.
  - destruct (Nat.eqb_spec x y); [congruence|].
    apply IH. destruct H; [congruence | assumption].
Qed.

Lemma lookup_set_attr_other (x y : nat) (l : Label)
  (ns : list (nat * Label)) :
  y <> x -> lookup y (set_attr x l ns) = lookup y ns.
Proof.
  intros Hyx. induction ns as [|[z lz] ns IH]; simpl; [reflexivity|].
  destruct (Nat.eqb_spec x z) as [->|Hxz]; simpl.
  - destruct (Nat.eqb_spec y z); [congruence | reflexivity].
  - destruct (Nat.eqb_spec y z); [reflexivity | assumption].
Qed.

Lemma lookup_app_fresh (x y : nat) (l : Label) (ns : list (nat * Label)) :
  In y (map fst ns) -> lookup y (ns ++ [(x, l)]) = lookup y ns.
Proof.
  induction ns as [|[z lz] ns IH]; simpl; [tauto|].
  intros H. destruct (Nat.eqb_spec y z); [reflexivity|].
  apply IH. destruct H; [congruence | assumption].
Qed.

Lemma label_In (g : Graph) (x : nat) :
  In x (node_ids g) -> exists l, label g x = Some l.
Proof. apply lookup_In. Qed.

Lemma set_label_relabel (g : Graph) (x : nat) (l : Label) :
  In x (node_ids g) -> set_label g x l = Some (relabel g x l).
Proof.
  intros H. apply has_node_In in H. unfold set_label. rewrite H.
  reflexivity.
Qed.

Lemma remove_node_without (g : Graph) (x : nat) :
  In x (node_ids g) -> remove_node g x = Some (without_node g x).
Proof.
  intros H. apply has_node_In in H. unfold remove_node. rewrite H.
  reflexivity.
Qed.

Lemma relabel_ids (g : Graph) (x : nat) (l : Label) :
  node_ids (relabel g x l) = node_ids g.
Proof. apply set_attr_ids. Qed.

Lemma relabel_size (g : Graph) (x : nat) (l : Label) :
  size (relabel g x l) = size g.
Proof. unfold size, relabel. simpl. rewrite set_attr_length. reflexivity. Qed.

Lemma wf_relabel (g : Graph) (x : nat) (l : Label) :
  wf_graph g -> wf_graph (relabel g x l).
Proof.
  unfold wf_graph. rewrite relabel_ids. simpl. tauto.
Qed.

Lemma add_node_cases (g : Graph) (x : nat) (l : Label) :
  (In x (node_ids g) /\ add_node g x l = relabel g x l)
  \/ (~ In x (node_ids g)
      /\ add_node g x l = mkGraph (nodes g ++ [(x, l)]) (edges g)).
Proof.
  unfold add_node. destruct (has_node g x) eqn:E.
  - left. split; [apply has_node_In; assumption | reflexivity].
  - right. split; [apply has_node_not_In; assumption | reflexivity].
Qed.

Lemma wf_add_node (g : Graph) (x : nat) (l : Label) :
  wf_graph g -> wf_graph (add_node g x l).
Proof.
  intros Hwf. destruct (add_node_cases g x l) as [[_ ->]|[Hx ->]].
  - apply wf_relabel; assumption.
  - destruct Hwf as [Hnd Hed]. unfold wf_graph, node_ids in *. simpl.
    rewrite map_app. simpl. split.
    + apply NoDup_app; [assumption | repeat constructor; simpl; tauto |].
      intros y Hy [<-|[]]. contradiction.
    + intros e He. destruct (Hed e He). split; apply in_or_app; auto.
Qed.

Lemma add_node_size (g : Graph) (x : nat) (l : Label) :
  size g <= size (add_node g x l) <= size g + 1.
Proof.
  destruct (add_node_cases g x l) as [[_ ->]|[_ ->]].
  - rewrite relabel_size. lia.
  - unfold size. simpl. rewrite length_app. simpl. lia.
Qed.

Lemma without_node_ids (g : Graph) (x : nat) :
  node_ids (without_node g x)
  = filter (fun y => negb (Nat.eqb y x)) (node_ids g).
Proof.
  unfold node_ids, without_node. simpl.
  induction (nodes g) as [|[y ly] ns IH]; simpl; [reflexivity|].
  destruct (Nat.eqb y x); simpl; congruence.
Qed.

Lemma wf_without_node (g : Graph) (x : nat) :
  wf_graph g -> wf_graph (without_node g x).
Proof.
  intros [Hnd Hed]. unfold wf_graph. rewrite without_node_ids. split.
  - apply NoDup_filter. assumption.
  - intros e He. simpl in He. apply filter_In in He. destruct He as [He Hb].
    apply andb_true_iff in Hb. destruct Hb as [H1 H2].
    destruct (Hed e He). split; apply filter_In; auto.
Qed.

Lemma filter_remove_one (x : nat) (xs : list nat) :
  NoDup xs -> In x xs ->
  S (List.length (filter (fun y => negb (Nat.eqb y x)) xs)) = List.length xs.
Proof.
  induction xs as [|y xs IH]; simpl; [tauto|].
  intros Hnd [->|Hin]; inversion Hnd; subst.
  - rewrite Nat.eqb_refl. simpl. f_equal.
    clear IH Hnd. induction xs as [|z xs IH]; simpl; [reflexivity|].
    destruct (Nat.eqb_spec z x) as [->|Hzx]; simpl.
    + exfalso. apply H1. left. reflexivity.
    + f_equal. apply IH; [intros H; apply H1; right; assumption|].
      inversion H2; assumption.
  - destruct (Nat.eqb_spec y x) as [->|Hyx]; [contradiction|].
    simpl. f_equal. apply IH; assumption.
Qed.

Lemma without_node_size (g : Graph) (x : nat) :
  wf_graph g -> In x (node_ids g) -> size (without_node g x) = size g - 1.
Proof.
  intros [Hnd _] Hin. unfold size.
  rewrite <- (length_map fst (nodes (without_node g x))).
  rewrite <- (length_map fst (nodes g)).
  fold (node_ids (without_node g x)). fold (node_ids g).
  rewrite without_node_ids.
  pose proof (filter_remove_one x (node_ids g) Hnd Hin). lia.
Qed.

Lemma label_without_other (g : Graph) (x y : nat) :
  y <> x -> label (without_node g x) y = label g y.
Proof.
  intros Hyx. unfold label, without_node. simpl.
  induction (nodes g) as [|[z lz] ns IH]; simpl; [reflexivity|].
  destruct (Nat.eqb_spec z x) as [->|Hzx]; simpl.
  - destruct (Nat.eqb_spec y x); [congruence | assumption].
  - destruct (Nat.eqb_spec y z); [reflexivity | assumption].
Qed.

Lemma adj_closed (g : Graph) (x : nat) (nbrs : list nat) :
  wf_graph g -> adj g x = Some nbrs ->
  forall y, In y nbrs -> In y (node_ids g).
Proof.
  intros [_ Hed] Hadj y Hy. unfold adj in Hadj.
  destruct (has_node g x); [|discriminate]. injection Hadj as <-.
  apply in_flat_map in Hy. destruct Hy as (e & He & Hy).
  destruct (Hed e He) as [H1 H2].
  destruct (Nat.eqb (fst e) x); [destruct Hy as [<-|[]]; assumption|].
  destruct (Nat.eqb (snd e) x); [destruct Hy as [<-|[]]; assumption|].
  destruct Hy.
Qed.

Lemma adj_In (g : Graph) (x : nat) :
  In x (node_ids g) -> exists nbrs, adj g x = Some nbrs.
Proof.
  intros H. apply has_node_In in H. unfold adj. rewrite H. eauto.
Qed.

(** ** Counting labels *)

Lemma lookup_app_new (x : nat) (l : Label) (ns : list (nat * Label)) :
  ~ In x (map fst ns) -> lookup x (ns ++ [(x, l)]) = Some l.
Proof.
  induction ns as [|[y ly] ns IH]; simpl; intros Hin.
  - rewrite Nat.eqb_refl. reflexivity.
  - destruct (Nat.eqb_spec x y) as [->|Hxy]; [tauto|].
    apply IH. tauto.
Qed.

Lemma labelled_cons (g : Graph) (l : Label) (x : nat) (xs : list nat)
  (lx : Label) :
  label g x = Some lx ->
  labelled g l (x :: xs)
  = (if Label_eqb lx l then 1 else 0) + labelled g l xs.
Proof.
  intros E. unfold labelled. cbn [filter]. rewrite E.
  destruct (Label_eqb lx l); cbn [List.length]; lia.
Qed.

Lemma labelled_ext (g g' : Graph) (l : Label) (xs : list nat) :
  (forall y, In y xs -> label g' y = label g y) ->
  labelled g' l xs = labelled g l xs.
Proof.
  intros H. unfold labelled. f_equal. f_equal.
  induction xs as [|x xs IH]; simpl; [reflexivity|].
  rewrite (H x (or_introl eq_refl)).
  rewrite IH by (intros y Hy; apply H; right; assumption).
  reflexivity.
Qed.

Lemma labelled_all (g : Graph) (xs : list nat) :
  incl xs (node_ids g) ->
  labelled g Susceptible xs + labelled g Infected xs
  + labelled g Recovered xs = Z.of_nat (List.length xs).
Proof.
  induction xs as [|x xs IH]; intros Hincl; [reflexivity|].
  destruct (label_In g x (Hincl x (or_introl eq_refl))) as [lx E].
  rewrite !(labelled_cons g _ x xs lx E).
  assert (H : incl xs (node_ids g))
    by (intros y Hy; apply Hincl; right; assumption).
  specialize (IH H). cbn [List.length]. destruct lx; cbn [Label_eqb]; lia.
Qed.

Lemma labelled_snoc (g : Graph) (l : Label) (x : nat) (xs : list nat)
  (lx : Label) :
  label g x = Some lx ->
  labelled g l (xs ++ [x])
  = labelled g l xs + (if Label_eqb lx l then 1 else 0).
Proof.
  intros E. unfold labelled. rewrite filter_app, length_app.
  cbn [filter]. rewrite E.
  destruct (Label_eqb lx l); cbn [List.length]; lia.
Qed.

Lemma labelled_nonneg (g : Graph) (l : Label) (xs : list nat) :
  0 <= labelled g l xs.
Proof. unfold labelled. lia. Qed.

Lemma filter_absent (x : nat) (xs : list nat) :
  ~ In x xs -> filter (fun y => negb (Nat.eqb y x)) xs = xs.
Proof.
  induction xs as [|y xs IH]; simpl; intros H; [reflexivity|].
  destruct (Nat.eqb_spec y x) as [->|Hyx]; [tauto|].
  simpl. f_equal. apply IH. tauto.
Qed.

Lemma labelled_skip (g : Graph) (l : Label) (y : nat) (xs : list nat) :
  label g y = None -> labelled g l (y :: xs) = labelled g l xs.
Proof. intros E. unfold labelled. cbn [filter]. rewrite E. reflexivity. Qed.

Lemma labelled_remove_one (g : Graph) (l : Label) (x : nat) (lx : Label)
  (xs : list nat) :
  NoDup xs -> In x xs -> label g x = Some lx ->
  labelled g l xs
  = labelled g l (filter (fun y => negb (Nat.eqb y x)) xs)
    + (if Label_eqb lx l then 1 else 0).
Proof.
  intros Hnd Hin Ex. induction xs as [|y xs IH]; [destruct Hin|].
  inversion Hnd as [|? ? Hy Hnd']; subst.
  cbn [filter]. destruct (Nat.eqb_spec y x) as [->|Hyx]; cbn [negb].
  - rewrite (labelled_cons _ _ _ _ _ Ex), (filter_absent _ _ Hy). lia.
  - destruct Hin as [->|Hin]; [congruence|].
    destruct (label g y) as [ly|] eqn:Ey.
    + rewrite !(labelled_cons _ _ _ _ _ Ey). rewrite (IH Hnd' Hin). lia.
    + rewrite !(labelled_skip _ _ _ _ Ey). apply (IH Hnd' Hin).
Qed.

Lemma label_relabel_same (g : Graph) (x : nat) (l : Label) :
  In x (node_ids g) -> label (relabel g x l) x = Some l.
Proof. apply lookup_set_attr_same. Qed.

Lemma label_relabel_other (g : Graph) (x y : nat) (l : Label) :
  y <> x -> label (relabel g x l) y = label g y.
Proof. apply lookup_set_attr_other. Qed.

Lemma holders_relabel (g : Graph) (x : nat) (lx l' l : Label) :
  wf_graph g -> label g x = Some lx ->
  holders (relabel g x l') l
  = holders g l - (if Label_eqb lx l then 1 else 0)
    + (if Label_eqb l' l then 1 else 0).
Proof.
  intros [Hnd _] Ex.
  assert (Hin : In x (node_ids g)) by (eapply lookup_Some_In; exact Ex).
  unfold holders. rewrite relabel_ids.
  rewrite (labelled_remove_one (relabel g x l') l x l' (node_ids g) Hnd Hin
             (label_relabel_same g x l' Hin)).
  rewrite (labelled_remove_one g l x lx (node_ids g) Hnd Hin Ex).
  rewrite (labelled_ext g (relabel g x l')); [lia|].
  intros y Hy. apply filter_In in Hy. destruct Hy as [_ Hy].
  apply label_relabel_other.
  destruct (Nat.eqb_spec y x); [discriminate | assumption].
Qed.

Lemma holders_add_node (g : Graph) (x : nat) (l' l : Label) :
  wf_graph g ->
  holders (add_node g x l') l
  <= holders g l + (if Label_eqb l' l then 1 else 0).
Proof.
  intros Hwf. destruct (add_node_cases g x l') as [[Hin ->]|[Hin E]].
  - destruct (label_In g x Hin) as [lx Ex].
    rewrite (holders_relabel g x lx l' l Hwf Ex).
    destruct (Label_eqb lx l); lia.
  - rewrite E. unfold holders, node_ids. simpl. rewrite map_app. simpl.
    fold (node_ids g).
    rewrite (labelled_snoc _ l x (node_ids g) l').
    + rewrite (labelled_ext g); [lia|].
      intros y Hy. unfold label. simpl. apply lookup_app_fresh. assumption.
    + unfold label. simpl. apply lookup_app_new. assumption.
Qed.

Lemma holders_without_node (g : Graph) (x : nat) (lx l : Label) :
  wf_graph g -> label g x = Some lx ->
  holders (without_node g x) l
  = holders g l - (if Label_eqb lx l then 1 else 0).
Proof.
  intros [Hnd _] Ex.
  assert (Hin : In x (node_ids g)) by (eapply lookup_Some_In; exact Ex).
  unfold holders. rewrite without_node_ids.
  rewrite (labelled_remove_one g l x lx (node_ids g) Hnd Hin Ex).
  rewrite (labelled_ext g (without_node g x)); [lia|].
  intros y Hy. apply filter_In in Hy. destruct Hy as [_ Hy].
  apply label_without_other.
  destruct (Nat.eqb_spec y x); [discriminate | assumption].
Qed.

(** ** The scan of one node *)

Section Properties.

Variable random : nat -> Q.
Variables gamma beta recovery move_probability : Q.

Lemma wf_store_nth (gs : list Community) (i : nat) (c : Community) :
  wf_store gs -> nth_error gs i = Some c -> wf_graph (c_graph c).
Proof.
  intros [_ H] E. apply H. eapply nth_error_In; eassumption.
Qed.

Lemma wf_store_lt (gs : list Community) (i : nat) (c : Community) :
  wf_store gs -> nth_error gs i = Some c -> (i < 4)%nat.
Proof.
  intros [H _] E. rewrite <- H. apply nth_error_Some. congruence.
Qed.

Lemma wf_store_upd (gs : list Community) (i : nat) (c : Community) :
  wf_store gs -> wf_graph (c_graph c) -> wf_store (upd i c gs).
Proof.
  intros [Hlen Hall] Hc. split.
  - rewrite upd_length. assumption.
  - intros c' Hin. apply In_upd in Hin. destruct Hin as [->|Hin]; auto.
Qed.

Lemma neighbor_loop_outcome (g : Graph) (node : nat) (nbrs : list nat)
  (st : PassState) (k : nat) :
  (forall y, In y nbrs -> In y (node_ids g)) ->
  exists r k',
    neighbor_loop random beta g node nbrs st k = Some (r, k')
    /\ (r = ([], st)
        \/ (r = ([node],
                 with_locals st (local_susceptible st - 1)
                   (local_infected st + 1) (local_recovered st))
            /\ exists neighbor j,
                 In neighbor nbrs /\ label g neighbor = Some Infected
                 /\ Qltb (random j) beta = true)).
Proof.
  revert k. induction nbrs as [|nb nbrs IH]; intros k Hin; simpl.
  - eexists _, _. split; [reflexivity | left; reflexivity].
  - destruct (label_In g nb (Hin nb (or_introl eq_refl))) as [l El].
    rewrite (bind_eq _ _ _ _ _ (lift_eq _ _ _ El)).
    assert (Hrest : forall y, In y nbrs -> In y (node_ids g))
      by (intros y Hy; apply Hin; right; assumption).
    destruct l; simpl.
    + unfold bind at 1, ret at 1.
      destruct (IH k Hrest) as (r & k' & E & H). exists r, k'.
      split; [assumption|]. destruct H as [H|(H & nb' & j & H1 & H2)];
        [left; assumption | right; split; [assumption|]].
      exists nb', j. simpl. tauto.
    + unfold bind at 1. unfold bind at 1. unfold random_random, ret.
      destruct (Qltb (random k) beta) eqn:Eb.
      * eexists _, _. split; [reflexivity|]. right. split; [reflexivity|].
        exists nb, k. simpl. auto.
      * destruct (IH (S k) Hrest) as (r & k' & E & H). exists r, k'.
        split; [assumption|]. destruct H as [H|(H & nb' & j & H1 & H2)];
          [left; assumption | right; split; [assumption|]].
        exists nb', j. simpl. tauto.
    + unfold bind at 1, ret at 1.
      destruct (IH k Hrest) as (r & k' & E & H). exists r, k'.
      split; [assumption|]. destruct H as [H|(H & nb' & j & H1 & H2)];
        [left; assumption | right; split; [assumption|]].
      exists nb', j. simpl. tauto.
Qed.


Lemma move_node_eq (num_graph node d : nat) (st : PassState) (k : nat)
  (c cd : Community) (l : Label) :
  nth_error (ps_graphs st) num_graph = Some c ->
  label (c_graph c) node = Some l ->
  d <> num_graph ->
  nth_error (ps_graphs st) d = Some cd ->
  move_node num_graph node (S d) st k
  = Some (with_graphs st
            (upd d (set_count (set_graph cd (add_node (c_graph cd) node l))
                      l (count cd l + 1))
               (ps_graphs st)), k).
Proof.
  intros Ec El Hd Ed.
  assert (Hlt : (d < List.length (ps_graphs st))%nat)
    by (apply nth_error_Some; congruence).
  unfold move_node, the_graph. simpl. rewrite Nat.sub_0_r.
  rewrite (bind_eq _ _ _ _ _ (bind_eq _ _ _ _ _ (lift_eq _ _ _ Ec))).
  unfold ret at 1. simpl.
  rewrite (bind_eq _ _ _ _ _ (lift_eq _ _ _ El)).
  rewrite (bind_eq _ _ _ _ _ (lift_eq _ _ _ Ed)).
  rewrite (bind_eq _ _ _ _ _ (lift_eq _ _ _ (update_nth_upd _ _ _ Hlt))).
  simpl.
  rewrite nth_error_upd_other by assumption.
  rewrite (bind_eq _ _ _ _ _ (bind_eq _ _ _ _ _ (lift_eq _ _ _ Ec))).
  unfold ret at 1. simpl.
  rewrite (bind_eq _ _ _ _ _ (lift_eq _ _ _ El)).
  rewrite (bind_eq _ _ _ _ _
             (lift_eq _ _ _ (nth_error_upd_same _ _ _ Hlt))).
  assert (Hlt' : (d < List.length
                     (upd d (set_graph cd (add_node (c_graph cd) node l))
                        (ps_graphs st)))%nat)
    by (rewrite upd_length; assumption).
  rewrite (bind_eq _ _ _ _ _ (lift_eq _ _ _ (update_nth_upd _ _ _ Hlt'))).
  rewrite upd_upd. unfold ret, with_graphs. simpl.
  destruct l; reflexivity.
Qed.

Lemma put_graph_eq (st : PassState) (num_graph : nat) (g : Graph)
  (c : Community) (k : nat) :
  nth_error (ps_graphs st) num_graph = Some c ->
  put_graph st num_graph g k
  = Some (with_graphs st (upd num_graph (set_graph c g) (ps_graphs st)), k).
Proof.
  intros Ec.
  assert (Hlt : (num_graph < List.length (ps_graphs st))%nat)
    by (apply nth_error_Some; congruence).
  unfold put_graph.
  rewrite (bind_eq _ _ _ _ _ (lift_eq _ _ _ Ec)).
  rewrite (bind_eq _ _ _ _ _ (lift_eq _ _ _ (update_nth_upd _ _ _ Hlt))).
  reflexivity.
Qed.

Lemma the_graph_eq (st : PassState) (num_graph : nat) (c : Community)
  (k : nat) :
  nth_error (ps_graphs st) num_graph = Some c ->
  the_graph st num_graph k = Some (c_graph c, k).
Proof.
  intros Ec. unfold the_graph.
  rewrite (bind_eq _ _ _ _ _ (lift_eq _ _ _ Ec)). reflexivity.
Qed.

Lemma scan_node_outcome (num_graph node : nat) (st : PassState) (k : nat)
  (c : Community) :
  wf_store (ps_graphs st) ->
  nth_error (ps_graphs st) num_graph = Some c ->
  In node (node_ids (c_graph c)) ->
  exists st' k',
    scan_node random beta recovery move_probability num_graph node st k
    = Some (st', k')
    /\ scan_outcome random beta recovery move_probability num_graph node st st'.
Proof.
  intros Hwf Ec Hnode.
  pose proof (wf_store_lt _ _ _ Hwf Ec) as Hlt.
  pose proof (wf_store_nth _ _ _ Hwf Ec) as Hg.
  destruct (label_In _ _ Hnode) as [l El].
  unfold scan_node.
  unfold bind at 1. unfold random_random at 1.
  destruct (Qltb (random k) move_probability) eqn:Emove.
  - destruct (destination_index random num_graph (S k) Hlt)
      as (d & Ed' & Hd' & Hne).
    rewrite (bind_eq _ _ _ _ _ Ed').
    rewrite (bind_eq _ _ _ _ _ (lift_eq _ _ _ eq_refl)).
    destruct (nth_error_lt (ps_graphs st) d) as [cd Ecd];
      [destruct Hwf as [-> _]; lia|].
    rewrite (bind_eq _ _ _ _ _
               (move_node_eq num_graph node d st _ c cd l Ec El
                  ltac:(lia) Ecd)).
    eexists _, _. split; [reflexivity|].
    eapply node_moves with (d := d); eauto.
  - rewrite (bind_eq _ _ _ _ _ (the_graph_eq _ _ _ _ Ec)).
    rewrite (bind_eq _ _ _ _ _ (lift_eq _ _ _ El)).
    destruct l; simpl.
    + (* susceptible *)
      unfold bind at 1, ret at 1. unfold bind at 1, ret at 1.
      destruct (adj_In _ _ Hnode) as [nbrs Enb].
      rewrite (bind_eq _ _ _ _ _ (lift_eq _ _ _ Enb)).
      destruct (neighbor_loop_outcome (c_graph c) node nbrs st (S k)
                  (adj_closed _ _ _ Hg Enb))
        as (r & k' & Er & [->|(-> & nb & j & Hnb & Hlab & Hj)]);
        rewrite (bind_eq _ _ _ _ _ Er).
      * eexists _, _. split; [reflexivity|]. apply node_stays. reflexivity.
      * simpl.
        set (st1 := with_locals st (local_susceptible st - 1)
                      (local_infected st + 1) (local_recovered st)).
        assert (Ec1 : nth_error (ps_graphs st1) num_graph = Some c)
          by exact Ec.
        unfold bind at 1.
        rewrite (bind_eq _ _ _ _ _ (the_graph_eq _ _ _ _ Ec1)).
        rewrite (bind_eq _ _ _ _ _
                   (lift_eq _ _ _ (set_label_relabel _ _ _ Hnode))).
        rewrite (put_graph_eq _ _ _ _ _ Ec1).
        eexists _, _. split; [reflexivity|].
        eapply node_catches; eauto.
    + (* infected *)
      unfold bind at 1. unfold bind at 1. unfold random_random at 1.
      unfold ret at 1.
      destruct (Qltb (random (S k)) recovery) eqn:Erec.
      * rewrite (bind_eq _ _ _ _ _
                   (lift_eq _ _ _ (set_label_relabel _ _ _ Hnode))).
        rewrite (bind_eq _ _ _ _ _ (put_graph_eq _ _ _ _ _ Ec)).
        eexists _, _. split; [reflexivity|].
        eapply node_recovers; eauto.
      * eexists _, _. split; [reflexivity|]. apply node_stays. reflexivity.
    + (* recovered *)
      unfold bind at 1, ret at 1.
      unfold bind at 1. unfold bind at 1. unfold random_random at 1.
      unfold ret at 1. unfold r_to_s.
      destruct (Qltb (random (S k)) recovery) eqn:Erec.
      * rewrite (bind_eq _ _ _ _ _
                   (lift_eq _ _ _ (set_label_relabel _ _ _ Hnode))).
        rewrite (bind_eq _ _ _ _ _ (put_graph_eq _ _ _ _ _ Ec)).
        eexists _, _. split; [reflexivity|].
        eapply node_relapses; eauto.
      * eexists _, _. split; [reflexivity|]. apply node_stays. reflexivity.
Qed.


Lemma c_graph_set_count (c : Community) (l : Label) (v : Z) :
  c_graph (set_count c l v) = c_graph c.
Proof. destruct l; reflexivity. Qed.

Lemma outcome_wf (num_graph node : nat) (ids rest : list nat)
  (st st' : PassState) :
  scan_wf num_graph ids (node :: rest) st ->
  scan_outcome random beta recovery move_probability num_graph node st st' ->
  scan_wf num_graph ids rest st'.
Proof.
  intros (Hwf & (c0 & Ec0 & Hids) & Hnd & Hincl) Hout.
  assert (Hnd' : NoDup (nodes_to_remove st ++ rest))
    by (eapply NoDup_remove_1; eassumption).
  assert (Hincl' : incl (nodes_to_remove st ++ rest) ids).
  { intros y Hy. apply Hincl. apply in_app_or in Hy. apply in_or_app.
    simpl. tauto. }
  assert (Hrelabel : forall c l,
             nth_error (ps_graphs st) num_graph = Some c ->
             scan_wf num_graph ids rest
               (mkPass (upd num_graph
                          (set_graph c (relabel (c_graph c) node l))
                          (ps_graphs st))
                  (local_susceptible st) (local_infected st)
                  (local_recovered st) (nodes_to_remove st))).
  { intros c l Ec. rewrite Ec in Ec0. injection Ec0 as <-.
    split; [|split; [|split]]; simpl; try assumption.
    - apply wf_store_upd; [assumption|]. simpl. apply wf_relabel.
      eapply wf_store_nth; eassumption.
    - eexists. split.
      + apply nth_error_upd_same. apply nth_error_Some. congruence.
      + simpl. rewrite relabel_ids. assumption. }
  destruct Hout as [c cd l d j _ Ec El Hd Ecd ->
                   |c j _ Ec El -> |c j _ Ec El ->
                   |c nb j nbrs _ Ec El _ _ _ -> | ->].
  - split; [|split; [|split]]; simpl.
    + apply wf_store_upd; [assumption|]. rewrite c_graph_set_count. simpl.
      apply wf_add_node. eapply wf_store_nth; eassumption.
    + exists c0. rewrite nth_error_upd_other by assumption. auto.
    + rewrite <- app_assoc. assumption.
    + rewrite <- app_assoc. assumption.
  - destruct (Hrelabel c Recovered Ec) as (H1 & H2 & H3 & H4).
    split; [|split; [|split]]; assumption.
  - destruct (Hrelabel c Susceptible Ec) as (H1 & H2 & H3 & H4).
    split; [|split; [|split]]; assumption.
  - destruct (Hrelabel c Infected Ec) as (H1 & H2 & H3 & H4).
    split; [|split; [|split]]; assumption.
  - split; [|split; [|split]]; eauto.
Qed.

(** The scan of a well-formed store runs to its end, and every property
    that each outcome of the scan of a node preserves holds when it
    ends. *)
Lemma scan_nodes_total (num_graph : nat) (Q : PassState -> Prop)
  (st : PassState) (k : nat) (c : Community) :
  wf_store (ps_graphs st) ->
  nth_error (ps_graphs st) num_graph = Some c ->
  nodes_to_remove st = [] ->
  Q st ->
  (forall node rest s s',
      scan_wf num_graph (node_ids (c_graph c)) (node :: rest) s ->
      Q s ->
      scan_outcome random beta recovery move_probability num_graph node
        s s' ->
      Q s') ->
  exists st' k',
    scan_nodes random beta recovery move_probability num_graph st k
    = Some (st', k')
    /\ scan_wf num_graph (node_ids (c_graph c)) [] st' /\ Q st'.
Proof.
  intros Hwf Ec Hrm HQ Hstep.
  unfold scan_nodes. rewrite (bind_eq _ _ _ _ _ (the_graph_eq _ _ _ _ Ec)).
  destruct (for_each_total
              (fun rest s =>
                 scan_wf num_graph (node_ids (c_graph c)) rest s /\ Q s)
              (scan_node random beta recovery move_probability num_graph))
    with (xs := node_ids (c_graph c)) (s := st) (k := k)
    as (st' & k' & E & H).
  - intros node rest s j [Hs HQs].
    pose proof Hs as (Hwfs & (cs & Ecs & Hids) & Hnd & Hincl).
    assert (Hin : In node (node_ids (c_graph cs))).
    { rewrite Hids. apply Hincl. apply in_or_app. simpl. auto. }
    destruct (scan_node_outcome num_graph node s j cs Hwfs Ecs Hin)
      as (s' & j' & Es & Hout).
    exists s', j'. split; [assumption|]. split.
    + eapply outcome_wf; eassumption.
    + eapply Hstep; eassumption.
  - split; [|assumption]. split; [assumption|]. split; [eauto|].
    rewrite Hrm. simpl. split; [|apply incl_refl].
    eapply wf_store_nth in Ec; [|eassumption]. apply Ec.
  - exists st', k'. tauto.
Qed.

(** ** The removal loop *)

Lemma set_graph_set_graph (c : Community) (g g' : Graph) :
  set_graph (set_graph c g) g' = set_graph c g'.
Proof. reflexivity. Qed.

(** The removal loop runs to its end: it takes the scheduled nodes out of
    the graph and lowers each local counter by the number of scheduled
    nodes that carry its label. *)
Lemma remove_loop (num_graph : nat) (rm : list nat) :
  forall (st : PassState) (k : nat) (c : Community),
    wf_store (ps_graphs st) ->
    nth_error (ps_graphs st) num_graph = Some c ->
    NoDup rm -> incl rm (node_ids (c_graph c)) ->
    exists st' g',
      for_each rm (remove_scheduled num_graph) st k = Some (st', k)
      /\ ps_graphs st' = upd num_graph (set_graph c g') (ps_graphs st)
      /\ wf_graph g'
      /\ size g' = size (c_graph c) - Z.of_nat (List.length rm)
      /\ (forall l,
            holders g' l = holders (c_graph c) l - labelled (c_graph c) l rm)
      /\ nodes_to_remove st' = nodes_to_remove st
      /\ forall l,
           local_count st' l = local_count st l - labelled (c_graph c) l rm.
Proof.
  induction rm as [|x rm IH]; intros st k c Hwf Ec Hnd Hincl.
  - exists st, (c_graph c). simpl. split; [reflexivity|].
    split; [|split; [eapply wf_store_nth; eassumption|]].
    + clear -Ec. revert Ec. generalize (ps_graphs st) as gs.
      intros gs; revert num_graph.
      induction gs as [|y gs IHgs]; intros [|i] E; simpl in *;
        try discriminate.
      * injection E as ->. destruct c; reflexivity.
      * rewrite <- IHgs by assumption. reflexivity.
    + split; [lia|]. split; [intros l; unfold labelled; simpl; lia|].
      split; [reflexivity|]. intros l. unfold labelled. simpl. lia.
  - assert (Hx : In x (node_ids (c_graph c)))
      by (apply Hincl; left; reflexivity).
    destruct (label_In _ _ Hx) as [lx Elx].
    pose proof (wf_store_nth _ _ _ Hwf Ec) as Hg.
    inversion Hnd as [|? ? Hxrm Hnd']; subst.
    set (st1 := if Label_eqb lx Susceptible then
                  with_locals st (local_susceptible st - 1)
                    (local_infected st) (local_recovered st)
                else if Label_eqb lx Infected then
                  with_locals st (local_susceptible st)
                    (local_infected st - 1) (local_recovered st)
                else if Label_eqb lx Recovered then
                  with_locals st (local_susceptible st) (local_infected st)
                    (local_recovered st - 1)
                else st).
    assert (Hgs1 : ps_graphs st1 = ps_graphs st)
      by (unfold st1; destruct lx; reflexivity).
    assert (Hrm1 : nodes_to_remove st1 = nodes_to_remove st)
      by (unfold st1; destruct lx; reflexivity).
    assert (Hloc1 : forall l, local_count st1 l
                              = local_count st l
                                - (if Label_eqb lx l then 1 else 0))
      by (intros l; unfold st1; destruct lx, l; simpl; lia).
    assert (Ec1 : nth_error (ps_graphs st1) num_graph = Some c)
      by (rewrite Hgs1; assumption).
    set (st2 := with_graphs st1
                  (upd num_graph (set_graph c (without_node (c_graph c) x))
                     (ps_graphs st1))).
    assert (E2 : remove_scheduled num_graph x st k = Some (st2, k)).
    { unfold remove_scheduled.
      rewrite (bind_eq _ _ _ _ _ (the_graph_eq _ _ _ _ Ec)).
      rewrite (bind_eq _ _ _ _ _ (lift_eq _ _ _ Elx)).
      rewrite (bind_eq _ _ _ _ _
                 (lift_eq _ _ _ (remove_node_without _ _ Hx))).
      fold st1. apply put_graph_eq. assumption. }
    assert (Hlt : (num_graph < List.length (ps_graphs st))%nat)
      by (apply nth_error_Some; congruence).
    destruct (IH st2 k (set_graph c (without_node (c_graph c) x)))
      as (st' & g' & E & Hgs & Hg' & Hsize & Hhold & Hrm & Hloc).
    + unfold st2. simpl. rewrite Hgs1. apply wf_store_upd; [assumption|].
      simpl. apply wf_without_node. assumption.
    + unfold st2. simpl. rewrite Hgs1. apply nth_error_upd_same. assumption.
    + assumption.
    + simpl. rewrite without_node_ids. intros y Hy. apply filter_In.
      split; [apply Hincl; right; assumption|].
      destruct (Nat.eqb_spec y x); [subst; contradiction | reflexivity].
    + exists st', g'. simpl for_each.
      rewrite (bind_eq _ _ _ _ _ E2). split; [assumption|].
      assert (Hsame : forall l, labelled (without_node (c_graph c) x) l rm
                                = labelled (c_graph c) l rm).
      { intros l. apply labelled_ext. intros y Hy.
        apply label_without_other. congruence. }
      split; [|split; [assumption|split; [|split; [|split]]]].
      * rewrite Hgs. unfold st2. simpl. rewrite Hgs1, upd_upd. reflexivity.
      * rewrite Hsize. simpl c_graph.
        rewrite without_node_size by assumption.
        change (List.length (x :: rm)) with (S (List.length rm)). lia.
      * intros l. rewrite Hhold. simpl c_graph. rewrite Hsame.
        rewrite (holders_without_node _ _ _ _ Hg Elx).
        rewrite (labelled_cons _ _ _ _ _ Elx). lia.
      * rewrite Hrm. unfold st2. simpl. assumption.
      * intros l. rewrite Hloc. simpl c_graph.
        rewrite (labelled_ext (c_graph c) (without_node (c_graph c) x)).
        -- rewrite (labelled_cons _ _ _ _ _ Elx).
           change (local_count st2 l) with (local_count st1 l).
           rewrite Hloc1. lia.
        -- intros y Hy. apply label_without_other. congruence.
Qed.

(** ** One call of performGraphIteration *)

(** The call runs to its end on a well-formed store; what it returns is
    determined by the state [st] in which the scan ended, of which every
    property preserved by the outcomes of the scan holds. *)
Lemma pass_total (num_graph : nat) (Q : PassState -> Prop)
  (gs : list Community) (k : nat) (c : Community) :
  wf_store gs ->
  nth_error gs num_graph = Some c ->
  Q (mkPass gs (c_susceptible c) (c_infected c) (c_recovered c) []) ->
  (forall node rest s s',
      scan_wf num_graph (node_ids (c_graph c)) (node :: rest) s ->
      Q s ->
      scan_outcome random beta recovery move_probability num_graph node
        s s' ->
      Q s') ->
  exists gs' k' st c1 g',
    performGraphIteration random beta recovery move_probability
      num_graph gs k = Some (gs', k')
    /\ Q st
    /\ wf_store (ps_graphs st)
    /\ nth_error (ps_graphs st) num_graph = Some c1
    /\ NoDup (nodes_to_remove st)
    /\ incl (nodes_to_remove st) (node_ids (c_graph c1))
    /\ wf_graph g'
    /\ size g'
       = size (c_graph c1) - Z.of_nat (List.length (nodes_to_remove st))
    /\ (forall l, holders g' l
                  = holders (c_graph c1) l
                    - labelled (c_graph c1) l (nodes_to_remove st))
    /\ gs' = upd num_graph (settled st c1 g') (ps_graphs st).
Proof.
  intros Hwf Ec HQ Hstep.
  set (st0 := mkPass gs (c_susceptible c) (c_infected c) (c_recovered c) []).
  assert (E0 : start_pass num_graph gs k = Some (st0, k)).
  { unfold start_pass. rewrite (bind_eq _ _ _ _ _ (lift_eq _ _ _ Ec)).
    reflexivity. }
  destruct (scan_nodes_total num_graph Q st0 k c Hwf Ec eq_refl HQ Hstep)
    as (st & k' & E1 & (Hwf1 & (c1 & Ec1 & Hids) & Hnd & Hincl) & HQ1).
  rewrite app_nil_r in Hnd, Hincl. rewrite <- Hids in Hincl.
  destruct (remove_loop num_graph (nodes_to_remove st) st k' c1
              Hwf1 Ec1 Hnd Hincl)
    as (st2 & g' & E2 & Hgs2 & Hg' & Hsize & Hhold & Hrm2 & Hloc2).
  assert (Hlt : (num_graph < List.length (ps_graphs st))%nat)
    by (apply nth_error_Some; congruence).
  exists (upd num_graph (settled st c1 g') (ps_graphs st)), k', st, c1, g'.
  split; [|repeat (split; [assumption|]); reflexivity].
  unfold performGraphIteration.
  rewrite (bind_eq _ _ _ _ _ E0), (bind_eq _ _ _ _ _ E1).
  unfold remove_nodes at 1. rewrite (bind_eq _ _ _ _ _ E2).
  unfold finish_pass. rewrite Hgs2.
  rewrite (bind_eq _ _ _ _ _
             (lift_eq _ _ _ (nth_error_upd_same _ _ _ Hlt))).
  rewrite update_nth_upd by (rewrite upd_length; assumption).
  rewrite upd_upd. unfold lift. do 3 f_equal. unfold settled. simpl.
  pose proof (Hloc2 Susceptible) as HS. pose proof (Hloc2 Infected) as HI.
  pose proof (Hloc2 Recovered) as HR. simpl in HS, HI, HR.
  rewrite HS, HI, HR. reflexivity.
Qed.

Lemma wf_store_settled (num_graph : nat) (st : PassState) (c : Community)
  (g' : Graph) :
  wf_store (ps_graphs st) -> wf_graph g' ->
  wf_store (upd num_graph (settled st c g') (ps_graphs st)).
Proof. intros H1 H2. apply wf_store_upd; assumption. Qed.

(** ** Counters never fall below the size of the graph *)

Lemma population_set_count (c : Community) (l : Label) (v : Z) :
  population (set_count c l v) = population c - count c l + v.
Proof. destruct l; unfold population; simpl; lia. Qed.

Lemma settled_excess (st : PassState) (c : Community) (g' : Graph) :
  incl (nodes_to_remove st) (node_ids (c_graph c)) ->
  size g' = size (c_graph c) - Z.of_nat (List.length (nodes_to_remove st)) ->
  population (settled st c g') - size g'
  = local_population st - size (c_graph c).
Proof.
  intros Hincl Hsize. pose proof (labelled_all _ _ Hincl).
  unfold population, settled, local_population. simpl. lia.
Qed.

Lemma pass_excess (num_graph : nat) (gs : list Community) (k : nat) :
  wf_store gs -> (num_graph < 4)%nat ->
  (forall c, In c gs -> 0 <= excess c) ->
  exists gs' k',
    performGraphIteration random beta recovery move_probability
      num_graph gs k = Some (gs', k')
    /\ wf_store gs'
    /\ forall c, In c gs' -> 0 <= excess c.
Proof.
  intros Hwf Hlt Hex.
  destruct (nth_error_lt gs num_graph) as [c Ec];
    [destruct Hwf as [-> _]; assumption|].
  destruct (pass_total num_graph
              (fun st =>
                 (forall c', In c' (ps_graphs st) -> 0 <= excess c')
                 /\ forall c1, nth_error (ps_graphs st) num_graph = Some c1 ->
                               population c1 = local_population st)
              gs k c Hwf Ec)
    as (gs' & k' & st & c1 & g' & E & [HQ1 HQ2] & Hwf1 & Ec1 & Hnd & Hincl
        & Hg' & Hsize & _ & ->).
  - simpl. split; [assumption|]. intros c1 E1. rewrite Ec in E1.
    injection E1 as <-. reflexivity.
  - intros node rest s s' Hs [HQ1 HQ2] Hout.
    assert (Hrelabel : forall c0 l a b d,
               nth_error (ps_graphs s) num_graph = Some c0 ->
               a + b + d = local_population s ->
               (forall c', In c' (upd num_graph
                                    (set_graph c0
                                       (relabel (c_graph c0) node l))
                                    (ps_graphs s)) -> 0 <= excess c')
               /\ forall c1,
                    nth_error (upd num_graph
                                 (set_graph c0 (relabel (c_graph c0) node l))
                                 (ps_graphs s)) num_graph = Some c1 ->
                    population c1 = a + b + d).
    { intros c0 l a b d E0 Hsum. split.
      - intros c' Hin. apply In_upd in Hin. destruct Hin as [->|Hin]; auto.
        unfold excess. simpl. rewrite relabel_size.
        apply (HQ1 c0). eapply nth_error_In; eassumption.
      - intros c1 E1. rewrite nth_error_upd_same in E1
          by (apply nth_error_Some; congruence).
        injection E1 as <-. rewrite Hsum. apply (HQ2 c0 E0). }
    destruct Hout as [c0 cd l d j _ E0 El Hd Ecd ->
                     |c0 j _ E0 El -> |c0 j _ E0 El ->
                     |c0 nb j nbrs _ E0 El _ _ _ -> | ->]; simpl.
    + split.
      * intros c' Hin. apply In_upd in Hin. destruct Hin as [->|Hin]; auto.
        unfold excess. rewrite population_set_count, c_graph_set_count.
        simpl. pose proof (add_node_size (c_graph cd) node l).
        pose proof (HQ1 cd (nth_error_In _ _ Ecd)) as Hcd.
        unfold excess in Hcd.
        replace (count (set_graph cd (add_node (c_graph cd) node l)) l)
          with (count cd l) by (destruct l; reflexivity).
        change (population (set_graph cd (add_node (c_graph cd) node l)))
          with (population cd). lia.
      * intros c1 E1. rewrite nth_error_upd_other in E1 by assumption.
        apply (HQ2 c1 E1).
    + apply Hrelabel; [assumption | unfold local_population; simpl; lia].
    + apply Hrelabel; [assumption | unfold local_population; simpl; lia].
    + apply Hrelabel; [assumption | unfold local_population; simpl; lia].
    + split; assumption.
  - exists (upd num_graph (settled st c1 g') (ps_graphs st)), k'.
    split; [assumption|]. split; [apply wf_store_settled; assumption|].
    intros c' Hin. apply In_upd in Hin. destruct Hin as [->|Hin]; auto.
    unfold excess. change (c_graph (settled st c1 g')) with g'.
    rewrite (settled_excess st c1 g' Hincl Hsize).
    rewrite <- (HQ2 c1 Ec1).
    apply (HQ1 c1). eapply nth_error_In; eassumption.
Qed.

(** ** generateErdosRenyi *)

Lemma add_nodes_fold (susceptible infected : Z) (m : nat) :
  forall (a : nat) (G : Graph) (cm : list string),
    nodes G = map (fun i => (i, block_label susceptible infected i))
                  (seq 0 a) ->
    nodes (fst (fold_left
                  (fun (acc : Graph * list string) (i : nat) =>
                     let l := block_label susceptible infected i in
                     (add_node (fst acc) i l, snd acc ++ [block_color l]))
                  (seq a m) (G, cm)))
    = map (fun i => (i, block_label susceptible infected i)) (seq 0 (a + m))
    /\ edges (fst (fold_left
                     (fun (acc : Graph * list string) (i : nat) =>
                        let l := block_label susceptible infected i in
                        (add_node (fst acc) i l, snd acc ++ [block_color l]))
                     (seq a m) (G, cm)))
       = edges G.
Proof.
  induction m as [|m IH]; intros a G cm HG; simpl.
  - rewrite Nat.add_0_r. auto.
  - destruct (add_node_cases G a (block_label susceptible infected a))
      as [[Hin _]|[_ E]].
    + exfalso. unfold node_ids in Hin. rewrite HG, map_map in Hin.
      simpl in Hin. rewrite map_id in Hin. apply in_seq in Hin. lia.
    + rewrite E.
      replace (a + S m)%nat with (S a + m)%nat by lia.
      match goal with
      | |- context [fold_left _ _ (?G1, ?cm1)] =>
          destruct (IH (S a) G1 cm1) as [H1 H2]
      end.
      * cbn [nodes]. rewrite HG, seq_S, map_app. reflexivity.
      * split; [exact H1 | exact H2].
Qed.

Lemma add_edge_cases (G : Graph) (i j : nat) :
  add_edge G i j = G
  \/ add_edge G i j = mkGraph (nodes G) (edges G ++ [(i, j)]).
Proof. unfold add_edge. destruct (has_edge G i j); auto. Qed.

(** The generator always returns: the graph has the nodes [0..N-1],
    labelled in three blocks, and is well formed. *)
Lemma generateErdosRenyi_total (susceptible infected recovered : Z) (p : Q)
  (k : nat) :
  exists G cmap k',
    generateErdosRenyi random susceptible infected recovered p k
    = Some ((G, cmap), k')
    /\ nodes G
       = map (fun i => (i, block_label susceptible infected i))
             (seq 0 (Z.to_nat (susceptible + infected + recovered)))
    /\ wf_graph G.
Proof.
  unfold generateErdosRenyi.
  set (N := Z.to_nat (susceptible + infected + recovered)).
  set (ns := map (fun i => (i, block_label susceptible infected i))
                 (seq 0 N)).
  pose proof (add_nodes_fold susceptible infected N 0 nx_Graph []
                eq_refl) as [Hn He].
  unfold range. rewrite Nat.sub_0_r.
  destruct (fold_left _ (seq 0 N) (nx_Graph, [])) as [G0 cm0].
  simpl in Hn, He. fold ns in Hn.
  set (ok := fun (G : Graph) =>
               nodes G = ns
               /\ forall e, In e (edges G) ->
                    (fst e < N)%nat /\ (snd e < N)%nat).
  destruct (for_each_total
              (fun rest G => ok G /\ forall i, In i rest -> (i < N)%nat)
              (fun i G =>
                 for_each (seq (i + 1) (N - (i + 1)))
                   (fun j G =>
                      u <- random_random random ;;
                      if Qltb u p then ret (add_edge G i j) else ret G)
                   G))
    with (xs := seq 0 N) (s := G0) (k := k) as (G & k' & E & [[HGn HGe] _]).
  - intros i rest G j [HG Hrest].
    assert (Hi : (i < N)%nat) by (apply Hrest; left; reflexivity).
    destruct (for_each_total
                (fun rest' G' => ok G' /\ forall x, In x rest' -> (x < N)%nat)
                (fun j G =>
                   u <- random_random random ;;
                   if Qltb u p then ret (add_edge G i j) else ret G))
      with (xs := seq (i + 1) (N - (i + 1))) (s := G) (k := j)
      as (G' & j' & E' & [HG' _]).
    + intros x rest' G1 j1 [[HG1n HG1e] Hrest'].
      assert (Hx : (x < N)%nat) by (apply Hrest'; left; reflexivity).
      unfold bind, random_random, ret.
      destruct (Qltb (random j1) p);
        (eexists _, _; split; [reflexivity|];
         split; [|intros y Hy; apply Hrest'; right; assumption]);
        [|split; assumption].
      destruct (add_edge_cases G1 i x) as [->| ->]; [split; assumption|].
      split; [assumption|]. simpl. intros e He'.
      apply in_app_or in He'. destruct He' as [He'|[<-|[]]]; auto.
    + split; [assumption|]. intros x Hx. apply in_seq in Hx. lia.
    + exists G', j'. split; [assumption|]. split; [assumption|].
      intros x Hx. apply Hrest. right. assumption.
  - split; [|intros i Hi; apply in_seq in Hi; lia].
    split; [assumption|]. rewrite He. simpl. tauto.
  - rewrite (bind_eq _ _ _ _ _ E). exists G, cm0, k'.
    split; [reflexivity|]. split; [assumption|].
    assert (Hids : node_ids G = seq 0 N).
    { unfold node_ids. rewrite HGn. unfold ns. rewrite map_map. simpl.
      apply map_id. }
    split.
    + rewrite Hids. apply seq_NoDup.
    + intros e He'. rewrite Hids. destruct (HGe e He').
      split; apply in_seq; lia.
Qed.

Lemma generated_size (G : Graph) (susceptible infected recovered : Z) :
  nodes G
  = map (fun i => (i, block_label susceptible infected i))
        (seq 0 (Z.to_nat (susceptible + infected + recovered))) ->
  size G = Z.max 0 (susceptible + infected + recovered).
Proof.
  intros H. unfold size. rewrite H, length_map, length_seq. lia.
Qed.

(** ** The main loop *)

Lemma initial_conditions_total (n : Z) (k : nat) :
  exists w k',
    initial_conditions random gamma n k = Some (w, k')
    /\ started n (graphs w).
Proof.
  unfold initial_conditions.
  destruct (for_each_total
              (fun (rest : list nat) (gs : list Community) =>
                 (List.length gs + List.length rest = 4)%nat
                 /\ forall c, In c gs ->
                      counters c = (n - 1, 1, 0)
                      /\ wf_graph (c_graph c)
                      /\ nodes (c_graph c)
                         = map (fun i => (i, block_label (n - 1) 1 i))
                               (seq 0 (Z.to_nat (n - 1 + 1 + 0))))
              (fun (_ : nat) (gs : list Community) =>
                 r <- generateErdosRenyi random (n - 1) 1 0 gamma ;;
                 let '(g, cmap) := r in
                 ret (gs ++ [mkCommunity g cmap (n - 1) 1 0])))
    with (xs := range 0 4) (s := @nil Community) (k := k)
    as (gs & k' & E & [Hlen Hall]).
  - intros x rest gs j [Hlen Hall].
    destruct (generateErdosRenyi_total (n - 1) 1 0 gamma j)
      as (G & cmap & j' & EG & Hn & Hwf).
    rewrite (bind_eq _ _ _ _ _ EG). eexists _, _. split; [reflexivity|].
    split.
    + rewrite length_app. simpl in *. lia.
    + intros c Hin. apply in_app_or in Hin.
      destruct Hin as [Hin|[<-|[]]]; [auto|]. simpl. auto.
  - split; [reflexivity|]. intros c [].
  - rewrite (bind_eq _ _ _ _ _ E). eexists _, _. split; [reflexivity|].
    simpl in *. split; [lia | assumption].
Qed.

Lemma update_pass_total (I : list Community -> Prop) (gs : list Community)
  (k : nat) :
  (forall num gs j, (num < 4)%nat -> wf_store gs -> I gs ->
     exists gs' j',
       performGraphIteration random beta recovery move_probability
         num gs j = Some (gs', j')
       /\ wf_store gs' /\ I gs') ->
  wf_store gs -> I gs ->
  exists acc k',
    update_pass random beta recovery move_probability gs k = Some (acc, k')
    /\ wf_store (t_graphs acc) /\ I (t_graphs acc).
Proof.
  intros Hpass Hwf HI. unfold update_pass.
  destruct (for_each_total
              (fun (rest : list nat) (acc : Tally) =>
                 wf_store (t_graphs acc) /\ I (t_graphs acc)
                 /\ forall i, In i rest -> (i < 4)%nat)
              (fun n acc =>
                 gs <- performGraphIteration random beta recovery
                         move_probability n (t_graphs acc) ;;
                 c <- lift (nth_error gs n) ;;
                 ret (mkTally gs
                        (curr_global_susceptible acc + c_susceptible c)
                        (curr_global_infected acc + c_infected c)
                        (curr_global_recovered acc + c_recovered c))))
    with (xs := range 0 (List.length gs)) (s := mkTally gs 0 0 0) (k := k)
    as (acc & k' & E & H1 & H2 & _).
  - intros n rest acc j (Hwfa & HIa & Hrest).
    assert (Hn : (n < 4)%nat) by (apply Hrest; left; reflexivity).
    destruct (Hpass n (t_graphs acc) j Hn Hwfa HIa)
      as (gs' & j' & E & Hwf' & HI').
    rewrite (bind_eq _ _ _ _ _ E).
    destruct (nth_error_lt gs' n) as [c Ec];
      [destruct Hwf' as [-> _]; assumption|].
    rewrite (bind_eq _ _ _ _ _ (lift_eq _ _ _ Ec)).
    eexists _, _. split; [reflexivity|]. simpl.
    split; [assumption|]. split; [assumption|].
    intros i Hi. apply Hrest. right. assumption.
  - simpl. split; [assumption|]. split; [assumption|].
    intros i Hi. apply in_seq in Hi. destruct Hwf as [Hlen _]. lia.
  - exists acc, k'. auto.
Qed.

Lemma redraw_pass_total (gs : list Community) (k : nat) :
  exists gs' k',
    redraw_pass random gamma gs k = Some (gs', k') /\ redrawn gs gs'.
Proof.
  unfold redraw_pass.
  destruct (for_each_total
              (fun (rest : list nat) (acc : list Community) =>
                 List.length acc = List.length gs
                 /\ NoDup rest
                 /\ (forall i, In i rest -> (i < List.length gs)%nat)
                 /\ forall i c, nth_error gs i = Some c ->
                      exists c', nth_error acc i = Some c'
                                 /\ (In i rest -> c' = c)
                                 /\ (~ In i rest -> redrawn_entry c c'))
              (fun n (gs : list Community) =>
                 c <- lift (nth_error gs n) ;;
                 r <- generateErdosRenyi random (c_susceptible c)
                        (c_infected c) (c_recovered c) gamma ;;
                 let '(g, cmap) := r in
                 lift (update_nth n
                         (mkCommunity g cmap (c_susceptible c) (c_infected c)
                            (c_recovered c))
                         gs)))
    with (xs := range 0 (List.length gs)) (s := gs) (k := k)
    as (gs' & k' & E & Hlen & _ & _ & H).
  - intros n rest acc j (Hlen & Hnd & Hidx & Hacc). cbv beta.
    inversion Hnd as [|? ? Hn Hnd']; subst.
    assert (Hlt : (n < List.length acc)%nat)
      by (rewrite Hlen; apply Hidx; left; reflexivity).
    destruct (nth_error_lt acc n Hlt) as [c Ec].
    rewrite (bind_eq _ _ _ _ _ (lift_eq _ _ _ Ec)).
    destruct (generateErdosRenyi_total (c_susceptible c) (c_infected c)
                (c_recovered c) gamma j)
      as (G & cmap & j' & EG & HGn & HGwf).
    rewrite (bind_eq _ _ _ _ _ EG).
    rewrite update_nth_upd by assumption.
    eexists _, _. split; [reflexivity|].
    split; [rewrite upd_length; assumption|]. split; [assumption|].
    split; [intros i Hi; apply Hidx; right; assumption|].
    intros i ci Eci. destruct (Hacc i ci Eci) as (c' & Ec' & Hin & Hout).
    destruct (Nat.eq_dec n i) as [<-|Hni].
    + rewrite nth_error_upd_same by assumption. eexists. split; eauto.
      split; [intros; contradiction|]. intros _.
      assert (c' = ci) by (apply Hin; left; reflexivity). subst c'.
      rewrite Ec in Ec'. injection Ec' as ->.
      split; [reflexivity|]. split; assumption.
    + rewrite nth_error_upd_other by assumption. exists c'.
      split; [assumption|]. split.
      * intros Hi. apply Hin. right. assumption.
      * intros Hi. apply Hout. intros [?|?]; [congruence | contradiction].
  - split; [reflexivity|]. split; [apply seq_NoDup|].
    split; [intros i Hi; apply in_seq in Hi; lia|].
    intros i c Ec. exists c. split; [assumption|]. split; [reflexivity|].
    intros Hi. exfalso. apply Hi. apply in_seq.
    assert (i < List.length gs)%nat by (apply nth_error_Some; congruence).
    lia.
  - exists gs', k'. split; [assumption|]. split; [assumption|].
    intros i c Ec. destruct (H i c Ec) as (c' & Ec' & _ & Hout).
    exists c'. split; [assumption|]. apply Hout. intros [].
Qed.

Lemma redrawn_wf (gs gs' : list Community) :
  List.length gs = 4%nat -> redrawn gs gs' -> wf_store gs'.
Proof.
  intros Hlen [Hlen' H]. split; [congruence|].
  intros c' Hin. apply In_nth_error in Hin. destruct Hin as [i Ei].
  destruct (nth_error_lt gs i) as [c Ec].
  - rewrite <- Hlen'. apply nth_error_Some. congruence.
  - destruct (H i c Ec) as (c'' & Ec'' & _ & Hwf & _).
    rewrite Ei in Ec''. injection Ec'' as <-. assumption.
Qed.

Lemma redrawn_In (gs gs' : list Community) (c' : Community) :
  redrawn gs gs' -> In c' gs' ->
  exists c, In c gs /\ redrawn_entry c c'.
Proof.
  intros [Hlen H] Hin. apply In_nth_error in Hin. destruct Hin as [i Ei].
  destruct (nth_error_lt gs i) as [c Ec].
  - rewrite <- Hlen. apply nth_error_Some. congruence.
  - destruct (H i c Ec) as (c'' & Ec'' & Hr).
    rewrite Ei in Ec''. injection Ec'' as <-.
    exists c. split; [eapply nth_error_In; eassumption | assumption].
Qed.

Lemma started_wf (n : Z) (gs : list Community) :
  started n gs -> wf_store gs.
Proof.
  intros [Hlen H]. split; [assumption|]. intros c Hin. apply (H c Hin).
Qed.

(** The main loop reaches every timestep, and an invariant [W] of the
    store holds after each of them when it holds of the initial store and
    each call of [performGraphIteration] preserves a weaker property [I]
    from which the redraw restores [W]. *)
Lemma run_invariant (n : Z) (W I : list Community -> Prop) :
  (forall gs, started n gs -> W gs) ->
  (forall gs, wf_store gs -> W gs -> I gs) ->
  (forall num gs j, (num < 4)%nat -> wf_store gs -> I gs ->
     exists gs' j',
       performGraphIteration random beta recovery move_probability
         num gs j = Some (gs', j')
       /\ wf_store gs' /\ I gs') ->
  (forall gs gs', wf_store gs -> I gs -> redrawn gs gs' -> W gs') ->
  forall t k,
    exists w k',
      state_after random gamma beta recovery move_probability n t k
      = Some (w, k')
      /\ wf_store (graphs w) /\ W (graphs w).
Proof.
  intros Hinit HWI Hpass Hredraw t.
  induction t as [|t IH]; intros k; simpl.
  - destruct (initial_conditions_total n k) as (w & k' & E & Hs).
    exists w, k'. split; [assumption|].
    split; [eapply started_wf; eassumption | auto].
  - destruct (IH k) as (w & k1 & E & Hwf & HW).
    rewrite (bind_eq _ _ _ _ _ E). unfold timestep.
    destruct (update_pass_total I (graphs w) k1 Hpass Hwf (HWI _ Hwf HW))
      as (acc & k2 & E2 & Hwf2 & HI2).
    rewrite (bind_eq _ _ _ _ _ E2).
    destruct (redraw_pass_total (t_graphs acc) k2) as (gs' & k3 & E3 & Hr).
    rewrite (bind_eq _ _ _ _ _ E3).
    eexists _, _. split; [reflexivity|]. simpl. split.
    + eapply redrawn_wf; [|eassumption]. apply Hwf2.
    + eapply Hredraw; eassumption.
Qed.

Lemma main_state_after (n : Z) (t : nat) (w : World) (k : nat) :
  state_after random gamma beta recovery move_probability n t 0%nat
  = Some (w, k) ->
  main random gamma beta recovery move_probability n t = Some w.
Proof. unfold main. intros ->. reflexivity. Qed.

(** ** Counters and graph sizes *)

(** C3: for a population [n >= 0], the run reaches every timestep [t],
    and when the iteration for [t] is complete (the four updates and the
    redraw, or the initialisation for [t = 0]) every community has
    susceptible + infected + recovered equal to the number of nodes of
    its graph. *)
Theorem population_matches_graph_after_step :
  forall (n : Z) (t : nat),
    0 <= n ->
    exists w,
      main random gamma beta recovery move_probability n t = Some w
      /\ List.length (graphs w) = 4%nat
      /\ forall c, In c (graphs w) ->
           c_susceptible c + c_infected c + c_recovered c
           = Z.of_nat (List.length (nodes (c_graph c))).
Proof.
  intros n t Hn.
  destruct (run_invariant n
              (fun gs => forall c, In c gs -> excess c = 0)
              (fun gs => forall c, In c gs -> 0 <= excess c))
    with (t := t) (k := 0%nat) as (w & k' & E & Hwf & HW).
  - intros gs [_ H] c Hin. destruct (H c Hin) as (Hc & _ & Hnodes).
    unfold excess, population, size. rewrite Hnodes, length_map, length_seq.
    unfold counters in Hc. injection Hc as -> -> ->. lia.
  - intros gs _ H c Hin. rewrite (H c Hin). lia.
  - intros num gs j Hnum Hwf HI. apply pass_excess; assumption.
  - intros gs gs' Hwf HI Hr c' Hin.
    destruct (redrawn_In _ _ _ Hr Hin) as (c & Hc & Hcnt & _ & Hnodes).
    pose proof (HI c Hc) as Hex. unfold excess, population, size in *.
    rewrite Hnodes, length_map, length_seq.
    unfold counters in Hcnt. injection Hcnt as -> -> ->.
    assert (0 <= Z.of_nat (List.length (nodes (c_graph c)))) by lia.
    unfold population. lia.
  - exists w. split; [eapply main_state_after; eassumption|].
    split; [apply Hwf|]. intros c Hin. specialize (HW c Hin).
    unfold excess, population, size in HW. lia.
Qed.

(** ** Runs without movement *)

Lemma Qltb_zero (u p : Q) : (0 <= u)%Q -> (p == 0)%Q -> Qltb u p = false.
Proof.
  intros Hu Hp. apply Qltb_ge. rewrite Hp. assumption.
Qed.

(** Without movement a call changes no other community, schedules no
    removal and keeps the population of its own community; when there is
    no infection and no recovery either, it keeps the three counters. *)
Lemma pass_no_movement (num_graph : nat) (gs : list Community) (k : nat) :
  wf_store gs -> (num_graph < 4)%nat ->
  (move_probability == 0)%Q -> (forall i, (0 <= random i)%Q) ->
  exists gs' k',
    performGraphIteration random beta recovery move_probability
      num_graph gs k = Some (gs', k')
    /\ wf_store gs'
    /\ forall i c, nth_error gs i = Some c ->
         exists c', nth_error gs' i = Some c'
                    /\ population c' = population c
                    /\ ((beta == 0)%Q -> (recovery == 0)%Q ->
                        counters c' = counters c).
Proof.
  intros Hwf Hlt Hmove Hrand.
  destruct (nth_error_lt gs num_graph) as [c Ec];
    [destruct Hwf as [-> _]; assumption|].
  destruct (pass_total num_graph
              (fun st =>
                 nodes_to_remove st = []
                 /\ local_population st = population c
                 /\ (forall i, i <> num_graph ->
                       nth_error (ps_graphs st) i = nth_error gs i)
                 /\ ((beta == 0)%Q -> (recovery == 0)%Q ->
                     (local_susceptible st, local_infected st,
                      local_recovered st) = counters c))
              gs k c Hwf Ec)
    as (gs' & k' & st & c1 & g' & E & (Hrm & Hpop & Hother & Hfrozen)
        & Hwf1 & Ec1 & Hnd & Hincl & Hg' & Hsize & _ & ->).
  - simpl. repeat split; reflexivity.
  - intros node rest s s' Hs (Hrm & Hpop & Hother & Hfrozen) Hout.
    destruct Hout as [c0 cd l d j Hj E0 El Hd Ecd ->
                     |c0 j Hj E0 El -> |c0 j Hj E0 El ->
                     |c0 nb j nbrs Hj E0 El _ _ _ -> | ->]; simpl.
    + rewrite (Qltb_zero _ _ (Hrand j) Hmove) in Hj. discriminate.
    + split; [assumption|]. split; [unfold local_population in *; simpl; lia|].
      split; [intros i Hi; rewrite nth_error_upd_other by congruence; auto|].
      intros Hb Hr. rewrite (Qltb_zero _ _ (Hrand j) Hr) in Hj. discriminate.
    + split; [assumption|]. split; [unfold local_population in *; simpl; lia|].
      split; [intros i Hi; rewrite nth_error_upd_other by congruence; auto|].
      intros Hb Hr. rewrite (Qltb_zero _ _ (Hrand j) Hr) in Hj. discriminate.
    + split; [assumption|]. split; [unfold local_population in *; simpl; lia|].
      split; [intros i Hi; rewrite nth_error_upd_other by congruence; auto|].
      intros Hb Hr. rewrite (Qltb_zero _ _ (Hrand j) Hb) in Hj. discriminate.
    + auto.
  - exists (upd num_graph (settled st c1 g') (ps_graphs st)), k'.
    split; [assumption|]. split; [apply wf_store_settled; assumption|].
    intros i ci Eci. destruct (Nat.eq_dec i num_graph) as [->|Hi].
    + rewrite nth_error_upd_same by (apply nth_error_Some; congruence).
      rewrite Ec in Eci. injection Eci as <-.
      eexists. split; [reflexivity|].
      unfold settled, population, counters. rewrite Hrm. simpl.
      unfold labelled. simpl. unfold local_population, population in Hpop.
      split; [lia|]. intros Hb Hr. specialize (Hfrozen Hb Hr).
      unfold counters in Hfrozen. injection Hfrozen as -> -> ->.
      f_equal; [f_equal|]; lia.
    + rewrite nth_error_upd_other by congruence. rewrite (Hother i Hi).
      exists ci. auto.
Qed.

(** C7: when nobody moves (movement probability 0, the generator handing
    out values that are not negative), the run reaches every timestep and
    every community keeps the total population it had at timestep 0,
    which is [n]. *)
Theorem population_fixed_without_movement :
  forall (n : Z) (t : nat),
    (move_probability == 0)%Q ->
    (forall i, (0 <= random i)%Q) ->
    exists w,
      main random gamma beta recovery move_probability n t = Some w
      /\ List.length (graphs w) = 4%nat
      /\ forall c, In c (graphs w) ->
           c_susceptible c + c_infected c + c_recovered c = n.
Proof.
  intros n t Hmove Hrand.
  destruct (run_invariant n
              (fun gs => forall c, In c gs -> population c = n)
              (fun gs => forall c, In c gs -> population c = n))
    with (t := t) (k := 0%nat) as (w & k' & E & Hwf & HW).
  - intros gs [_ H] c Hin. destruct (H c Hin) as (Hc & _).
    unfold population. unfold counters in Hc. injection Hc as -> -> ->. lia.
  - auto.
  - intros num gs j Hnum Hwf HI.
    destruct (pass_no_movement num gs j Hwf Hnum Hmove Hrand)
      as (gs' & j' & E & Hwf' & H).
    exists gs', j'. split; [assumption|]. split; [assumption|].
    intros c' Hin. apply In_nth_error in Hin. destruct Hin as [i Ei].
    destruct (nth_error_lt gs i) as [c Ec].
    + destruct Hwf as [-> _]. destruct Hwf' as [<- _].
      apply nth_error_Some. congruence.
    + destruct (H i c Ec) as (c'' & Ec'' & Hpop & _).
      rewrite Ei in Ec''. injection Ec'' as <-. rewrite Hpop.
      apply HI. eapply nth_error_In; eassumption.
  - intros gs gs' Hwf HI Hr c' Hin.
    destruct (redrawn_In _ _ _ Hr Hin) as (c & Hc & Hcnt & _).
    rewrite <- (HI c Hc). unfold population. unfold counters in Hcnt.
    injection Hcnt as -> -> ->. reflexivity.
  - exists w. split; [eapply main_state_after; eassumption|].
    split; [apply Hwf|]. intros c Hin. apply (HW c Hin).
Qed.

(** ** Runs without infection and recovery *)

Lemma total_upd (gs : list Community) (i : nat) (x y : Community)
  (l : Label) :
  nth_error gs i = Some y ->
  total (upd i x gs) l = total gs l - count y l + count x l.
Proof.
  intros E. exact (sum_Z_upd (fun c => count c l) i x y gs E).
Qed.

Lemma count_arrival (cd : Community) (g : Graph) (l l0 : Label) :
  count (set_count (set_graph cd g) l (count cd l + 1)) l0
  = count cd l0 + (if Label_eqb l l0 then 1 else 0).
Proof. destruct l, l0; simpl; lia. Qed.

(** Without infection and recovery a call keeps, for each label, the
    total of its counter over the four communities. *)
Lemma pass_totals (num_graph : nat) (gs : list Community) (k : nat) :
  wf_store gs -> (num_graph < 4)%nat ->
  (beta == 0)%Q -> (recovery == 0)%Q -> (forall i, (0 <= random i)%Q) ->
  exists gs' k',
    performGraphIteration random beta recovery move_probability
      num_graph gs k = Some (gs', k')
    /\ wf_store gs'
    /\ forall l, total gs' l = total gs l.
Proof.
  intros Hwf Hlt Hbeta Hrec Hrand.
  destruct (nth_error_lt gs num_graph) as [c Ec];
    [destruct Hwf as [-> _]; assumption|].
  destruct (pass_total num_graph
              (fun st =>
                 (forall l, local_count st l = count c l)
                 /\ nth_error (ps_graphs st) num_graph = Some c
                 /\ forall l, total (ps_graphs st) l
                              = total gs l
                                + labelled (c_graph c) l (nodes_to_remove st))
              gs k c Hwf Ec)
    as (gs' & k' & st & c1 & g' & E & (Hloc & Hc & Htot)
        & Hwf1 & Ec1 & Hnd & Hincl & Hg' & Hsize & _ & ->).
  - simpl. split; [intros []; reflexivity|]. split; [assumption|].
    intros l. unfold labelled. simpl. lia.
  - intros node rest s s' Hs (Hloc & Hc & Htot) Hout.
    destruct Hout as [c0 cd l d j Hj E0 El Hd Ecd ->
                     |c0 j Hj E0 El -> |c0 j Hj E0 El ->
                     |c0 nb j nbrs Hj E0 El _ _ _ -> | ->]; simpl.
    + rewrite Hc in E0. injection E0 as <-.
      split; [intros l0; rewrite <- (Hloc l0); destruct l0; reflexivity|].
      split; [rewrite nth_error_upd_other by assumption; assumption|].
      intros l0. rewrite (total_upd _ _ _ _ _ Ecd), count_arrival.
      rewrite (labelled_snoc _ _ _ _ _ El), Htot. lia.
    + rewrite (Qltb_zero _ _ (Hrand j) Hrec) in Hj. discriminate.
    + rewrite (Qltb_zero _ _ (Hrand j) Hrec) in Hj. discriminate.
    + rewrite (Qltb_zero _ _ (Hrand j) Hbeta) in Hj. discriminate.
    + auto.
  - exists (upd num_graph (settled st c1 g') (ps_graphs st)), k'.
    split; [assumption|]. split; [apply wf_store_settled; assumption|].
    intros l. rewrite (total_upd _ _ _ _ _ Ec1), Htot.
    rewrite Hc in Ec1. injection Ec1 as <-.
    pose proof (Hloc l) as Hl.
    destruct l; simpl in *; lia.
Qed.

(** C5, as the code has it: without infection and recovery (both
    probabilities 0, the generator handing out values that are not
    negative) the run reaches every timestep, and after each of them the
    totals of the three counters over the four communities are those of
    timestep 0, whatever the movement probability; when the movement
    probability is 0 too, the counters of every community are those of
    timestep 0. *)
Theorem counters_without_infection_and_recovery :
  forall (n : Z) (t : nat),
    (beta == 0)%Q -> (recovery == 0)%Q ->
    (forall i, (0 <= random i)%Q) ->
    exists w,
      main random gamma beta recovery move_probability n t = Some w
      /\ total (graphs w) Susceptible = 4 * (n - 1)
      /\ total (graphs w) Infected = 4
      /\ total (graphs w) Recovered = 0
      /\ ((move_probability == 0)%Q ->
          forall c, In c (graphs w) ->
            c_susceptible c = n - 1 /\ c_infected c = 1
            /\ c_recovered c = 0).
Proof.
  intros n t Hbeta Hrec Hrand.
  set (W := fun gs : list Community =>
              (forall l, total gs l
                         = match l with
                           | Susceptible => 4 * (n - 1)
                           | Infected => 4
                           | Recovered => 0
                           end)
              /\ ((move_probability == 0)%Q ->
                  forall c, In c gs -> counters c = (n - 1, 1, 0))).
  destruct (run_invariant n W W) with (t := t) (k := 0%nat)
    as (w & k' & E & Hwf & [HW1 HW2]).
  - intros gs [Hlen H]. split.
    + destruct gs as [|c1 [|c2 [|c3 [|c4 [|c5 gs]]]]]; try discriminate.
      pose proof (H c1 ltac:(simpl; auto)) as (H1 & _).
      pose proof (H c2 ltac:(simpl; auto)) as (H2 & _).
      pose proof (H c3 ltac:(simpl; auto)) as (H3 & _).
      pose proof (H c4 ltac:(simpl; auto)) as (H4 & _).
      unfold counters in *.
      injection H1 as A1 B1 C1. injection H2 as A2 B2 C2.
      injection H3 as A3 B3 C3. injection H4 as A4 B4 C4.
      intros []; unfold total, sum_Z; cbn [map fold_right count]; lia.
    + intros _ c Hin. apply (H c Hin).
  - auto.
  - intros num gs j Hnum Hwf [HI1 HI2].
    destruct (pass_totals num gs j Hwf Hnum Hbeta Hrec Hrand)
      as (gs' & j' & E & Hwf' & Htot).
    exists gs', j'. split; [assumption|]. split; [assumption|]. split.
    + intros l. rewrite Htot. apply HI1.
    + intros Hmove c' Hin.
      destruct (pass_no_movement num gs j Hwf Hnum Hmove Hrand)
        as (gs'' & j'' & E' & _ & H).
      rewrite E in E'. injection E' as <- <-.
      apply In_nth_error in Hin. destruct Hin as [i Ei].
      destruct (nth_error_lt gs i) as [c Ec].
      * destruct Hwf as [-> _]. destruct Hwf' as [<- _].
        apply nth_error_Some. congruence.
      * destruct (H i c Ec) as (c'' & Ec'' & _ & Hcnt).
        rewrite Ei in Ec''. injection Ec'' as <-.
        rewrite (Hcnt Hbeta Hrec).
        apply (HI2 Hmove). eapply nth_error_In; eassumption.
  - intros gs gs' Hwf [HI1 HI2] Hr.
    assert (Hcount : forall l, map (fun c => count c l) gs'
                               = map (fun c => count c l) gs).
    { intros l. apply nth_error_ext. intros i.
      rewrite !nth_error_map. destruct Hr as [Hlen H].
      destruct (nth_error gs i) as [c|] eqn:Ec.
      - destruct (H i c Ec) as (c' & -> & Hcnt & _). simpl.
        unfold counters in Hcnt. injection Hcnt as A B C.
        destruct l; simpl; congruence.
      - apply nth_error_None in Ec. rewrite <- Hlen in Ec.
        apply nth_error_None in Ec. rewrite Ec. reflexivity. }
    split.
    + intros l. unfold total. rewrite Hcount. apply HI1.
    + intros Hmove c' Hin.
      destruct (redrawn_In _ _ _ Hr Hin) as (c & Hc & Hcnt & _).
      rewrite Hcnt. apply (HI2 Hmove c Hc).
  - exists w. split; [eapply main_state_after; eassumption|].
    split; [apply (HW1 Susceptible)|]. split; [apply (HW1 Infected)|].
    split; [apply (HW1 Recovered)|].
    intros Hmove c Hin. specialize (HW2 Hmove c Hin).
    unfold counters in HW2. injection HW2 as -> -> ->. auto.
Qed.

(** ** The insertion of a migrant *)

Lemma label_add_node_same (g : Graph) (x : nat) (l : Label) :
  label (add_node g x l) x = Some l.
Proof.
  destruct (add_node_cases g x l) as [[Hin ->]|[Hin ->]]; unfold label.
  - simpl. apply lookup_set_attr_same. assumption.
  - simpl. apply lookup_app_new. assumption.
Qed.

(** The insertion of a migrant: a node that moves is inserted into the
    destination graph under the id it has in its source graph, with its
    label, and the destination counter of that label goes up by one;
    when that id is not in use in the destination graph, the insertion
    appends one node and leaves the edges and the labels of the nodes
    already there as they were. *)
Theorem migrant_keeps_its_id :
  forall (num_graph node : nat) (st : PassState) (k : nat)
         (c : Community) (l : Label),
    List.length (ps_graphs st) = 4%nat ->
    nth_error (ps_graphs st) num_graph = Some c ->
    label (c_graph c) node = Some l ->
    Qltb (random k) move_probability = true ->
    exists st' dest d d',
      scan_node random beta recovery move_probability num_graph node st k
      = Some (st', S (S k))
      /\ findContextToMoveTo random (num_graph + 1) (S k)
         = Some (Some (S dest), S (S k))
      /\ nth_error (ps_graphs st) dest = Some d
      /\ nth_error (ps_graphs st') dest = Some d'
      /\ nodes_to_remove st' = nodes_to_remove st ++ [node]
      /\ label (c_graph d') node = Some l
      /\ count d' l = count d l + 1
      /\ (~ In node (node_ids (c_graph d)) ->
          nodes (c_graph d') = nodes (c_graph d) ++ [(node, l)]
          /\ edges (c_graph d') = edges (c_graph d)
          /\ forall m, In m (node_ids (c_graph d)) ->
               label (c_graph d') m = label (c_graph d) m).
Proof.
  intros num_graph node st k c l Hlen Ec El Hmove.
  assert (Hlt : (num_graph < 4)%nat)
    by (rewrite <- Hlen; apply nth_error_Some; congruence).
  destruct (destination_index random num_graph (S k) Hlt)
    as (dest & Ed1 & Hd1 & Hne).
  destruct (nth_error_lt (ps_graphs st) dest) as [d Ed]; [lia|].
  assert (Hdest : dest <> num_graph) by lia.
  pose proof (move_node_eq num_graph node dest st (S (S k)) c d l
                Ec El Hdest Ed) as Em.
  eexists _, dest, d, _. split; [|split; [exact Ed1|split; [exact Ed|]]].
  - unfold scan_node. unfold bind at 1. unfold random_random at 1.
    rewrite Hmove. rewrite (bind_eq _ _ _ _ _ Ed1).
    rewrite (bind_eq _ _ _ _ _ (lift_eq _ _ _ eq_refl)).
    rewrite (bind_eq _ _ _ _ _ Em). reflexivity.
  - simpl. split; [apply nth_error_upd_same; lia|].
    split; [reflexivity|]. rewrite c_graph_set_count. simpl.
    split; [apply label_add_node_same|].
    split; [rewrite count_arrival; destruct l; simpl; lia|].
    intros Hfresh.
    destruct (add_node_cases (c_graph d) node l) as [[Hin _]|[_ ->]];
      [contradiction|].
    simpl. split; [reflexivity|]. split; [reflexivity|].
    intros m Hm. unfold label. simpl. apply lookup_app_fresh. assumption.
Qed.

(** ** Counters never fall below the number of nodes with their label *)

Lemma block_count (susceptible infected : Z) (m : nat) :
  0 <= susceptible -> 0 <= infected ->
  forall l,
    Z.of_nat
      (List.length
         (filter (fun i => Label_eqb (block_label susceptible infected i) l)
                 (seq 0 m)))
    = match l with
      | Susceptible => Z.min (Z.of_nat m) susceptible
      | Infected =>
          Z.max 0 (Z.min (Z.of_nat m) (susceptible + infected) - susceptible)
      | Recovered => Z.max 0 (Z.of_nat m - (susceptible + infected))
      end.
Proof.
  intros HS HI l. induction m as [|m IH].
  - destruct l; simpl; lia.
  - rewrite seq_S, filter_app, length_app, Nat2Z.inj_add, IH.
    cbn [filter Nat.add]. unfold block_label.
    destruct (Z.ltb_spec (Z.of_nat m) susceptible);
      [|destruct (Z.ltb_spec (Z.of_nat m) (susceptible + infected))];
      destruct l; cbn [Label_eqb List.length]; lia.
Qed.

Lemma lookup_generated (f : nat -> Label) (x : nat) (xs : list nat) :
  In x xs -> lookup x (map (fun i => (i, f i)) xs) = Some (f x).
Proof.
  induction xs as [|y xs IH]; simpl; [tauto|].
  intros H. destruct (Nat.eqb_spec x y) as [->|Hxy]; [reflexivity|].
  apply IH. destruct H; [congruence | assumption].
Qed.

(** A graph generated from counters that are not negative has, for each
    label, as many nodes as the counter says. *)
Lemma generated_holders (G : Graph) (susceptible infected recovered : Z) :
  0 <= susceptible -> 0 <= infected -> 0 <= recovered ->
  nodes G
  = map (fun i => (i, block_label susceptible infected i))
        (seq 0 (Z.to_nat (susceptible + infected + recovered))) ->
  forall l,
    holders G l
    = match l with
      | Susceptible => susceptible
      | Infected => infected
      | Recovered => recovered
      end.
Proof.
  intros HS HI HR Hn l.
  set (N := Z.to_nat (susceptible + infected + recovered)) in *.
  assert (Hids : node_ids G = seq 0 N).
  { unfold node_ids. rewrite Hn, map_map. simpl. apply map_id. }
  unfold holders, labelled. rewrite Hids.
  rewrite (filter_ext_in
             (fun x => match label G x with
                       | Some l' => Label_eqb l' l
                       | None => false
                       end)
             (fun i => Label_eqb (block_label susceptible infected i) l)).
  - rewrite (block_count susceptible infected N HS HI l).
    destruct l; unfold N; lia.
  - intros x Hx. unfold label. rewrite Hn.
    rewrite (lookup_generated (block_label susceptible infected) x _ Hx).
    reflexivity.
Qed.

Lemma pass_holders (num_graph : nat) (gs : list Community) (k : nat) :
  wf_store gs -> (num_graph < 4)%nat ->
  (forall c, In c gs -> forall l, holders (c_graph c) l <= count c l) ->
  exists gs' k',
    performGraphIteration random beta recovery move_probability
      num_graph gs k = Some (gs', k')
    /\ wf_store gs'
    /\ forall c, In c gs' -> forall l, holders (c_graph c) l <= count c l.
Proof.
  intros Hwf Hlt Hex.
  destruct (nth_error_lt gs num_graph) as [c Ec];
    [destruct Hwf as [-> _]; assumption|].
  destruct (pass_total num_graph
              (fun st =>
                 (forall i ci, i <> num_graph ->
                    nth_error (ps_graphs st) i = Some ci ->
                    forall l, holders (c_graph ci) l <= count ci l)
                 /\ forall ck, nth_error (ps_graphs st) num_graph = Some ck ->
                      forall l, holders (c_graph ck) l <= local_count st l)
              gs k c Hwf Ec)
    as (gs' & k' & st & c1 & g' & E & [HQ1 HQ2] & Hwf1 & Ec1 & Hnd & Hincl
        & Hg' & Hsize & Hhold & ->).
  - simpl. split.
    + intros i ci _ Ei. apply Hex. eapply nth_error_In; eassumption.
    + intros ck Eck l. rewrite Ec in Eck. injection Eck as <-.
      replace (local_count _ l) with (count c l) by (destruct l; reflexivity).
      apply Hex. eapply nth_error_In; eassumption.
  - intros node rest s s' Hs [HQ1 HQ2] Hout.
    pose proof Hs as (Hwfs & _).
    assert (Hrelabel : forall c0 lx l' s1,
               nth_error (ps_graphs s) num_graph = Some c0 ->
               label (c_graph c0) node = Some lx ->
               ps_graphs s1
               = upd num_graph (set_graph c0 (relabel (c_graph c0) node l'))
                   (ps_graphs s) ->
               (forall l, local_count s1 l
                          = local_count s l
                            - (if Label_eqb lx l then 1 else 0)
                            + (if Label_eqb l' l then 1 else 0)) ->
               (forall i ci, i <> num_graph ->
                  nth_error (ps_graphs s1) i = Some ci ->
                  forall l, holders (c_graph ci) l <= count ci l)
               /\ forall ck, nth_error (ps_graphs s1) num_graph = Some ck ->
                    forall l, holders (c_graph ck) l <= local_count s1 l).
    { intros c0 lx l' s1 E0 El Hgs Hloc. rewrite Hgs. split.
      - intros i ci Hi Ei. rewrite nth_error_upd_other in Ei by congruence.
        apply (HQ1 i ci Hi Ei).
      - intros ck Eck l. rewrite nth_error_upd_same in Eck
          by (apply nth_error_Some; congruence).
        injection Eck as <-. simpl c_graph.
        rewrite (holders_relabel _ _ _ _ _
                   (wf_store_nth _ _ _ Hwfs E0) El).
        rewrite Hloc. pose proof (HQ2 c0 E0 l). lia. }
    destruct Hout as [c0 cd l d j _ E0 El Hd Ecd ->
                     |c0 j _ E0 El -> |c0 j _ E0 El ->
                     |c0 nb j nbrs _ E0 El _ _ _ -> | ->].
    + simpl. split.
      * intros i ci Hi Ei l0. destruct (Nat.eq_dec d i) as [<-|Hdi].
        -- rewrite nth_error_upd_same in Ei
             by (apply nth_error_Some; congruence).
           injection Ei as <-. rewrite c_graph_set_count, count_arrival.
           simpl c_graph.
           pose proof (holders_add_node (c_graph cd) node l l0
                         (wf_store_nth _ _ _ Hwfs Ecd)).
           pose proof (HQ1 d cd Hd Ecd l0). lia.
        -- rewrite nth_error_upd_other in Ei by assumption.
           apply (HQ1 i ci Hi Ei).
      * intros ck Eck l0. rewrite nth_error_upd_other in Eck by assumption.
        replace (local_count _ l0) with (local_count s l0)
          by (destruct l0; reflexivity).
        apply (HQ2 ck Eck).
    + apply (Hrelabel c0 Infected Recovered); auto.
      intros []; simpl; lia.
    + apply (Hrelabel c0 Recovered Susceptible); auto.
      intros []; simpl; lia.
    + apply (Hrelabel c0 Susceptible Infected); auto.
      intros []; simpl; lia.
    + split; assumption.
  - exists (upd num_graph (settled st c1 g') (ps_graphs st)), k'.
    split; [assumption|]. split; [apply wf_store_settled; assumption|].
    intros c' Hin l. apply In_nth_error in Hin. destruct Hin as [i Ei].
    destruct (Nat.eq_dec num_graph i) as [<-|Hi].
    + rewrite nth_error_upd_same in Ei
        by (apply nth_error_Some; congruence).
      injection Ei as <-. change (c_graph (settled st c1 g')) with g'.
      rewrite Hhold. pose proof (HQ2 c1 Ec1 l).
      destruct l; simpl in *; lia.
    + rewrite nth_error_upd_other in Ei by assumption.
      apply (HQ1 i c' ltac:(congruence) Ei).
Qed.

(** For a population [n >= 1] the run reaches every timestep and the
    three counters of every community are never negative after it: the
    susceptible counter of -1 arises for the population 0 only. *)
Theorem counters_never_negative_from_one :
  forall (n : Z) (t : nat),
    1 <= n ->
    exists w,
      main random gamma beta recovery move_probability n t = Some w
      /\ forall c, In c (graphs w) ->
           0 <= c_susceptible c /\ 0 <= c_infected c /\ 0 <= c_recovered c.
Proof.
  intros n t Hn.
  set (I := fun gs : list Community =>
              forall c, In c gs ->
                forall l, holders (c_graph c) l <= count c l).
  destruct (run_invariant n I I) with (t := t) (k := 0%nat)
    as (w & k' & E & Hwf & HW).
  - intros gs [_ H] c Hin l. destruct (H c Hin) as (Hc & _ & Hnodes).
    unfold counters in Hc. injection Hc as HS HI HR.
    rewrite (generated_holders (c_graph c) (n - 1) 1 0
               ltac:(lia) ltac:(lia) ltac:(lia) Hnodes l).
    destruct l; simpl; lia.
  - auto.
  - intros num gs j Hnum Hwf HI. apply pass_holders; assumption.
  - intros gs gs' Hwf HI Hr c' Hin l.
    destruct (redrawn_In _ _ _ Hr Hin) as (c & Hc & Hcnt & _ & Hnodes).
    unfold counters in Hcnt. injection Hcnt as HS HI' HR.
    pose proof (HI c Hc Susceptible) as H1.
    pose proof (HI c Hc Infected) as H2.
    pose proof (HI c Hc Recovered) as H3.
    pose proof (labelled_nonneg (c_graph c) Susceptible (node_ids (c_graph c))).
    pose proof (labelled_nonneg (c_graph c) Infected (node_ids (c_graph c))).
    pose proof (labelled_nonneg (c_graph c) Recovered (node_ids (c_graph c))).
    unfold holders in H1, H2, H3. simpl in H1, H2, H3.
    rewrite (generated_holders (c_graph c') (c_susceptible c) (c_infected c)
               (c_recovered c) ltac:(lia) ltac:(lia) ltac:(lia) Hnodes l).
    destruct l; simpl; lia.
  - exists w. split; [eapply main_state_after; eassumption|].
    intros c Hin.
    pose proof (HW c Hin Susceptible) as H1.
    pose proof (HW c Hin Infected) as H2.
    pose proof (HW c Hin Recovered) as H3.
    pose proof (labelled_nonneg (c_graph c) Susceptible (node_ids (c_graph c))).
    pose proof (labelled_nonneg (c_graph c) Infected (node_ids (c_graph c))).
    pose proof (labelled_nonneg (c_graph c) Recovered (node_ids (c_graph c))).
    unfold holders in H1, H2, H3. simpl in H1, H2, H3. lia.
Qed.

(** ** The generator in closed form *)

Lemma chosen_app (p : Q) (es es' : list (nat * nat)) :
  forall k,
    chosen random p k (es ++ es')
    = chosen random p k es ++ chosen random p (k + List.length es) es'.
Proof.
  induction es as [|e es IH]; intros k; simpl.
  - rewrite Nat.add_0_r. reflexivity.
  - rewrite IH. replace (S k + List.length es)%nat
      with (k + S (List.length es))%nat by lia.
    destruct (Qltb (random k) p); reflexivity.
Qed.

Lemma chosen_In (p : Q) (es : list (nat * nat)) (e : nat * nat) :
  forall k, In e (chosen random p k es) -> In e es.
Proof.
  induction es as [|e' es IH]; intros k; simpl; [tauto|].
  destruct (Qltb (random k) p); simpl; intros H.
  - destruct H; eauto.
  - eauto.
Qed.

Lemma has_edge_false (G : Graph) (i j : nat) :
  (forall e, In e (edges G) ->
     (fst e < i)%nat \/ (fst e = i /\ (snd e < j)%nat)) ->
  (i < j)%nat ->
  has_edge G i j = false.
Proof.
  intros H Hij. unfold has_edge.
  destruct (existsb _ (edges G)) eqn:E; [|reflexivity].
  apply existsb_exists in E. destruct E as (e & He & Hb).
  specialize (H e He). apply orb_true_iff in Hb.
  destruct Hb as [Hb|Hb]; apply andb_true_iff in Hb; destruct Hb as [H1 H2];
    apply Nat.eqb_eq in H1, H2; lia.
Qed.

(** One row of the double loop: the inner [for j]. *)
Lemma edge_row (p : Q) (i : nat) (m : nat) :
  forall (a : nat) (G : Graph) (k : nat),
    (i < a)%nat ->
    (forall e, In e (edges G) ->
       (fst e < i)%nat \/ (fst e = i /\ (snd e < a)%nat)) ->
    for_each (seq a m)
      (fun j G =>
         u <- random_random random ;;
         if Qltb u p then ret (add_edge G i j) else ret G)
      G k
    = Some (mkGraph (nodes G)
              (edges G
               ++ chosen random p k (map (fun j => (i, j)) (seq a m))),
            (k + m)%nat).
Proof.
  induction m as [|m IH]; intros a G k Hia Hinv; simpl.
  - rewrite app_nil_r, Nat.add_0_r. destruct G; reflexivity.
  - unfold bind at 1. unfold bind at 1. unfold random_random at 1.
    replace (k + S m)%nat with (S k + m)%nat by lia.
    destruct (Qltb (random k) p).
    + unfold ret at 1. unfold add_edge.
      rewrite (has_edge_false G i a Hinv Hia).
      rewrite IH.
      * simpl. rewrite <- app_assoc. reflexivity.
      * lia.
      * simpl. intros e He. apply in_app_or in He.
        destruct He as [He|[<-|[]]].
        -- destruct (Hinv e He); [left | right]; lia.
        -- right. simpl. lia.
    + unfold ret at 1. apply IH; [lia|].
      intros e He. destruct (Hinv e He); [left | right]; lia.
Qed.

(** The rows of the double loop: the outer [for i]. *)
Lemma edge_rows (p : Q) (N : nat) (m : nat) :
  forall (b : nat) (G : Graph) (k : nat),
    (forall e, In e (edges G) -> (fst e < b)%nat) ->
    for_each (seq b m)
      (fun i G =>
         for_each (range (i + 1) N)
           (fun j G =>
              u <- random_random random ;;
              if Qltb u p then ret (add_edge G i j) else ret G)
           G)
      G k
    = Some (mkGraph (nodes G)
              (edges G
               ++ chosen random p k
                    (flat_map
                       (fun i => map (fun j => (i, j)) (range (i + 1) N))
                       (seq b m))),
            (k + List.length
                   (flat_map
                      (fun i => map (fun j => (i, j)) (range (i + 1) N))
                      (seq b m)))%nat).
Proof.
  induction m as [|m IH]; intros b G k Hinv; simpl.
  - rewrite app_nil_r, Nat.add_0_r. destruct G; reflexivity.
  - unfold range at 1.
    rewrite (bind_eq _ _ _ _ _
               (edge_row p b (N - (b + 1)) (b + 1) G k ltac:(lia)
                  ltac:(intros e He; left; apply (Hinv e He)))).
    rewrite IH.
    + simpl. rewrite chosen_app, length_app, !length_map.
      rewrite <- app_assoc. unfold range. rewrite !length_seq.
      rewrite Nat.add_assoc. reflexivity.
    + simpl. intros e He. apply in_app_or in He.
      destruct He as [He|He]; [specialize (Hinv e He); lia|].
      apply chosen_In, in_map_iff in He. destruct He as (j & <- & _).
      simpl. lia.
Qed.

Lemma add_nodes_colors (susceptible infected : Z) (m : nat) :
  forall (a : nat) (G : Graph) (cm : list string),
    snd (fold_left
           (fun (acc : Graph * list string) (i : nat) =>
              let l := block_label susceptible infected i in
              (add_node (fst acc) i l, snd acc ++ [block_color l]))
           (seq a m) (G, cm))
    = cm ++ map (fun i => block_color (block_label susceptible infected i))
              (seq a m).
Proof.
  induction m as [|m IH]; intros a G cm; simpl.
  - rewrite app_nil_r. reflexivity.
  - rewrite IH. rewrite <- app_assoc. reflexivity.
Qed.

(** What [generateErdosRenyi] returns, without loops. *)
Lemma generateErdosRenyi_closed (susceptible infected recovered : Z)
  (p : Q) (k : nat) :
  let N := Z.to_nat (susceptible + infected + recovered) in
  generateErdosRenyi random susceptible infected recovered p k
  = Some ((mkGraph
             (map (fun i => (i, block_label susceptible infected i))
                  (seq 0 N))
             (chosen random p k (pairs N)),
           map (fun i => block_color (block_label susceptible infected i))
               (seq 0 N)),
          (k + List.length (pairs N))%nat).
Proof.
  intros N. unfold generateErdosRenyi. fold N.
  pose proof (add_nodes_fold susceptible infected N 0 nx_Graph []
                eq_refl) as [Hn He].
  pose proof (add_nodes_colors susceptible infected N 0 nx_Graph [])
    as Hc.
  assert (Hr : range 0 N = seq 0 N)
    by (unfold range; rewrite Nat.sub_0_r; reflexivity).
  rewrite !Hr.
  destruct (fold_left _ (seq 0 N) (nx_Graph, [])) as [G0 cm0].
  simpl in Hn, He, Hc.
  rewrite (bind_eq _ _ _ _ _
             (edge_rows p N N 0 G0 k
                ltac:(rewrite He; intros e []))).
  rewrite Hn, He, Hc. unfold pairs. rewrite Hr. reflexivity.
Qed.

Lemma pairs_count_from (N m : nat) :
  forall b, (b + m = N)%nat ->
    (2 * List.length
           (flat_map (fun i => map (fun j => (i, j)) (range (i + 1) N))
                     (seq b m))
     + m = m * m)%nat.
Proof.
  induction m as [|m IH]; intros b Hb; [reflexivity|].
  cbn [seq flat_map]. rewrite length_app, length_map. unfold range at 1.
  rewrite length_seq. specialize (IH (S b) ltac:(lia)).
  replace (N - (b + 1))%nat with m by lia. nia.
Qed.

Lemma pairs_count (N : nat) :
  (2 * List.length (pairs N) = N * (N - 1))%nat.
Proof.
  unfold pairs. replace (range 0 N) with (seq 0 N)
    by (unfold range; rewrite Nat.sub_0_r; reflexivity).
  pose proof (pairs_count_from N N 0 eq_refl). destruct N; [reflexivity|].
  replace (S N - 1)%nat with N by lia. nia.
Qed.

Lemma pairs_spec (N : nat) (e : nat * nat) :
  In e (pairs N) <-> (fst e < snd e)%nat /\ (snd e < N)%nat.
Proof.
  unfold pairs, range. rewrite in_flat_map. split.
  - intros (i & Hi & He). apply in_map_iff in He.
    destruct He as (j & <- & Hj). apply in_seq in Hi, Hj. simpl. lia.
  - intros [H1 H2]. exists (fst e). split; [apply in_seq; lia|].
    apply in_map_iff. exists (snd e). split; [destruct e; reflexivity|].
    apply in_seq. lia.
Qed.

Lemma chosen_none (p : Q) (es : list (nat * nat)) :
  (forall i, Qltb (random i) p = false) ->
  forall k, chosen random p k es = [].
Proof.
  intros H. induction es as [|e es IH]; intros k; simpl; [reflexivity|].
  rewrite H. apply IH.
Qed.

Lemma chosen_all (p : Q) (es : list (nat * nat)) :
  (forall i, Qltb (random i) p = true) ->
  forall k, chosen random p k es = es.
Proof.
  intros H. induction es as [|e es IH]; intros k; simpl; [reflexivity|].
  rewrite H, IH. reflexivity.
Qed.

Lemma has_edge_In (G : Graph) (i j : nat) :
  In (i, j) (edges G) -> has_edge G i j = true /\ has_edge G j i = true.
Proof.
  intros H. unfold has_edge. split; apply existsb_exists; exists (i, j);
    (split; [assumption|]); simpl; rewrite !Nat.eqb_refl; simpl;
    auto using orb_true_r.
Qed.

(** The nodes the generator makes are [0 .. N-1] in this order, with
    N = susceptible + infected + recovered (none when the sum is
    negative); the first [susceptible] of them are labelled susceptible,
    the next [infected] infected and the others recovered, and the colour
    map lists the colour of each node in the same order. *)
Theorem generateErdosRenyi_nodes_and_colors :
  forall (susceptible infected recovered : Z) (p : Q) (k : nat),
    exists G cmap k',
      generateErdosRenyi random susceptible infected recovered p k
      = Some ((G, cmap), k')
      /\ node_ids G
         = seq 0 (Z.to_nat (susceptible + infected + recovered))
      /\ (forall i l, label G i = Some l ->
            (l = Susceptible <-> Z.of_nat i < susceptible)
            /\ (l = Infected <->
                susceptible <= Z.of_nat i < susceptible + infected)
            /\ (l = Recovered <->
                susceptible <= Z.of_nat i
                /\ susceptible + infected <= Z.of_nat i))
      /\ cmap = map (fun nl => block_color (snd nl)) (nodes G).
Proof.
  intros susceptible infected recovered p k.
  eexists _, _, _. split; [apply generateErdosRenyi_closed|].
  cbv zeta. set (N := Z.to_nat (susceptible + infected + recovered)).
  split; [|split].
  - unfold node_ids. simpl. rewrite map_map. simpl. apply map_id.
  - intros i l Hl. unfold label in Hl. simpl in Hl.
    assert (Hin : In i (seq 0 N)).
    { apply lookup_Some_In in Hl. rewrite map_map in Hl. simpl in Hl.
      rewrite map_id in Hl. assumption. }
    rewrite (lookup_generated (block_label susceptible infected) i _ Hin)
      in Hl.
    injection Hl as <-. unfold block_label.
    destruct (Z.ltb_spec (Z.of_nat i) susceptible);
      [|destruct (Z.ltb_spec (Z.of_nat i) (susceptible + infected))];
      repeat split; intros; try discriminate; try reflexivity; lia.
  - simpl. rewrite map_map. reflexivity.
Qed.

(** The generator draws once for each unordered pair of nodes:
    N (N - 1) / 2 times for N nodes. *)
Theorem generateErdosRenyi_draws :
  forall (susceptible infected recovered : Z) (p : Q) (k : nat),
    exists r k',
      generateErdosRenyi random susceptible infected recovered p k
      = Some (r, k')
      /\ (k <= k')%nat
      /\ (2 * (k' - k)
          = Z.to_nat (susceptible + infected + recovered)
            * (Z.to_nat (susceptible + infected + recovered) - 1))%nat.
Proof.
  intros susceptible infected recovered p k.
  eexists _, _. split; [apply generateErdosRenyi_closed|].
  cbv zeta. split; [lia|].
  rewrite <- pairs_count. lia.
Qed.

(** When the three counts add up to 0 or less, the generator returns the
    graph without nodes and the empty colour map, and draws nothing. *)
Theorem generateErdosRenyi_empty :
  forall (susceptible infected recovered : Z) (p : Q) (k : nat),
    susceptible + infected + recovered <= 0 ->
    generateErdosRenyi random susceptible infected recovered p k
    = Some ((nx_Graph, []), k).
Proof.
  intros susceptible infected recovered p k H.
  rewrite generateErdosRenyi_closed. cbv zeta.
  replace (Z.to_nat (susceptible + infected + recovered)) with 0%nat by lia.
  simpl. rewrite Nat.add_0_r. reflexivity.
Qed.

(** The edges of the generated graph are the pairs (i, j) with
    i < j < N, taken in the order (0,1), (0,2), ..., (1,2), ..., for which
    the draw made for the pair was below the contact probability; the
    m-th pair uses the m-th draw. *)
Theorem generateErdosRenyi_edges :
  forall (susceptible infected recovered : Z) (p : Q) (k : nat),
    exists G cmap k',
      generateErdosRenyi random susceptible infected recovered p k
      = Some ((G, cmap), k')
      /\ edges G
         = chosen random p k
             (pairs (Z.to_nat (susceptible + infected + recovered)))
      /\ forall e, In e (edges G) ->
           (fst e < snd e)%nat
           /\ (snd e < Z.to_nat (susceptible + infected + recovered))%nat.
Proof.
  intros susceptible infected recovered p k.
  eexists _, _, _. split; [apply generateErdosRenyi_closed|].
  cbv zeta. simpl. split; [reflexivity|].
  intros e He. apply chosen_In in He. apply pairs_spec. assumption.
Qed.

(** With contact probability 0 (and a generator that hands out values
    that are not negative) the generated graph has no edge. *)
Theorem generateErdosRenyi_no_contact :
  forall (susceptible infected recovered : Z) (p : Q) (k : nat),
    (p == 0)%Q -> (forall i, (0 <= random i)%Q) ->
    exists G cmap k',
      generateErdosRenyi random susceptible infected recovered p k
      = Some ((G, cmap), k')
      /\ edges G = [].
Proof.
  intros susceptible infected recovered p k Hp Hrand.
  eexists _, _, _. split; [apply generateErdosRenyi_closed|].
  cbv zeta. simpl. apply chosen_none.
  intros i. apply Qltb_zero; auto.
Qed.

(** When every draw is below the contact probability the generated
    graph is complete: every two distinct nodes are joined. *)
Theorem generateErdosRenyi_complete :
  forall (susceptible infected recovered : Z) (p : Q) (k : nat),
    (forall i, (random i < p)%Q) ->
    exists G cmap k',
      generateErdosRenyi random susceptible infected recovered p k
      = Some ((G, cmap), k')
      /\ forall i j,
           In i (node_ids G) -> In j (node_ids G) -> i <> j ->
           has_edge G i j = true.
Proof.
  intros susceptible infected recovered p k Hrand.
  eexists _, _, _. split; [apply generateErdosRenyi_closed|].
  cbv zeta. set (N := Z.to_nat (susceptible + infected + recovered)).
  unfold node_ids. simpl nodes. rewrite map_map. simpl. rewrite map_id.
  intros i j Hi Hj Hij. apply in_seq in Hi, Hj.
  set (G := mkGraph _ _).
  assert (HE : edges G = pairs N).
  { unfold G. simpl. apply chosen_all. intros m. apply Qltb_lt, Hrand. }
  destruct (Nat.lt_ge_cases i j).
  - apply (has_edge_In G i j). rewrite HE. apply pairs_spec. simpl. lia.
  - apply (has_edge_In G j i). rewrite HE. apply pairs_spec. simpl. lia.
Qed.

(** ** The structure of a run *)

Lemma pass_runs (num_graph : nat) (gs : list Community) (k : nat) :
  wf_store gs -> (num_graph < 4)%nat ->
  exists gs' k',
    performGraphIteration random beta recovery move_probability
      num_graph gs k = Some (gs', k')
    /\ wf_store gs'.
Proof.
  intros Hwf Hlt.
  destruct (nth_error_lt gs num_graph) as [c Ec];
    [destruct Hwf as [-> _]; assumption|].
  destruct (pass_total num_graph (fun _ => True) gs k c Hwf Ec I)
    as (gs' & k' & st & c1 & g' & E & _ & Hwf1 & _ & _ & _ & Hg' & _ & _
        & ->); [auto|].
  eexists _, _. split; [exact E|]. apply wf_store_settled; assumption.
Qed.

(** Every iteration of the main loop runs, and iteration [t + 1] is made
    of the update of the four communities of the store that iteration
    [t] left, the redraw, and one new entry in each time series. *)
Lemma state_after_step (n : Z) (t : nat) (k : nat) :
  exists w k1 acc k2 gs' k3,
    state_after random gamma beta recovery move_probability n t k
    = Some (w, k1)
    /\ wf_store (graphs w)
    /\ update_pass random beta recovery move_probability (graphs w) k1
       = Some (acc, k2)
    /\ wf_store (t_graphs acc)
    /\ redraw_pass random gamma (t_graphs acc) k2 = Some (gs', k3)
    /\ redrawn (t_graphs acc) gs'
    /\ state_after random gamma beta recovery move_probability n (S t) k
       = Some (mkWorld gs'
                 (global_susceptible w ++ [curr_global_susceptible acc])
                 (global_infected w ++ [curr_global_infected acc])
                 (global_recovered w ++ [curr_global_recovered acc])
                 (timesteps w ++ [S t]),
               k3).
Proof.
  destruct (run_invariant n (fun _ => True) (fun _ => True))
    with (t := t) (k := k) as (w & k1 & E & Hwf & _); auto.
  { intros num gs j Hnum Hgs _.
    destruct (pass_runs num gs j Hgs Hnum) as (gs' & j' & E & Hwf').
    exists gs', j'. auto. }
  destruct (update_pass_total (fun _ => True) (graphs w) k1)
    as (acc & k2 & E2 & Hwf2 & _); auto.
  { intros num gs j Hnum Hgs _.
    destruct (pass_runs num gs j Hgs Hnum) as (gs' & j' & E' & Hwf').
    exists gs', j'. auto. }
  destruct (redraw_pass_total (t_graphs acc) k2) as (gs' & k3 & E3 & Hr).
  exists w, k1, acc, k2, gs', k3.
  repeat (split; [assumption|]).
  simpl. rewrite (bind_eq _ _ _ _ _ E). unfold timestep.
  rewrite (bind_eq _ _ _ _ _ E2), (bind_eq _ _ _ _ _ E3). reflexivity.
Qed.

Lemma state_after_zero (n : Z) (k : nat) (w : World) (k' : nat) :
  state_after random gamma beta recovery move_probability n 0 k
  = Some (w, k') ->
  global_susceptible w = [4 * (n - 1)]
  /\ global_infected w = [4]
  /\ global_recovered w = [0]
  /\ timesteps w = [0%nat].
Proof.
  simpl. unfold initial_conditions. intros H.
  apply bind_inv in H. destruct H as (gs & k1 & _ & H).
  injection H as <- _. simpl. auto.
Qed.

(** The time series are indexed by the timestep and only ever grow:
    after iteration [t] the list [timesteps] is [0, 1, ..., t] and each of
    the three global lists has [t + 1] entries, starting with the totals
    of the initialisation, 4 (n - 1), 4 and 0; iteration [t + 1] keeps
    these entries and appends one to each list. *)
Theorem time_series_grow_by_one :
  forall (n : Z) (t : nat),
    exists w w',
      main random gamma beta recovery move_probability n t = Some w
      /\ main random gamma beta recovery move_probability n (S t) = Some w'
      /\ timesteps w = seq 0 (S t)
      /\ List.length (global_susceptible w) = S t
      /\ List.length (global_infected w) = S t
      /\ List.length (global_recovered w) = S t
      /\ hd_error (global_susceptible w) = Some (4 * (n - 1))
      /\ hd_error (global_infected w) = Some 4
      /\ hd_error (global_recovered w) = Some 0
      /\ (exists s i r,
            global_susceptible w' = global_susceptible w ++ [s]
            /\ global_infected w' = global_infected w ++ [i]
            /\ global_recovered w' = global_recovered w ++ [r]
            /\ timesteps w' = timesteps w ++ [S t]).
Proof.
  intros n t.
  destruct (state_after_step n t 0)
    as (w & k1 & acc & k2 & gs' & k3 & E & _ & _ & _ & _ & _ & E').
  eexists w, _. split; [eapply main_state_after; exact E|].
  split; [eapply main_state_after; exact E'|].
  assert (H : timesteps w = seq 0 (S t)
              /\ List.length (global_susceptible w) = S t
              /\ List.length (global_infected w) = S t
              /\ List.length (global_recovered w) = S t
              /\ hd_error (global_susceptible w) = Some (4 * (n - 1))
              /\ hd_error (global_infected w) = Some 4
              /\ hd_error (global_recovered w) = Some 0).
  { clear E' acc k2 gs' k3. revert w k1 E.
    induction t as [|t IH]; intros w k1 E.
    - apply state_after_zero in E. destruct E as (-> & -> & -> & ->).
      repeat split.
    - destruct (state_after_step n t 0)
        as (w0 & j1 & acc & j2 & gs' & j3 & E0 & _ & _ & _ & _ & _ & E1).
      rewrite E1 in E. injection E as <- <-.
      destruct (IH w0 j1 E0) as (H1 & H2 & H3 & H4 & H5 & H6 & H7).
      cbn [timesteps global_susceptible global_infected global_recovered].
      rewrite !length_app, H1, H2, H3, H4.
      split; [rewrite (seq_S (S t)); reflexivity|].
      split; [simpl; lia|]. split; [simpl; lia|]. split; [simpl; lia|].
      destruct (global_susceptible w0); [discriminate|].
      destruct (global_infected w0); [discriminate|].
      destruct (global_recovered w0); [discriminate|].
      simpl in *. auto. }
  destruct H as (H1 & H2 & H3 & H4 & H5 & H6 & H7).
  repeat (split; [assumption|]).
  simpl. eexists _, _, _. repeat split.
Qed.

(** ** Conservation of the individuals *)

Lemma whole_upd (gs : list Community) (i : nat) (x y : Community) :
  nth_error gs i = Some y ->
  whole (upd i x gs) = whole gs - population y + population x.
Proof. intros E. exact (sum_Z_upd population i x y gs E). Qed.

Lemma settled_population (st : PassState) (c : Community) (g' : Graph) :
  incl (nodes_to_remove st) (node_ids (c_graph c)) ->
  population (settled st c g')
  = local_population st - Z.of_nat (List.length (nodes_to_remove st)).
Proof.
  intros Hincl. pose proof (labelled_all _ _ Hincl).
  unfold population, settled, local_population. simpl. lia.
Qed.

(** One call moves individuals between the counters of the store but
    neither creates nor loses any. *)
Lemma pass_conserves (num_graph : nat) (gs : list Community) (k : nat) :
  wf_store gs -> (num_graph < 4)%nat ->
  exists gs' k',
    performGraphIteration random beta recovery move_probability
      num_graph gs k = Some (gs', k')
    /\ wf_store gs'
    /\ whole gs' = whole gs.
Proof.
  intros Hwf Hlt.
  destruct (nth_error_lt gs num_graph) as [c Ec];
    [destruct Hwf as [-> _]; assumption|].
  destruct (pass_total num_graph
              (fun st =>
                 (exists ck, nth_error (ps_graphs st) num_graph = Some ck
                             /\ population ck = population c)
                 /\ whole (ps_graphs st) + local_population st
                    - Z.of_nat (List.length (nodes_to_remove st))
                    = whole gs + population c)
              gs k c Hwf Ec)
    as (gs' & k' & st & c1 & g' & E & [(ck & Eck & Hck) HQ] & Hwf1 & Ec1
        & Hnd & Hincl & Hg' & Hsize & _ & ->).
  - simpl. split; [eauto|]. unfold local_population, population. simpl.
    lia.
  - intros node rest s s' Hs [(ck & Eck & Hck) HQ] Hout.
    assert (Hrelabel : forall c0 l a b d,
               nth_error (ps_graphs s) num_graph = Some c0 ->
               a + b + d = local_population s ->
               (exists ck',
                   nth_error
                     (upd num_graph
                        (set_graph c0 (relabel (c_graph c0) node l))
                        (ps_graphs s)) num_graph = Some ck'
                   /\ population ck' = population c)
               /\ whole (upd num_graph
                           (set_graph c0 (relabel (c_graph c0) node l))
                           (ps_graphs s))
                  + (a + b + d)
                  - Z.of_nat (List.length (nodes_to_remove s))
                  = whole gs + population c).
    { intros c0 l a b d E0 Hsum. rewrite E0 in Eck. injection Eck as <-.
      split.
      - eexists. split; [apply nth_error_upd_same; apply nth_error_Some;
                         congruence|]. exact Hck.
      - rewrite (whole_upd _ _ _ _ E0), Hsum.
        change (population (set_graph c0 (relabel (c_graph c0) node l)))
          with (population c0). lia. }
    destruct Hout as [c0 cd l d j _ E0 El Hd Ecd ->
                     |c0 j _ E0 El -> |c0 j _ E0 El ->
                     |c0 nb j nbrs _ E0 El _ _ _ -> | ->].
    + cbn [ps_graphs nodes_to_remove]. split.
      * exists ck. rewrite nth_error_upd_other by assumption. auto.
      * rewrite (whole_upd _ _ _ _ Ecd), population_set_count.
        change (population (set_graph cd (add_node (c_graph cd) node l)))
          with (population cd).
        replace (count (set_graph cd (add_node (c_graph cd) node l)) l)
          with (count cd l) by (destruct l; reflexivity).
        rewrite length_app. cbn [List.length].
        unfold local_population in *. cbn [local_susceptible local_infected
                                            local_recovered]. lia.
    + apply (Hrelabel c0 Recovered (local_susceptible s)
               (local_infected s - 1) (local_recovered s + 1));
        [assumption | unfold local_population; lia].
    + apply (Hrelabel c0 Susceptible (local_susceptible s + 1)
               (local_infected s) (local_recovered s - 1));
        [assumption | unfold local_population; lia].
    + apply (Hrelabel c0 Infected (local_susceptible s - 1)
               (local_infected s + 1) (local_recovered s));
        [assumption | unfold local_population; lia].
    + split; eauto.
  - exists (upd num_graph (settled st c1 g') (ps_graphs st)), k'.
    split; [assumption|]. split; [apply wf_store_settled; assumption|].
    rewrite (whole_upd _ _ _ _ Ec1), (settled_population _ _ _ Hincl).
    rewrite Ec1 in Eck. injection Eck as <-. lia.
Qed.

Lemma redrawn_counters (gs gs' : list Community) :
  redrawn gs gs' -> map counters gs' = map counters gs.
Proof.
  intros [Hlen H]. apply nth_error_ext. intros i. rewrite !nth_error_map.
  destruct (nth_error gs i) as [c|] eqn:Ec.
  - destruct (H i c Ec) as (c' & -> & Hcnt & _). simpl. congruence.
  - apply nth_error_None in Ec. rewrite <- Hlen in Ec.
    apply nth_error_None in Ec. rewrite Ec. reflexivity.
Qed.

Lemma whole_counters (gs gs' : list Community) :
  map counters gs' = map counters gs -> whole gs' = whole gs.
Proof.
  intros H. unfold whole.
  replace (map population gs')
    with (map (fun x : Z * Z * Z => fst (fst x) + snd (fst x) + snd x)
              (map counters gs'))
    by (rewrite map_map; reflexivity).
  rewrite H, map_map. reflexivity.
Qed.

(** Individuals are neither created nor lost: after every iteration, for
    every population [n], every generator and all probabilities, the
    counters of the four communities add up to [4 n]. *)
Theorem individuals_are_conserved :
  forall (n : Z) (t : nat),
    exists w,
      main random gamma beta recovery move_probability n t = Some w
      /\ sum_Z (map (fun c => c_susceptible c + c_infected c + c_recovered c)
                    (graphs w))
         = 4 * n.
Proof.
  intros n t.
  destruct (run_invariant n (fun gs => whole gs = 4 * n)
              (fun gs => whole gs = 4 * n))
    with (t := t) (k := 0%nat) as (w & k' & E & Hwf & HW).
  - intros gs [Hlen H].
    destruct gs as [|c1 [|c2 [|c3 [|c4 [|c5 gs]]]]]; try discriminate.
    pose proof (H c1 ltac:(simpl; auto)) as (H1 & _).
    pose proof (H c2 ltac:(simpl; auto)) as (H2 & _).
    pose proof (H c3 ltac:(simpl; auto)) as (H3 & _).
    pose proof (H c4 ltac:(simpl; auto)) as (H4 & _).
    unfold counters in *.
    injection H1 as A1 B1 C1. injection H2 as A2 B2 C2.
    injection H3 as A3 B3 C3. injection H4 as A4 B4 C4.
    unfold whole, sum_Z, population. cbn [map fold_right]. lia.
  - auto.
  - intros num gs j Hnum Hwf HI.
    destruct (pass_conserves num gs j Hwf Hnum) as (gs' & j' & E & Hwf' & H).
    exists gs', j'. split; [assumption|]. split; [assumption|]. lia.
  - intros gs gs' Hwf HI Hr.
    rewrite (whole_counters _ _ (redrawn_counters _ _ Hr)). assumption.
  - exists w. split; [eapply main_state_after; eassumption|]. exact HW.
Qed.

(** ** What a call does to the other communities *)

Lemma grown_refl (c : Community) : grown c c.
Proof.
  split; [intros; lia|]. split; [apply incl_refl|]. split; reflexivity.
Qed.

Lemma grown_arrival (c cd : Community) (node : nat) (l : Label) :
  grown c cd ->
  grown c (set_count (set_graph cd (add_node (c_graph cd) node l)) l
             (count cd l + 1)).
Proof.
  intros (H1 & H2 & H3 & H4). split; [|split; [|split]].
  - intros l0. rewrite count_arrival. specialize (H1 l0).
    destruct (Label_eqb l l0); lia.
  - rewrite c_graph_set_count. simpl.
    destruct (add_node_cases (c_graph cd) node l) as [[_ ->]|[_ ->]].
    + rewrite relabel_ids. assumption.
    + unfold node_ids at 2. simpl. rewrite map_app.
      apply incl_appl. assumption.
  - rewrite c_graph_set_count. simpl.
    destruct (add_node_cases (c_graph cd) node l) as [[_ ->]|[_ ->]];
      assumption.
  - destruct l; assumption.
Qed.

Lemma pass_others_grow (num_graph : nat) (gs : list Community) (k : nat) :
  wf_store gs -> (num_graph < 4)%nat ->
  exists gs' k',
    performGraphIteration random beta recovery move_probability
      num_graph gs k = Some (gs', k')
    /\ wf_store gs'
    /\ forall i c, i <> num_graph -> nth_error gs i = Some c ->
         exists c', nth_error gs' i = Some c' /\ grown c c'.
Proof.
  intros Hwf Hlt.
  destruct (nth_error_lt gs num_graph) as [c Ec];
    [destruct Hwf as [-> _]; assumption|].
  destruct (pass_total num_graph
              (fun st =>
                 forall i ci, i <> num_graph -> nth_error gs i = Some ci ->
                   exists ci', nth_error (ps_graphs st) i = Some ci'
                               /\ grown ci ci')
              gs k c Hwf Ec)
    as (gs' & k' & st & c1 & g' & E & HQ & Hwf1 & Ec1
        & Hnd & Hincl & Hg' & Hsize & _ & ->).
  - simpl. intros i ci _ Ei. exists ci. split; [assumption|].
    apply grown_refl.
  - intros node rest s s' Hs HQ Hout.
    assert (Hown : forall x,
               forall i ci, i <> num_graph -> nth_error gs i = Some ci ->
                 exists ci', nth_error (upd num_graph x (ps_graphs s)) i
                             = Some ci' /\ grown ci ci').
    { intros x i ci Hi Ei. rewrite nth_error_upd_other by congruence.
      apply (HQ i ci Hi Ei). }
    destruct Hout as [c0 cd l d j _ E0 El Hd Ecd ->
                     |c0 j _ E0 El -> |c0 j _ E0 El ->
                     |c0 nb j nbrs _ E0 El _ _ _ -> | ->];
      cbn [ps_graphs]; try apply Hown; try assumption.
    intros i ci Hi Ei. destruct (HQ i ci Hi Ei) as (ci' & Ei' & Hg).
    destruct (Nat.eq_dec d i) as [<-|Hdi].
    + rewrite nth_error_upd_same by (apply nth_error_Some; congruence).
      eexists. split; [reflexivity|]. rewrite Ecd in Ei'.
      injection Ei' as <-. apply grown_arrival. assumption.
    + rewrite nth_error_upd_other by assumption. eauto.
  - exists (upd num_graph (settled st c1 g') (ps_graphs st)), k'.
    split; [assumption|]. split; [apply wf_store_settled; assumption|].
    intros i ci Hi Ei. rewrite nth_error_upd_other by congruence.
    apply (HQ i ci Hi Ei).
Qed.

(** A call of [performGraphIteration] never lowers a counter of another
    community, never takes a node out of the graph of another community
    and leaves its edges and its colour map untouched: the other
    communities only ever receive migrants. *)
Theorem a_call_only_adds_to_other_communities :
  forall (num_graph : nat) (gs : list Community) (k : nat),
    wf_store gs -> (num_graph < 4)%nat ->
    exists gs' k',
      performGraphIteration random beta recovery move_probability
        num_graph gs k = Some (gs', k')
      /\ forall i c, i <> num_graph -> nth_error gs i = Some c ->
           exists c',
             nth_error gs' i = Some c'
             /\ c_susceptible c <= c_susceptible c'
             /\ c_infected c <= c_infected c'
             /\ c_recovered c <= c_recovered c'
             /\ incl (node_ids (c_graph c)) (node_ids (c_graph c'))
             /\ edges (c_graph c') = edges (c_graph c)
             /\ c_cmap c' = c_cmap c.
Proof.
  intros num_graph gs k Hwf Hlt.
  destruct (pass_others_grow num_graph gs k Hwf Hlt)
    as (gs' & k' & E & _ & H).
  exists gs', k'. split; [assumption|].
  intros i c Hi Ei. destruct (H i c Hi Ei) as (c' & Ei' & H1 & H2 & H3 & H4).
  exists c'. split; [assumption|].
  split; [apply (H1 Susceptible)|]. split; [apply (H1 Infected)|].
  split; [apply (H1 Recovered)|]. auto.
Qed.

(** ** The recorded totals *)

Lemma total_firstn_S (gs : list Community) (m : nat) (c : Community)
  (l : Label) :
  nth_error gs m = Some c ->
  total (firstn (S m) gs) l = total (firstn m gs) l + count c l.
Proof.
  revert m. induction gs as [|y gs IH]; intros [|m] E; simpl in *;
    try discriminate.
  - injection E as ->. unfold total, sum_Z. simpl. lia.
  - unfold total, sum_Z in *. simpl. specialize (IH m E). simpl in IH.
    lia.
Qed.

Lemma total_firstn_le (gs gs' : list Community) (m : nat) (l : Label) :
  (forall i c, (i < m)%nat -> nth_error gs i = Some c ->
     exists c', nth_error gs' i = Some c' /\ count c l <= count c' l) ->
  (m <= List.length gs)%nat ->
  total (firstn m gs) l <= total (firstn m gs') l.
Proof.
  intros H Hlen. induction m as [|m IH]; [simpl; lia|].
  destruct (nth_error_lt gs m ltac:(lia)) as [c Ec].
  destruct (H m c ltac:(lia) Ec) as (c' & Ec' & Hc).
  rewrite (total_firstn_S gs m c l Ec), (total_firstn_S gs' m c' l Ec').
  assert (total (firstn m gs) l <= total (firstn m gs') l).
  { apply IH; [|lia]. intros i ci Hi Ei. apply (H i ci); [lia|assumption]. }
  lia.
Qed.

(** The running totals of [update_pass] against the counters of the
    communities already updated. *)
Lemma update_pass_tally (R : Z -> Z -> Prop) (gs : list Community)
  (k : nat) :
  (forall a, R a a) ->
  (forall a b d, R a b -> R (a + d) (b + d)) ->
  (forall num gs j, (num < 4)%nat -> wf_store gs ->
     exists gs' j',
       performGraphIteration random beta recovery move_probability
         num gs j = Some (gs', j')
       /\ wf_store gs'
       /\ forall l a, R a (total (firstn num gs) l) ->
                      R a (total (firstn num gs') l)) ->
  wf_store gs ->
  exists acc k',
    update_pass random beta recovery move_probability gs k = Some (acc, k')
    /\ wf_store (t_graphs acc)
    /\ forall l, R (curr_global acc l) (total (t_graphs acc) l).
Proof.
  intros Hrefl Hadd Hpass Hwf. unfold update_pass.
  destruct (for_each_total
              (fun (rest : list nat) (acc : Tally) =>
                 exists m,
                   rest = seq m (4 - m) /\ (m <= 4)%nat
                   /\ wf_store (t_graphs acc)
                   /\ forall l, R (curr_global acc l)
                                  (total (firstn m (t_graphs acc)) l))
              (fun n acc =>
                 gs <- performGraphIteration random beta recovery
                         move_probability n (t_graphs acc) ;;
                 c <- lift (nth_error gs n) ;;
                 ret (mkTally gs
                        (curr_global_susceptible acc + c_susceptible c)
                        (curr_global_infected acc + c_infected c)
                        (curr_global_recovered acc + c_recovered c))))
    with (xs := range 0 (List.length gs)) (s := mkTally gs 0 0 0) (k := k)
    as (acc & k' & E & m & Hm & Hm4 & Hwfa & HR).
  - intros n rest acc j (m & Hrest & Hm4 & Hwfa & HR).
    assert (Hm : (m < 4)%nat).
    { destruct (Nat.eq_dec m 4) as [->|]; [discriminate | lia]. }
    replace (4 - m)%nat with (S (4 - S m)) in Hrest by lia.
    simpl in Hrest. injection Hrest as -> ->.
    destruct (Hpass m (t_graphs acc) j Hm Hwfa)
      as (gs' & j' & E & Hwf' & Hmono).
    rewrite (bind_eq _ _ _ _ _ E).
    destruct (nth_error_lt gs' m) as [c Ec];
      [destruct Hwf' as [-> _]; assumption|].
    rewrite (bind_eq _ _ _ _ _ (lift_eq _ _ _ Ec)).
    eexists _, _. split; [reflexivity|]. exists (S m).
    split; [reflexivity|]. split; [lia|]. split; [assumption|].
    intros l. cbn [t_graphs]. rewrite (total_firstn_S gs' m c l Ec).
    specialize (Hmono l _ (HR l)).
    destruct l; cbn [curr_global curr_global_susceptible
                       curr_global_infected curr_global_recovered count];
      apply Hadd; assumption.
  - exists 0%nat. destruct Hwf as [Hlen Hall]. rewrite Hlen.
    split; [reflexivity|]. split; [lia|]. split; [split; assumption|].
    intros l. simpl. destruct l; apply Hrefl.
  - exists acc, k'. split; [assumption|]. split; [assumption|].
    assert (m = 4%nat).
    { destruct (Nat.eq_dec m 4) as [->|]; [reflexivity|].
      replace (4 - m)%nat with (S (4 - S m)) in Hm by lia. discriminate. }
    subst m. intros l. specialize (HR l).
    rewrite firstn_all2 in HR; [assumption|].
    destruct Hwfa as [-> _]. lia.
Qed.

Lemma total_counters (gs gs' : list Community) (l : Label) :
  map counters gs' = map counters gs -> total gs' l = total gs l.
Proof.
  intros H. unfold total.
  replace (map (fun c => count c l) gs')
    with (map (fun x : Z * Z * Z =>
                 match l with
                 | Susceptible => fst (fst x)
                 | Infected => snd (fst x)
                 | Recovered => snd x
                 end) (map counters gs'))
    by (rewrite map_map; apply map_ext; intros c; destruct l; reflexivity).
  rewrite H, map_map. reflexivity.
Qed.

Lemma total_started (n : Z) (gs : list Community) (l : Label) :
  started n gs ->
  total gs l = match l with
               | Susceptible => 4 * (n - 1)
               | Infected => 4
               | Recovered => 0
               end.
Proof.
  intros [Hlen H].
  destruct gs as [|c1 [|c2 [|c3 [|c4 [|c5 gs]]]]]; try discriminate.
  pose proof (H c1 ltac:(simpl; auto)) as (H1 & _).
  pose proof (H c2 ltac:(simpl; auto)) as (H2 & _).
  pose proof (H c3 ltac:(simpl; auto)) as (H3 & _).
  pose proof (H c4 ltac:(simpl; auto)) as (H4 & _).
  unfold counters in *.
  injection H1 as A1 B1 C1. injection H2 as A2 B2 C2.
  injection H3 as A3 B3 C3. injection H4 as A4 B4 C4.
  destruct l; unfold total, sum_Z; cbn [map fold_right count]; lia.
Qed.

Lemma state_after_zero_started (n : Z) (k : nat) :
  exists w k',
    state_after random gamma beta recovery move_probability n 0 k
    = Some (w, k')
    /\ started n (graphs w)
    /\ forall l, global_series w l
                 = [match l with
                    | Susceptible => 4 * (n - 1)
                    | Infected => 4
                    | Recovered => 0
                    end].
Proof.
  destruct (initial_conditions_total n k) as (w & k' & E & Hs).
  exists w, k'. split; [exact E|]. split; [assumption|].
  destruct (state_after_zero n k w k' E) as (H1 & H2 & H3 & _).
  intros []; simpl; assumption.
Qed.

(** The totals recorded for a timestep relate to the counters the store
    holds when the iteration is complete as the running totals of the
    update relate to the counters it leaves. *)
Lemma recorded_totals (R : Z -> Z -> Prop) (n : Z) (t : nat) :
  (forall a, R a a) ->
  (forall a b d, R a b -> R (a + d) (b + d)) ->
  (forall num gs j, (num < 4)%nat -> wf_store gs ->
     exists gs' j',
       performGraphIteration random beta recovery move_probability
         num gs j = Some (gs', j')
       /\ wf_store gs'
       /\ forall l a, R a (total (firstn num gs) l) ->
                      R a (total (firstn num gs') l)) ->
  exists w,
    main random gamma beta recovery move_probability n t = Some w
    /\ forall l, R (last (global_series w l) 0) (total (graphs w) l).
Proof.
  intros Hrefl Hadd Hpass. destruct t as [|t].
  - destruct (state_after_zero_started n 0) as (w & k' & E & Hs & Hg).
    exists w. split; [eapply main_state_after; exact E|].
    intros l. rewrite Hg, (total_started n _ l Hs). simpl. apply Hrefl.
  - destruct (state_after_step n t 0)
      as (w & k1 & acc & k2 & gs' & k3 & E & Hwf & E2 & _ & _ & Hr & E').
    destruct (update_pass_tally R (graphs w) k1 Hrefl Hadd Hpass Hwf)
      as (acc' & k2' & E2' & _ & HR).
    rewrite E2 in E2'. injection E2' as <- <-.
    eexists. split; [eapply main_state_after; exact E'|].
    intros l. cbn [graphs].
    rewrite (total_counters _ _ l (redrawn_counters _ _ Hr)).
    specialize (HR l).
    destruct l; cbn [global_series global_susceptible global_infected
                       global_recovered]; rewrite last_last; exact HR.
Qed.

(** The totals recorded for a timestep never exceed what the counters of
    the four communities add up to when the iteration is complete: a
    migrant that enters a community whose counters were added already is
    missing from the record, nobody is counted twice. *)
Theorem recorded_totals_never_overcount :
  forall (n : Z) (t : nat),
    exists w,
      main random gamma beta recovery move_probability n t = Some w
      /\ last (global_susceptible w) 0
         <= sum_Z (map c_susceptible (graphs w))
      /\ last (global_infected w) 0 <= sum_Z (map c_infected (graphs w))
      /\ last (global_recovered w) 0 <= sum_Z (map c_recovered (graphs w)).
Proof.
  intros n t.
  destruct (recorded_totals Z.le n t) as (w & E & H).
  - intros; lia.
  - intros; lia.
  - intros num gs j Hnum Hwf.
    destruct (pass_others_grow num gs j Hwf Hnum)
      as (gs' & j' & E & Hwf' & Hg).
    exists gs', j'. split; [assumption|]. split; [assumption|].
    intros l a Ha.
    assert (total (firstn num gs) l <= total (firstn num gs') l).
    { apply total_firstn_le; [|destruct Hwf as [-> _]; lia].
      intros i c Hi Ei. destruct (Hg i c ltac:(lia) Ei) as (c' & Ei' & H1 & _).
      exists c'. split; [assumption | apply H1]. }
    lia.
  - exists w. split; [assumption|].
    split; [apply (H Susceptible)|]. split; [apply (H Infected)|].
    apply (H Recovered).
Qed.

Lemma pass_no_movement_others (num_graph : nat) (gs : list Community)
  (k : nat) :
  wf_store gs -> (num_graph < 4)%nat ->
  (move_probability == 0)%Q -> (forall i, (0 <= random i)%Q) ->
  exists gs' k',
    performGraphIteration random beta recovery move_probability
      num_graph gs k = Some (gs', k')
    /\ wf_store gs'
    /\ forall i, i <> num_graph -> nth_error gs' i = nth_error gs i.
Proof.
  intros Hwf Hlt Hmove Hrand.
  destruct (nth_error_lt gs num_graph) as [c Ec];
    [destruct Hwf as [-> _]; assumption|].
  destruct (pass_total num_graph
              (fun st => forall i, i <> num_graph ->
                           nth_error (ps_graphs st) i = nth_error gs i)
              gs k c Hwf Ec)
    as (gs' & k' & st & c1 & g' & E & HQ & Hwf1 & Ec1
        & Hnd & Hincl & Hg' & Hsize & _ & ->).
  - simpl. auto.
  - intros node rest s s' Hs HQ Hout.
    destruct Hout as [c0 cd l d j Hj E0 El Hd Ecd ->
                     |c0 j _ E0 El -> |c0 j _ E0 El ->
                     |c0 nb j nbrs _ E0 El _ _ _ -> | ->];
      cbn [ps_graphs]; try assumption;
      try (intros i Hi; rewrite nth_error_upd_other by congruence;
           apply (HQ i Hi)).
    rewrite (Qltb_zero _ _ (Hrand j) Hmove) in Hj. discriminate.
  - exists (upd num_graph (settled st c1 g') (ps_graphs st)), k'.
    split; [assumption|]. split; [apply wf_store_settled; assumption|].
    intros i Hi. rewrite nth_error_upd_other by congruence. apply (HQ i Hi).
Qed.

(** When nobody moves (movement probability 0, a generator whose values
    are not negative), the totals recorded for a timestep are exactly the
    sums of the counters of the four communities when the iteration is
    complete. *)
Theorem recorded_totals_exact_without_movement :
  forall (n : Z) (t : nat),
    (move_probability == 0)%Q -> (forall i, (0 <= random i)%Q) ->
    exists w,
      main random gamma beta recovery move_probability n t = Some w
      /\ last (global_susceptible w) 0
         = sum_Z (map c_susceptible (graphs w))
      /\ last (global_infected w) 0 = sum_Z (map c_infected (graphs w))
      /\ last (global_recovered w) 0 = sum_Z (map c_recovered (graphs w)).
Proof.
  intros n t Hmove Hrand.
  destruct (recorded_totals eq n t) as (w & E & H).
  - reflexivity.
  - intros; lia.
  - intros num gs j Hnum Hwf.
    destruct (pass_no_movement_others num gs j Hwf Hnum Hmove Hrand)
      as (gs' & j' & E & Hwf' & Hg).
    exists gs', j'. split; [assumption|]. split; [assumption|].
    intros l a ->.
    assert (H1 : total (firstn num gs) l <= total (firstn num gs') l).
    { apply total_firstn_le; [|destruct Hwf as [-> _]; lia].
      intros i c Hi Ei. exists c. rewrite (Hg i ltac:(lia)).
      split; [assumption | lia]. }
    assert (H2 : total (firstn num gs') l <= total (firstn num gs) l).
    { apply total_firstn_le; [|destruct Hwf' as [-> _]; lia].
      intros i c Hi Ei. exists c. rewrite <- (Hg i ltac:(lia)).
      split; [assumption | lia]. }
    lia.
  - exists w. split; [assumption|].
    split; [apply (H Susceptible)|]. split; [apply (H Infected)|].
    apply (H Recovered).
Qed.

(** ** The store when the graphs are drawn *)

Lemma generated_colored (susceptible infected recovered : Z) (p : Q)
  (k : nat) (G : Graph) (cmap : list string) (k' : nat) (a b d : Z) :
  generateErdosRenyi random susceptible infected recovered p k
  = Some ((G, cmap), k') ->
  colored (mkCommunity G cmap a b d).
Proof.
  rewrite generateErdosRenyi_closed. cbv zeta. intros H.
  injection H as <- <- _. unfold colored. simpl. rewrite map_map.
  reflexivity.
Qed.

Lemma initial_conditions_colored (n : Z) (k : nat) (w : World) (k' : nat) :
  initial_conditions random gamma n k = Some (w, k') ->
  forall c, In c (graphs w) -> colored c.
Proof.
  unfold initial_conditions. intros H.
  apply bind_inv in H. destruct H as (gs & k1 & E & H).
  injection H as <- _. simpl.
  destruct (for_each_total
              (fun (rest : list nat) (gs : list Community) =>
                 forall c, In c gs -> colored c)
              (fun (_ : nat) (gs : list Community) =>
                 r <- generateErdosRenyi random (n - 1) 1 0 gamma ;;
                 let '(g, cmap) := r in
                 ret (gs ++ [mkCommunity g cmap (n - 1) 1 0])))
    with (xs := range 0 4) (s := @nil Community) (k := k)
    as (gs0 & k0 & E0 & H0).
  - intros x rest gs1 j Hall.
    destruct (generateErdosRenyi_total (n - 1) 1 0 gamma j)
      as (G & cmap & j' & EG & _).
    rewrite (bind_eq _ _ _ _ _ EG). eexists _, _. split; [reflexivity|].
    intros c Hin. apply in_app_or in Hin.
    destruct Hin as [Hin|[<-|[]]]; [auto|].
    eapply generated_colored; eassumption.
  - intros c [].
  - rewrite E in E0. injection E0 as <- _. assumption.
Qed.

Lemma redraw_pass_colored (gs : list Community) (k : nat)
  (gs' : list Community) (k' : nat) :
  redraw_pass random gamma gs k = Some (gs', k') ->
  forall c, In c gs' -> colored c.
Proof.
  unfold redraw_pass. intros E.
  destruct (for_each_total
              (fun (rest : list nat) (acc : list Community) =>
                 List.length acc = List.length gs
                 /\ (forall i, In i rest -> (i < List.length gs)%nat)
                 /\ forall i c, nth_error acc i = Some c ->
                      ~ In i rest -> colored c)
              (fun n (gs : list Community) =>
                 c <- lift (nth_error gs n) ;;
                 r <- generateErdosRenyi random (c_susceptible c)
                        (c_infected c) (c_recovered c) gamma ;;
                 let '(g, cmap) := r in
                 lift (update_nth n
                         (mkCommunity g cmap (c_susceptible c) (c_infected c)
                            (c_recovered c))
                         gs)))
    with (xs := range 0 (List.length gs)) (s := gs) (k := k)
    as (gs0 & k0 & E0 & Hlen & _ & H).
  - intros n rest acc j (Hlen & Hidx & Hacc). cbv beta.
    assert (Hlt : (n < List.length acc)%nat)
      by (rewrite Hlen; apply Hidx; left; reflexivity).
    destruct (nth_error_lt acc n Hlt) as [c Ec].
    rewrite (bind_eq _ _ _ _ _ (lift_eq _ _ _ Ec)).
    destruct (generateErdosRenyi_total (c_susceptible c) (c_infected c)
                (c_recovered c) gamma j)
      as (G & cmap & j' & EG & _).
    rewrite (bind_eq _ _ _ _ _ EG).
    rewrite update_nth_upd by assumption.
    eexists _, _. split; [reflexivity|].
    split; [rewrite upd_length; assumption|].
    split; [intros i Hi; apply Hidx; right; assumption|].
    intros i ci Eci Hi. destruct (Nat.eq_dec n i) as [<-|Hni].
    + rewrite nth_error_upd_same in Eci by assumption.
      injection Eci as <-. eapply generated_colored; eassumption.
    + rewrite nth_error_upd_other in Eci by assumption.
      apply (Hacc i ci Eci). intros [?|?]; [congruence | contradiction].
  - split; [reflexivity|].
    split; [intros i Hi; apply in_seq in Hi; lia|].
    intros i c Ec Hi. exfalso. apply Hi. apply in_seq.
    assert (i < List.length gs)%nat by (apply nth_error_Some; congruence).
    lia.
  - rewrite E in E0. injection E0 as <- _.
    intros c Hin. apply In_nth_error in Hin. destruct Hin as [i Ei].
    apply (H i c Ei). intros [].
Qed.

(** When the graphs are drawn, at the end of every iteration, the colour
    map of each community has one colour for each node of its graph, in
    the order of the nodes, and it is the colour of the node's label. *)
Theorem colour_map_matches_graph_when_drawn :
  forall (n : Z) (t : nat),
    exists w,
      main random gamma beta recovery move_probability n t = Some w
      /\ forall c, In c (graphs w) ->
           c_cmap c
           = map (fun nl => match snd nl with
                            | Susceptible => "orange"%string
                            | Infected => "red"%string
                            | Recovered => "green"%string
                            end)
                 (nodes (c_graph c)).
Proof.
  intros n t. destruct t as [|t].
  - destruct (initial_conditions_total n 0) as (w & k' & E & _).
    exists w. split; [eapply main_state_after; exact E|].
    apply (initial_conditions_colored n 0 w k' E).
  - destruct (state_after_step n t 0)
      as (w & k1 & acc & k2 & gs' & k3 & _ & _ & _ & _ & E3 & _ & E').
    eexists. split; [eapply main_state_after; exact E'|].
    apply (redraw_pass_colored _ _ _ _ E3).
Qed.

(** For a population of at least 1, at the end of every iteration the
    graph of each community has, for each label, exactly as many nodes as
    the counter of that label says. *)
Theorem labels_agree_with_counters_after_step :
  forall (n : Z) (t : nat),
    1 <= n ->
    exists w,
      main random gamma beta recovery move_probability n t = Some w
      /\ forall c, In c (graphs w) ->
           holders (c_graph c) Susceptible = c_susceptible c
           /\ holders (c_graph c) Infected = c_infected c
           /\ holders (c_graph c) Recovered = c_recovered c.
Proof.
  intros n t Hn.
  destruct (run_invariant n
              (fun gs => forall c, In c gs ->
                 forall l, holders (c_graph c) l = count c l)
              (fun gs => forall c, In c gs ->
                 forall l, holders (c_graph c) l <= count c l))
    with (t := t) (k := 0%nat) as (w & k' & E & Hwf & HW).
  - intros gs [_ H] c Hin l. destruct (H c Hin) as (Hc & _ & Hnodes).
    unfold counters in Hc. injection Hc as HS HI HR.
    rewrite (generated_holders (c_graph c) (n - 1) 1 0
               ltac:(lia) ltac:(lia) ltac:(lia) Hnodes l).
    destruct l; simpl; lia.
  - intros gs _ H c Hin l. rewrite (H c Hin l). lia.
  - intros num gs j Hnum Hwf HI. apply pass_holders; assumption.
  - intros gs gs' Hwf HI Hr c' Hin l.
    destruct (redrawn_In _ _ _ Hr Hin) as (c & Hc & Hcnt & _ & Hnodes).
    unfold counters in Hcnt. injection Hcnt as HS HI' HR.
    pose proof (HI c Hc Susceptible) as H1.
    pose proof (HI c Hc Infected) as H2.
    pose proof (HI c Hc Recovered) as H3.
    pose proof (labelled_nonneg (c_graph c) Susceptible (node_ids (c_graph c))).
    pose proof (labelled_nonneg (c_graph c) Infected (node_ids (c_graph c))).
    pose proof (labelled_nonneg (c_graph c) Recovered (node_ids (c_graph c))).
    unfold holders in H1, H2, H3. simpl in H1, H2, H3.
    rewrite (generated_holders (c_graph c') (c_susceptible c) (c_infected c)
               (c_recovered c) ltac:(lia) ltac:(lia) ltac:(lia) Hnodes l).
    destruct l; simpl; lia.
  - exists w. split; [eapply main_state_after; eassumption|].
    intros c Hin. split; [apply (HW c Hin Susceptible)|].
    split; [apply (HW c Hin Infected) | apply (HW c Hin Recovered)].
Qed.

(** ** What a call does to its own community *)

Lemma fold_without_ids (rm : list nat) :
  forall (g : Graph) (y : nat),
    In y (node_ids (fold_left without_node rm g)) <->
    In y (node_ids g) /\ ~ In y rm.
Proof.
  induction rm as [|x rm IH]; intros g y; simpl; [tauto|].
  rewrite IH, without_node_ids, filter_In.
  destruct (Nat.eqb_spec y x); simpl; intuition congruence.
Qed.

Lemma fold_without_label (rm : list nat) :
  forall (g : Graph) (y : nat),
    ~ In y rm -> label (fold_left without_node rm g) y = label g y.
Proof.
  induction rm as [|x rm IH]; intros g y Hy; simpl; [reflexivity|].
  rewrite IH by (intros H; apply Hy; right; assumption).
  apply label_without_other. intros ->. apply Hy. left. reflexivity.
Qed.

Lemma fold_without_edges (rm : list nat) :
  forall (g : Graph),
    incl (edges (fold_left without_node rm g)) (edges g).
Proof.
  induction rm as [|x rm IH]; intros g; simpl; [apply incl_refl|].
  intros e He. apply IH in He. simpl in He. apply filter_In in He.
  apply He.
Qed.

Lemma upd_same_entry (gs : list Community) (i : nat) (c : Community) :
  nth_error gs i = Some c -> upd i (set_graph c (c_graph c)) gs = gs.
Proof.
  revert i. induction gs as [|y gs IH]; intros [|i] E; simpl in *;
    try discriminate.
  - injection E as ->. destruct c; reflexivity.
  - rewrite IH by assumption. reflexivity.
Qed.

(** The graph the removal loop leaves is the graph it found without the
    scheduled nodes. *)
Lemma remove_loop_graph (num_graph : nat) (rm : list nat) :
  forall (st : PassState) (k : nat) (c : Community),
    wf_store (ps_graphs st) ->
    nth_error (ps_graphs st) num_graph = Some c ->
    NoDup rm -> incl rm (node_ids (c_graph c)) ->
    exists st',
      for_each rm (remove_scheduled num_graph) st k = Some (st', k)
      /\ ps_graphs st'
         = upd num_graph
             (set_graph c (fold_left without_node rm (c_graph c)))
             (ps_graphs st).
Proof.
  induction rm as [|x rm IH]; intros st k c Hwf Ec Hnd Hincl.
  - exists st. simpl. split; [reflexivity|].
    symmetry. apply upd_same_entry. assumption.
  - assert (Hx : In x (node_ids (c_graph c)))
      by (apply Hincl; left; reflexivity).
    destruct (label_In _ _ Hx) as [lx Elx].
    pose proof (wf_store_nth _ _ _ Hwf Ec) as Hg.
    inversion Hnd as [|? ? Hxrm Hnd']; subst.
    set (st1 := if Label_eqb lx Susceptible then
                  with_locals st (local_susceptible st - 1)
                    (local_infected st) (local_recovered st)
                else if Label_eqb lx Infected then
                  with_locals st (local_susceptible st)
                    (local_infected st - 1) (local_recovered st)
                else if Label_eqb lx Recovered then
                  with_locals st (local_susceptible st) (local_infected st)
                    (local_recovered st - 1)
                else st).
    assert (Hgs1 : ps_graphs st1 = ps_graphs st)
      by (unfold st1; destruct lx; reflexivity).
    assert (Ec1 : nth_error (ps_graphs st1) num_graph = Some c)
      by (rewrite Hgs1; assumption).
    set (st2 := with_graphs st1
                  (upd num_graph (set_graph c (without_node (c_graph c) x))
                     (ps_graphs st1))).
    assert (E2 : remove_scheduled num_graph x st k = Some (st2, k)).
    { unfold remove_scheduled.
      rewrite (bind_eq _ _ _ _ _ (the_graph_eq _ _ _ _ Ec)).
      rewrite (bind_eq _ _ _ _ _ (lift_eq _ _ _ Elx)).
      rewrite (bind_eq _ _ _ _ _
                 (lift_eq _ _ _ (remove_node_without _ _ Hx))).
      fold st1. apply put_graph_eq. assumption. }
    assert (Hlt : (num_graph < List.length (ps_graphs st))%nat)
      by (apply nth_error_Some; congruence).
    destruct (IH st2 k (set_graph c (without_node (c_graph c) x)))
      as (st' & E & Hgs).
    + unfold st2. simpl. rewrite Hgs1. apply wf_store_upd; [assumption|].
      simpl. apply wf_without_node. assumption.
    + unfold st2. simpl. rewrite Hgs1. apply nth_error_upd_same. assumption.
    + assumption.
    + simpl. rewrite without_node_ids. intros y Hy. apply filter_In.
      split; [apply Hincl; right; assumption|].
      destruct (Nat.eqb_spec y x); [subst; contradiction | reflexivity].
    + exists st'. simpl for_each.
      rewrite (bind_eq _ _ _ _ _ E2). split; [assumption|].
      rewrite Hgs. unfold st2. simpl. rewrite Hgs1, upd_upd. reflexivity.
Qed.

Lemma upd_inj (gs : list Community) (i : nat) (x y : Community) :
  (i < List.length gs)%nat -> upd i x gs = upd i y gs -> x = y.
Proof.
  intros Hlt H.
  pose proof (nth_error_upd_same i x gs Hlt) as Hx.
  rewrite H, (nth_error_upd_same i y gs Hlt) in Hx. congruence.
Qed.

(** The scan with a property that may speak of the nodes still to be
    scanned. *)
Lemma scan_nodes_total_rest (num_graph : nat)
  (Q : list nat -> PassState -> Prop)
  (st : PassState) (k : nat) (c : Community) :
  wf_store (ps_graphs st) ->
  nth_error (ps_graphs st) num_graph = Some c ->
  nodes_to_remove st = [] ->
  Q (node_ids (c_graph c)) st ->
  (forall node rest s s',
      scan_wf num_graph (node_ids (c_graph c)) (node :: rest) s ->
      Q (node :: rest) s ->
      scan_outcome random beta recovery move_probability num_graph node
        s s' ->
      Q rest s') ->
  exists st' k',
    scan_nodes random beta recovery move_probability num_graph st k
    = Some (st', k')
    /\ scan_wf num_graph (node_ids (c_graph c)) [] st' /\ Q [] st'.
Proof.
  intros Hwf Ec Hrm HQ Hstep.
  unfold scan_nodes. rewrite (bind_eq _ _ _ _ _ (the_graph_eq _ _ _ _ Ec)).
  destruct (for_each_total
              (fun rest s =>
                 scan_wf num_graph (node_ids (c_graph c)) rest s /\ Q rest s)
              (scan_node random beta recovery move_probability num_graph))
    with (xs := node_ids (c_graph c)) (s := st) (k := k)
    as (st' & k' & E & H).
  - intros node rest s j [Hs HQs].
    pose proof Hs as (Hwfs & (cs & Ecs & Hids) & Hnd & Hincl).
    assert (Hin : In node (node_ids (c_graph cs))).
    { rewrite Hids. apply Hincl. apply in_or_app. simpl. auto. }
    destruct (scan_node_outcome num_graph node s j cs Hwfs Ecs Hin)
      as (s' & j' & Es & Hout).
    exists s', j'. split; [assumption|]. split.
    + eapply outcome_wf; eassumption.
    + eapply Hstep; eassumption.
  - split; [|assumption]. split; [assumption|]. split; [eauto|].
    rewrite Hrm. simpl. split; [|apply incl_refl].
    eapply wf_store_nth in Ec; [|eassumption]. apply Ec.
  - exists st', k'. tauto.
Qed.

(** The call with the graph it leaves to its own community spelled
    out. *)
Lemma pass_total_rest (num_graph : nat) (Q : list nat -> PassState -> Prop)
  (gs : list Community) (k : nat) (c : Community) :
  wf_store gs ->
  nth_error gs num_graph = Some c ->
  Q (node_ids (c_graph c))
    (mkPass gs (c_susceptible c) (c_infected c) (c_recovered c) []) ->
  (forall node rest s s',
      scan_wf num_graph (node_ids (c_graph c)) (node :: rest) s ->
      Q (node :: rest) s ->
      scan_outcome random beta recovery move_probability num_graph node
        s s' ->
      Q rest s') ->
  exists gs' k' st c1,
    performGraphIteration random beta recovery move_probability
      num_graph gs k = Some (gs', k')
    /\ Q [] st
    /\ wf_store (ps_graphs st)
    /\ nth_error (ps_graphs st) num_graph = Some c1
    /\ node_ids (c_graph c1) = node_ids (c_graph c)
    /\ NoDup (nodes_to_remove st)
    /\ incl (nodes_to_remove st) (node_ids (c_graph c1))
    /\ gs' = upd num_graph
               (settled st c1
                  (fold_left without_node (nodes_to_remove st)
                     (c_graph c1)))
               (ps_graphs st).
Proof.
  intros Hwf Ec HQ Hstep.
  set (st0 := mkPass gs (c_susceptible c) (c_infected c) (c_recovered c) []).
  assert (E0 : start_pass num_graph gs k = Some (st0, k)).
  { unfold start_pass. rewrite (bind_eq _ _ _ _ _ (lift_eq _ _ _ Ec)).
    reflexivity. }
  destruct (scan_nodes_total_rest num_graph Q st0 k c Hwf Ec eq_refl HQ
              Hstep)
    as (st & k' & E1 & (Hwf1 & (c1 & Ec1 & Hids) & Hnd & Hincl) & HQ1).
  rewrite app_nil_r in Hnd, Hincl. rewrite <- Hids in Hincl.
  destruct (remove_loop num_graph (nodes_to_remove st) st k' c1
              Hwf1 Ec1 Hnd Hincl)
    as (st2 & g' & E2 & Hgs2 & Hg' & Hsize & Hhold & Hrm2 & Hloc2).
  destruct (remove_loop_graph num_graph (nodes_to_remove st) st k' c1
              Hwf1 Ec1 Hnd Hincl)
    as (st2' & E2' & Hgs2').
  rewrite E2 in E2'. injection E2' as <-.
  assert (Hlt : (num_graph < List.length (ps_graphs st))%nat)
    by (apply nth_error_Some; congruence).
  assert (Hg : g' = fold_left without_node (nodes_to_remove st)
                      (c_graph c1)).
  { rewrite Hgs2 in Hgs2'. apply upd_inj in Hgs2'; [|assumption].
    injection Hgs2' as ->. reflexivity. }
  subst g'.
  eexists _, k', st, c1.
  split; [|repeat (split; [assumption|]); reflexivity].
  unfold performGraphIteration.
  rewrite (bind_eq _ _ _ _ _ E0), (bind_eq _ _ _ _ _ E1).
  unfold remove_nodes at 1. rewrite (bind_eq _ _ _ _ _ E2).
  unfold finish_pass. rewrite Hgs2.
  rewrite (bind_eq _ _ _ _ _
             (lift_eq _ _ _ (nth_error_upd_same _ _ _ Hlt))).
  rewrite update_nth_upd by (rewrite upd_length; assumption).
  rewrite upd_upd. unfold lift. do 3 f_equal. unfold settled. simpl.
  pose proof (Hloc2 Susceptible) as HS. pose proof (Hloc2 Infected) as HI.
  pose proof (Hloc2 Recovered) as HR. simpl in HS, HI, HR.
  rewrite HS, HI, HR. reflexivity.
Qed.

(** In the community it is called for, [performGraphIteration] adds no
    node and no edge and leaves the colour map alone, and a node that is
    still in the graph afterwards has the label it had or the next one
    in the cycle susceptible -> infected -> recovered -> susceptible: no
    node makes two transitions in one call. *)
Theorem a_call_moves_a_node_one_compartment_at_most :
  forall (num_graph : nat) (gs : list Community) (k : nat) (c : Community),
    wf_store gs -> nth_error gs num_graph = Some c ->
    exists gs' k' c',
      performGraphIteration random beta recovery move_probability
        num_graph gs k = Some (gs', k')
      /\ nth_error gs' num_graph = Some c'
      /\ incl (node_ids (c_graph c')) (node_ids (c_graph c))
      /\ incl (edges (c_graph c')) (edges (c_graph c))
      /\ c_cmap c' = c_cmap c
      /\ forall x l l',
           label (c_graph c) x = Some l -> label (c_graph c') x = Some l' ->
           l' = l \/ l' = next_label l.
Proof.
  intros num_graph gs k c Hwf Ec.
  destruct (pass_total_rest num_graph
              (fun rest st =>
                 exists ck,
                   nth_error (ps_graphs st) num_graph = Some ck
                   /\ edges (c_graph ck) = edges (c_graph c)
                   /\ c_cmap ck = c_cmap c
                   /\ forall x l, label (c_graph c) x = Some l ->
                        exists l', label (c_graph ck) x = Some l'
                                   /\ (l' = l \/ l' = next_label l)
                                   /\ (In x rest -> l' = l))
              gs k c Hwf Ec)
    as (gs' & k' & st & c1 & E & (ck & Eck & Hed & Hcm & Hlab) & Hwf1 & Ec1
        & Hids & Hnd & Hincl & ->).
  - simpl. exists c. split; [assumption|]. split; [reflexivity|].
    split; [reflexivity|]. intros x l Hl. exists l. auto.
  - intros node rest s s' Hs (ck & Eck & Hed & Hcm & Hlab) Hout.
    destruct Hs as (Hwfs & _ & Hnd & _).
    assert (Hfresh : ~ In node rest).
    { apply NoDup_remove_2 in Hnd. intros H. apply Hnd.
      apply in_or_app. right. assumption. }
    assert (Hrelabel : forall c0 lold,
               nth_error (ps_graphs s) num_graph = Some c0 ->
               label (c_graph c0) node = Some lold ->
               exists ck',
                 nth_error
                   (upd num_graph
                      (set_graph c0
                         (relabel (c_graph c0) node (next_label lold)))
                      (ps_graphs s)) num_graph = Some ck'
                 /\ edges (c_graph ck') = edges (c_graph c)
                 /\ c_cmap ck' = c_cmap c
                 /\ forall x l, label (c_graph c) x = Some l ->
                      exists l', label (c_graph ck') x = Some l'
                                 /\ (l' = l \/ l' = next_label l)
                                 /\ (In x rest -> l' = l)).
    { intros c0 lold E0 El. rewrite E0 in Eck. injection Eck as <-.
      eexists. split; [apply nth_error_upd_same; apply nth_error_Some;
                       congruence|].
      split; [exact Hed|]. split; [exact Hcm|].
      intros x l Hl. destruct (Hlab x l Hl) as (l' & Hl' & Hstep & Hrest).
      simpl c_graph. destruct (Nat.eq_dec x node) as [->|Hx].
      - exists (next_label lold).
        split; [apply label_relabel_same; eapply lookup_Some_In; exact El|].
        assert (l' = l) by (apply Hrest; left; reflexivity). subst l'.
        rewrite El in Hl'. injection Hl' as ->.
        split; [right; reflexivity | intros; contradiction].
      - exists l'. rewrite label_relabel_other by assumption.
        split; [assumption|]. split; [assumption|].
        intros Hin. apply Hrest. right. assumption. }
    destruct Hout as [c0 cd l d j _ E0 El Hd Ecd ->
                     |c0 j _ E0 El -> |c0 j _ E0 El ->
                     |c0 nb j nbrs _ E0 El _ _ _ -> | ->]; cbn [ps_graphs].
    + exists ck. rewrite nth_error_upd_other by assumption.
      split; [assumption|]. split; [assumption|]. split; [assumption|].
      intros x l0 Hl. destruct (Hlab x l0 Hl) as (l' & Hl' & Hstep & Hrest).
      exists l'. split; [assumption|]. split; [assumption|].
      intros Hin. apply Hrest. right. assumption.
    + apply (Hrelabel c0 Infected E0 El).
    + apply (Hrelabel c0 Recovered E0 El).
    + apply (Hrelabel c0 Susceptible E0 El).
    + exists ck. split; [assumption|]. split; [assumption|].
      split; [assumption|].
      intros x l0 Hl. destruct (Hlab x l0 Hl) as (l' & Hl' & Hstep & Hrest).
      exists l'. split; [assumption|]. split; [assumption|].
      intros Hin. apply Hrest. right. assumption.
  - rewrite Ec1 in Eck. injection Eck as <-.
    eexists _, k', _. split; [exact E|].
    split; [apply nth_error_upd_same; apply nth_error_Some; congruence|].
    cbn [settled c_graph c_cmap]. split; [|split; [|split]].
    + intros y Hy. apply fold_without_ids in Hy. rewrite <- Hids. apply Hy.
    + rewrite <- Hed. apply fold_without_edges.
    + assumption.
    + intros x l l' Hl Hl'.
      assert (Hx : ~ In x (nodes_to_remove st)).
      { apply lookup_Some_In in Hl'.
        apply (fold_without_ids (nodes_to_remove st) (c_graph c1) x) in Hl'.
        apply Hl'. }
      rewrite (fold_without_label _ _ _ Hx) in Hl'.
      destruct (Hlab x l Hl) as (l1 & Hl1 & Hstep & _).
      rewrite Hl' in Hl1. injection Hl1 as <-. assumption.
Qed.

(** ** Edge cases *)

(** For a group number outside 1..4 [findContextToMoveTo] falls through
    its branches: it has drawn its sample and returns [None]. *)
Theorem findContextToMoveTo_unknown_group :
  forall (group_num k : nat),
    ~ (1 <= group_num <= 4)%nat ->
    findContextToMoveTo random group_num k = Some (None, S k).
Proof.
  intros group_num k H.
  destruct group_num as [|[|[|[|[|g]]]]]; try (exfalso; lia);
    unfold findContextToMoveTo, bind, random_random, ret; simpl;
    destruct (Qle_bool (random k) (1 # 2));
    try destruct (Qltb (1 # 2) (random k) && Qle_bool (random k) (3 # 4))%bool;
    reflexivity.
Qed.

(** A move to the sibling is undone by the next move to the sibling:
    with two samples of at most 1/2, the destination of the destination
    is the source. *)
Theorem sibling_moves_return :
  forall (group_num k k2 : nat),
    (1 <= group_num <= 4)%nat ->
    (random k <= 1 # 2)%Q -> (random k2 <= 1 # 2)%Q ->
    exists d,
      findContextToMoveTo random group_num k = Some (Some d, S k)
      /\ findContextToMoveTo random d k2 = Some (Some group_num, S k2).
Proof.
  intros group_num k k2 Hg H1 H2.
  apply Qle_bool_iff in H1, H2.
  exists (sibling group_num). split.
  - rewrite (findContextToMoveTo_eq random group_num k Hg), H1. reflexivity.
  - rewrite (findContextToMoveTo_eq random (sibling group_num) k2), H2.
    + revert Hg. four_groups group_num; reflexivity.
    + revert Hg. four_groups group_num; simpl; lia.
Qed.

Lemma upd_self (gs : list Community) (i : nat) (c : Community) :
  nth_error gs i = Some c -> upd i c gs = gs.
Proof.
  revert i. induction gs as [|y gs IH]; intros [|i] E; simpl in *;
    try discriminate.
  - injection E as ->. reflexivity.
  - rewrite IH by assumption. reflexivity.
Qed.

(** Called for a community whose graph has no node, the function leaves
    the store as it is and draws nothing. *)
Theorem a_call_for_an_empty_community_does_nothing :
  forall (num_graph : nat) (gs : list Community) (k : nat) (c : Community),
    nth_error gs num_graph = Some c ->
    nodes (c_graph c) = [] ->
    performGraphIteration random beta recovery move_probability
      num_graph gs k = Some (gs, k).
Proof.
  intros num_graph gs k c Ec Hn.
  set (st0 := mkPass gs (c_susceptible c) (c_infected c) (c_recovered c) []).
  assert (E0 : start_pass num_graph gs k = Some (st0, k)).
  { unfold start_pass. rewrite (bind_eq _ _ _ _ _ (lift_eq _ _ _ Ec)).
    reflexivity. }
  assert (E1 : scan_nodes random beta recovery move_probability num_graph
                 st0 k = Some (st0, k)).
  { unfold scan_nodes.
    rewrite (bind_eq _ _ _ _ _ (the_graph_eq st0 _ _ _ Ec)).
    unfold node_ids. rewrite Hn. reflexivity. }
  assert (E2 : remove_nodes num_graph st0 k = Some (st0, k))
    by reflexivity.
  unfold performGraphIteration.
  rewrite (bind_eq _ _ _ _ _ E0), (bind_eq _ _ _ _ _ E1),
    (bind_eq _ _ _ _ _ E2).
  unfold finish_pass.
  rewrite (bind_eq _ _ _ _ _ (lift_eq _ _ _ Ec)).
  assert (Hc : mkCommunity (c_graph c) (c_cmap c) (local_susceptible st0)
                 (local_infected st0) (local_recovered st0) = c)
    by (destruct c; reflexivity).
  rewrite Hc. change (ps_graphs st0) with gs.
  rewrite update_nth_upd by (apply nth_error_Some; congruence).
  rewrite (upd_self _ _ _ Ec). reflexivity.
Qed.

Lemma hollow_timestep (t : nat) (w : World) (k : nat) :
  graphs w = [hollow; hollow; hollow; hollow] ->
  timestep random gamma beta recovery move_probability t w k
  = Some (mkWorld [hollow; hollow; hollow; hollow]
            (global_susceptible w ++ [-4])
            (global_infected w ++ [4])
            (global_recovered w ++ [0])
            (timesteps w ++ [t]), k).
Proof.
  intros H. unfold timestep. rewrite H. reflexivity.
Qed.

(** For the population 0 nothing ever happens: at every timestep every
    community has no node and the counters -1, 1, 0, and the record of
    every timestep is -4 susceptible, 4 infected, 0 recovered. *)
Theorem population_zero_run_is_constant :
  forall (t : nat),
    exists w,
      main random gamma beta recovery move_probability 0 t = Some w
      /\ view (graphs w)
         = [([], [], (-1, 1, 0)); ([], [], (-1, 1, 0));
            ([], [], (-1, 1, 0)); ([], [], (-1, 1, 0))]
      /\ global_susceptible w = repeat (-4) (S t)
      /\ global_infected w = repeat 4 (S t)
      /\ global_recovered w = repeat 0 (S t).
Proof.
  intros t.
  assert (H : exists w,
             state_after random gamma beta recovery move_probability 0 t
               0%nat = Some (w, 0%nat)
             /\ graphs w = [hollow; hollow; hollow; hollow]
             /\ global_susceptible w = repeat (-4) (S t)
             /\ global_infected w = repeat 4 (S t)
             /\ global_recovered w = repeat 0 (S t)).
  { induction t as [|t (w & E & Hg & H1 & H2 & H3)].
    - eexists. split; [reflexivity|]. repeat split.
    - eexists. cbn [state_after]. rewrite (bind_eq _ _ _ _ _ E).
      split; [apply hollow_timestep; assumption|].
      cbn [graphs global_susceptible global_infected global_recovered].
      rewrite H1, H2, H3. split; [reflexivity|].
      rewrite <- !repeat_cons. repeat split. }
  destruct H as (w & E & Hg & H1 & H2 & H3).
  exists w. split; [eapply main_state_after; exact E|].
  rewrite Hg. auto.
Qed.

(** ** Certain contact and certain infection *)

Lemma neighbor_loop_hit (g : Graph) (node : nat) (nbrs : list nat)
  (st : PassState) :
  (forall j, Qltb (random j) beta = true) ->
  (forall y, In y nbrs -> In y (node_ids g)) ->
  (exists nb, In nb nbrs /\ label g nb = Some Infected) ->
  forall k,
  exists k',
    neighbor_loop random beta g node nbrs st k
    = Some (([node],
             with_locals st (local_susceptible st - 1)
               (local_infected st + 1) (local_recovered st)), k').
Proof.
  intros Hhit. induction nbrs as [|y nbrs IH]; intros Hin (nb & Hnb & Hl) k.
  - destruct Hnb.
  - simpl. destruct (label_In g y (Hin y (or_introl eq_refl))) as [l El].
    rewrite (bind_eq _ _ _ _ _ (lift_eq _ _ _ El)).
    destruct (Label_eqb l Infected) eqn:Eb.
    + unfold bind at 1. unfold bind at 1. unfold random_random, ret.
      rewrite Hhit. eexists. reflexivity.
    + unfold bind at 1, ret at 1. apply IH.
      * intros z Hz. apply Hin. right. assumption.
      * exists nb. split; [|assumption].
        destruct Hnb as [->|Hnb]; [|assumption].
        rewrite Hl in El. injection El as <-. discriminate.
Qed.

Lemma scan_node_catches (num_graph node : nat) (st : PassState) (k : nat)
  (c : Community) (nb : nat) :
  (forall j, Qltb (random j) beta = true) ->
  Qltb (random k) move_probability = false ->
  nth_error (ps_graphs st) num_graph = Some c ->
  wf_graph (c_graph c) ->
  label (c_graph c) node = Some Susceptible ->
  In (node, nb) (edges (c_graph c)) ->
  label (c_graph c) nb = Some Infected ->
  exists k',
    scan_node random beta recovery move_probability num_graph node st k
    = Some (mkPass
              (upd num_graph
                 (set_graph c (relabel (c_graph c) node Infected))
                 (ps_graphs st))
              (local_susceptible st - 1) (local_infected st + 1)
              (local_recovered st) (nodes_to_remove st), k').
Proof.
  intros Hhit Hmove Ec Hg El Hedge Hnb.
  assert (Hnode : In node (node_ids (c_graph c)))
    by (eapply lookup_Some_In; exact El).
  unfold scan_node. unfold bind at 1. unfold random_random at 1.
  rewrite Hmove.
  rewrite (bind_eq _ _ _ _ _ (the_graph_eq _ _ _ _ Ec)).
  rewrite (bind_eq _ _ _ _ _ (lift_eq _ _ _ El)). simpl.
  unfold bind at 1, ret at 1. unfold bind at 1, ret at 1.
  destruct (adj_In _ _ Hnode) as [nbrs Enb].
  rewrite (bind_eq _ _ _ _ _ (lift_eq _ _ _ Enb)).
  assert (Hin : In nb nbrs).
  { unfold adj in Enb. rewrite (proj2 (has_node_In _ _) Hnode) in Enb.
    injection Enb as <-. apply in_flat_map. exists (node, nb).
    split; [assumption|]. simpl. rewrite Nat.eqb_refl. left. reflexivity. }
  destruct (neighbor_loop_hit (c_graph c) node nbrs st Hhit
              (adj_closed _ _ _ Hg Enb) (ex_intro _ nb (conj Hin Hnb))
              (S k)) as [k' Er].
  rewrite (bind_eq _ _ _ _ _ Er). simpl.
  set (st1 := with_locals st (local_susceptible st - 1)
                (local_infected st + 1) (local_recovered st)).
  assert (Ec1 : nth_error (ps_graphs st1) num_graph = Some c) by exact Ec.
  unfold bind at 1.
  rewrite (bind_eq _ _ _ _ _ (the_graph_eq _ _ _ _ Ec1)).
  rewrite (bind_eq _ _ _ _ _
             (lift_eq _ _ _ (set_label_relabel _ _ _ Hnode))).
  rewrite (put_graph_eq _ _ _ _ _ Ec1).
  eexists. reflexivity.
Qed.

Lemma scan_node_keeps_infected (num_graph node : nat) (st : PassState)
  (k : nat) (c : Community) :
  Qltb (random k) move_probability = false ->
  Qltb (random (S k)) recovery = false ->
  nth_error (ps_graphs st) num_graph = Some c ->
  label (c_graph c) node = Some Infected ->
  scan_node random beta recovery move_probability num_graph node st k
  = Some (st, S (S k)).
Proof.
  intros Hmove Hrec Ec El.
  unfold scan_node. unfold bind at 1. unfold random_random at 1.
  rewrite Hmove.
  rewrite (bind_eq _ _ _ _ _ (the_graph_eq _ _ _ _ Ec)).
  rewrite (bind_eq _ _ _ _ _ (lift_eq _ _ _ El)). simpl.
  unfold bind at 1. unfold bind at 1. unfold random_random at 1.
  unfold ret at 1. rewrite Hrec. reflexivity.
Qed.

Lemma seeded_label (n : Z) (c : Community) (x : nat) :
  1 <= n -> seeded_complete n c -> (x < Z.to_nat n)%nat ->
  label (c_graph c) x
  = Some (if Nat.eqb x (Z.to_nat n - 1) then Infected else Susceptible).
Proof.
  intros Hn (_ & Hnodes & _) Hx. unfold label. rewrite Hnodes.
  rewrite (lookup_generated (block_label (n - 1) 1) x);
    [|apply in_seq; lia].
  unfold block_label. f_equal.
  destruct (Nat.eqb_spec x (Z.to_nat n - 1)).
  - destruct (Z.ltb_spec (Z.of_nat x) (n - 1)); [lia|].
    destruct (Z.ltb_spec (Z.of_nat x) (n - 1 + 1)); [reflexivity | lia].
  - destruct (Z.ltb_spec (Z.of_nat x) (n - 1)); [reflexivity | lia].
Qed.

(** One call on a community in which everybody is in contact with the
    one infected individual, when every infection draw succeeds and
    nobody moves or recovers: everybody is infected. *)
Lemma pass_infects_everybody (n : Z) (num_graph : nat)
  (gs : list Community) (k : nat) (c : Community) :
  1 <= n ->
  (move_probability == 0)%Q -> (recovery == 0)%Q ->
  (forall i, (0 <= random i)%Q) -> (forall i, (random i < beta)%Q) ->
  nth_error gs num_graph = Some c ->
  seeded_complete n c ->
  exists g k',
    performGraphIteration random beta recovery move_probability
      num_graph gs k
    = Some (upd num_graph (mkCommunity g (c_cmap c) 0 n 0) gs, k').
Proof.
  intros Hn Hmove Hrec Hrand Hbeta Ec Hc.
  set (N := Z.to_nat n).
  assert (HN : (1 <= N)%nat) by (unfold N; lia).
  assert (Hlt : (num_graph < List.length gs)%nat)
    by (apply nth_error_Some; congruence).
  pose proof Hc as (Hcnt & Hnodes & Hedges).
  unfold counters in Hcnt. injection Hcnt as HcS HcI HcR.
  set (st0 := mkPass gs (c_susceptible c) (c_infected c) (c_recovered c) []).
  assert (E0 : start_pass num_graph gs k = Some (st0, k)).
  { unfold start_pass. rewrite (bind_eq _ _ _ _ _ (lift_eq _ _ _ Ec)).
    reflexivity. }
  assert (Hids0 : node_ids (c_graph c) = seq 0 N).
  { unfold node_ids. rewrite Hnodes, map_map. simpl. apply map_id. }
  destruct (for_each_total
              (fun rest st =>
                 exists i g,
                   rest = seq i (N - i) /\ (i <= N)%nat
                   /\ ps_graphs st = upd num_graph (set_graph c g) gs
                   /\ node_ids g = seq 0 N
                   /\ edges g = pairs N
                   /\ label g (N - 1) = Some Infected
                   /\ (forall x, (i <= x < N - 1)%nat ->
                         label g x = Some Susceptible)
                   /\ nodes_to_remove st = []
                   /\ local_recovered st = 0
                   /\ local_susceptible st + local_infected st = n
                   /\ local_susceptible st
                      = Z.max 0 (Z.of_nat (N - i) - 1))
              (scan_node random beta recovery move_probability num_graph))
    with (xs := node_ids (c_graph c)) (s := st0) (k := k)
    as (st & k' & E1 & i & g & Hrest & Hi & Hgs & Hids & Hed & HlI & _
        & Hrm & HlR & Hsum & HlS).
  - intros x rest s j (i & g & Hrest & Hi & Hgs & Hids & Hed & HlI & HlSus
                       & Hrm & HlR & Hsum & HlS).
    destruct (N - i)%nat as [|m] eqn:Em; [discriminate|].
    simpl in Hrest. injection Hrest as -> ->.
    assert (Ecs : nth_error (ps_graphs s) num_graph = Some (set_graph c g))
      by (rewrite Hgs; apply nth_error_upd_same; assumption).
    assert (Hwfg : wf_graph g).
    { split; [rewrite Hids; apply seq_NoDup|].
      intros e He. rewrite Hed in He. apply pairs_spec in He.
      rewrite Hids. split; apply in_seq; lia. }
    pose proof (Qltb_zero _ _ (Hrand j) Hmove) as Hm0.
    destruct (Nat.eq_dec i (N - 1)) as [Hlast|Hnot].
    + rewrite (scan_node_keeps_infected num_graph i s j (set_graph c g)
                 Hm0 (Qltb_zero _ _ (Hrand (S j)) Hrec) Ecs
                 ltac:(simpl; rewrite Hlast; exact HlI)).
      eexists _, _. split; [reflexivity|].
      exists (S i), g. replace (N - S i)%nat with m by lia.
      split; [reflexivity|]. split; [lia|]. split; [assumption|].
      split; [assumption|]. split; [assumption|]. split; [assumption|].
      split; [intros y Hy; lia|].
      split; [assumption|]. split; [assumption|]. split; [assumption|].
      lia.
    + destruct (scan_node_catches num_graph i s j (set_graph c g) (N - 1))
        as [j' Ej]; try assumption.
      * intros q. apply Qltb_lt, Hbeta.
      * simpl. apply HlSus. lia.
      * simpl. rewrite Hed. apply pairs_spec. simpl. lia.
      * rewrite Ej. eexists _, _. split; [reflexivity|].
        exists (S i), (relabel g i Infected).
        replace (N - S i)%nat with m by lia. cbn [ps_graphs nodes_to_remove
          local_susceptible local_infected local_recovered c_graph
          set_graph].
        split; [reflexivity|]. split; [lia|].
        split; [rewrite Hgs, upd_upd; reflexivity|].
        split; [rewrite relabel_ids; assumption|].
        split; [assumption|].
        split; [rewrite label_relabel_other by lia; assumption|].
        split; [intros y Hy; rewrite label_relabel_other by lia;
                apply HlSus; lia|].
        split; [assumption|]. split; [assumption|]. split; [lia|]. lia.
  - exists 0%nat, (c_graph c). rewrite Nat.sub_0_r.
    split; [assumption|]. split; [lia|].
    split; [symmetry; apply upd_same_entry; assumption|].
    split; [assumption|]. split; [assumption|].
    split; [rewrite (seeded_label n c (N - 1) Hn Hc ltac:(unfold N; lia));
            fold N; rewrite Nat.eqb_refl; reflexivity|].
    split; [intros x Hx;
            rewrite (seeded_label n c x Hn Hc ltac:(fold N; lia)); fold N;
            destruct (Nat.eqb_spec x (N - 1)); [lia | reflexivity]|].
    simpl. split; [reflexivity|]. split; [assumption|].
    split; [lia|]. lia.
  - assert (Hend : i = N).
    { destruct (N - i)%nat eqn:Em; [lia | discriminate]. }
    subst i. rewrite Nat.sub_diag in HlS. simpl in HlS.
    assert (E1' : scan_nodes random beta recovery move_probability
                    num_graph st0 k = Some (st, k')).
    { unfold scan_nodes.
      rewrite (bind_eq _ _ _ _ _ (the_graph_eq st0 _ _ _ Ec)). exact E1. }
    assert (E2 : remove_nodes num_graph st k' = Some (st, k')).
    { unfold remove_nodes. rewrite Hrm. reflexivity. }
    exists g, k'. unfold performGraphIteration.
    rewrite (bind_eq _ _ _ _ _ E0), (bind_eq _ _ _ _ _ E1'),
      (bind_eq _ _ _ _ _ E2).
    unfold finish_pass. rewrite Hgs.
    rewrite (bind_eq _ _ _ _ _
               (lift_eq _ _ _ (nth_error_upd_same _ _ _ Hlt))).
    rewrite update_nth_upd by (rewrite upd_length; assumption).
    rewrite upd_upd. cbn [c_graph c_cmap set_graph].
    rewrite HlS, HlR. replace (local_infected st) with n by lia.
    reflexivity.
Qed.

Lemma initial_conditions_complete (n : Z) (k : nat) (w : World) (k' : nat) :
  (forall i, (random i < gamma)%Q) ->
  initial_conditions random gamma n k = Some (w, k') ->
  forall c, In c (graphs w) -> seeded_complete n c.
Proof.
  intros Hgamma. unfold initial_conditions. intros H.
  apply bind_inv in H. destruct H as (gs & k1 & E & H).
  injection H as <- _. simpl.
  destruct (for_each_total
              (fun (rest : list nat) (gs : list Community) =>
                 forall c, In c gs -> seeded_complete n c)
              (fun (_ : nat) (gs : list Community) =>
                 r <- generateErdosRenyi random (n - 1) 1 0 gamma ;;
                 let '(g, cmap) := r in
                 ret (gs ++ [mkCommunity g cmap (n - 1) 1 0])))
    with (xs := range 0 4) (s := @nil Community) (k := k)
    as (gs0 & k0 & E0 & H0).
  - intros x rest gs1 j Hall.
    rewrite (bind_eq _ _ _ _ _
               (generateErdosRenyi_closed (n - 1) 1 0 gamma j)).
    eexists _, _. split; [reflexivity|].
    intros c Hin. apply in_app_or in Hin.
    destruct Hin as [Hin|[<-|[]]]; [auto|].
    replace (n - 1 + 1 + 0) with n by lia.
    split; [reflexivity|]. split; [reflexivity|]. simpl.
    apply chosen_all. intros m. apply Qltb_lt, Hgamma.
  - intros c [].
  - rewrite E in E0. injection E0 as <- _. assumption.
Qed.

Lemma update_pass_infects_everybody (n : Z) (gs : list Community)
  (k : nat) :
  1 <= n ->
  (move_probability == 0)%Q -> (recovery == 0)%Q ->
  (forall i, (0 <= random i)%Q) -> (forall i, (random i < beta)%Q) ->
  List.length gs = 4%nat ->
  (forall c, In c gs -> seeded_complete n c) ->
  exists acc k',
    update_pass random beta recovery move_probability gs k = Some (acc, k')
    /\ (forall c, In c (t_graphs acc) -> counters c = (0, n, 0))
    /\ curr_global_susceptible acc = 0
    /\ curr_global_infected acc = 4 * n
    /\ curr_global_recovered acc = 0.
Proof.
  intros Hn Hmove Hrec Hrand Hbeta Hlen Hall. unfold update_pass.
  destruct (for_each_total
              (fun (rest : list nat) (acc : Tally) =>
                 exists m,
                   rest = seq m (4 - m) /\ (m <= 4)%nat
                   /\ List.length (t_graphs acc) = 4%nat
                   /\ (forall i c, (i < m)%nat ->
                         nth_error (t_graphs acc) i = Some c ->
                         counters c = (0, n, 0))
                   /\ (forall i c, (m <= i)%nat ->
                         nth_error (t_graphs acc) i = Some c ->
                         seeded_complete n c)
                   /\ curr_global_susceptible acc = 0
                   /\ curr_global_infected acc = Z.of_nat m * n
                   /\ curr_global_recovered acc = 0)
              (fun n acc =>
                 gs <- performGraphIteration random beta recovery
                         move_probability n (t_graphs acc) ;;
                 c <- lift (nth_error gs n) ;;
                 ret (mkTally gs
                        (curr_global_susceptible acc + c_susceptible c)
                        (curr_global_infected acc + c_infected c)
                        (curr_global_recovered acc + c_recovered c))))
    with (xs := range 0 (List.length gs)) (s := mkTally gs 0 0 0) (k := k)
    as (acc & k' & E & m & Hm & Hm4 & Hlen' & Hdone & _ & HS & HI & HR).
  - intros x rest acc j (m & Hrest & Hm4 & Hlen' & Hdone & Htodo & HS & HI
                         & HR).
    assert (Hm : (m < 4)%nat).
    { destruct (Nat.eq_dec m 4) as [->|]; [discriminate | lia]. }
    replace (4 - m)%nat with (S (4 - S m)) in Hrest by lia.
    simpl in Hrest. injection Hrest as -> ->.
    destruct (nth_error_lt (t_graphs acc) m ltac:(lia)) as [c Ec].
    destruct (pass_infects_everybody n m (t_graphs acc) j c Hn Hmove Hrec
                Hrand Hbeta Ec (Htodo m c (Nat.le_refl m) Ec))
      as (g & j' & E).
    rewrite (bind_eq _ _ _ _ _ E).
    rewrite (bind_eq _ _ _ _ _
               (lift_eq _ _ _
                  (nth_error_upd_same _ _ _ ltac:(rewrite Hlen'; exact Hm)))).
    eexists _, _. split; [reflexivity|]. exists (S m).
    cbn [t_graphs curr_global_susceptible curr_global_infected
           curr_global_recovered c_susceptible c_infected c_recovered].
    split; [reflexivity|]. split; [lia|].
    split; [rewrite upd_length; assumption|].
    split; [|split; [|split; [lia|split; [lia|lia]]]].
    + intros i ci Hi Ei. destruct (Nat.eq_dec m i) as [<-|Hmi].
      * rewrite nth_error_upd_same in Ei by (rewrite Hlen'; exact Hm).
        injection Ei as <-. reflexivity.
      * rewrite nth_error_upd_other in Ei by assumption.
        apply (Hdone i ci); [lia | assumption].
    + intros i ci Hi Ei. rewrite nth_error_upd_other in Ei by lia.
      apply (Htodo i ci); [lia | assumption].
  - exists 0%nat. rewrite Hlen. cbn [t_graphs curr_global_susceptible
                                     curr_global_infected
                                     curr_global_recovered].
    split; [reflexivity|]. split; [lia|]. split; [assumption|].
    split; [intros i c Hi; lia|].
    split; [intros i c _ Ei; apply Hall; eapply nth_error_In; eassumption|].
    lia.
  - assert (m = 4%nat).
    { destruct (Nat.eq_dec m 4) as [->|]; [reflexivity|].
      replace (4 - m)%nat with (S (4 - S m)) in Hm by lia. discriminate. }
    subst m. exists acc, k'. split; [assumption|].
    split; [|lia].
    intros c Hin. apply In_nth_error in Hin. destruct Hin as [i Ei].
    apply (Hdone i c); [|assumption].
    rewrite <- Hlen'. apply nth_error_Some. congruence.
Qed.

(** The scenario of full contact and certain infection: when every
    contact draw and every infection draw succeeds and nobody moves or
    recovers, one iteration infects everybody, for every population
    [n >= 1]: every community ends with 0 susceptible, [n] infected and
    0 recovered, and the record of timestep 1 is 0, 4 n, 0. *)
Theorem full_contact_infects_everybody_in_one_step :
  forall (n : Z),
    1 <= n ->
    (move_probability == 0)%Q -> (recovery == 0)%Q ->
    (forall i, (0 <= random i)%Q) ->
    (forall i, (random i < gamma)%Q) -> (forall i, (random i < beta)%Q) ->
    exists w,
      main random gamma beta recovery move_probability n 1 = Some w
      /\ (forall c, In c (graphs w) ->
            c_susceptible c = 0 /\ c_infected c = n /\ c_recovered c = 0)
      /\ global_susceptible w = [4 * (n - 1); 0]
      /\ global_infected w = [4; 4 * n]
      /\ global_recovered w = [0; 0].
Proof.
  intros n Hn Hmove Hrec Hrand Hgamma Hbeta.
  destruct (state_after_step n 0 0)
    as (w & k1 & acc & k2 & gs' & k3 & E & Hwf & E2 & _ & _ & Hr & E').
  destruct (update_pass_infects_everybody n (graphs w) k1 Hn Hmove Hrec
              Hrand Hbeta (proj1 Hwf)
              (initial_conditions_complete n 0 w k1 Hgamma E))
    as (acc' & k2' & E2' & Hall & HS & HI & HR).
  rewrite E2 in E2'. injection E2' as <- <-.
  destruct (state_after_zero n 0 w k1 E) as (G1 & G2 & G3 & _).
  eexists. split; [eapply main_state_after; exact E'|].
  cbn [graphs global_susceptible global_infected global_recovered].
  rewrite G1, G2, G3, HS, HI, HR. split; [|auto].
  intros c' Hin.
  destruct (redrawn_In _ _ _ Hr Hin) as (c & Hc & Hcnt & _).
  rewrite (Hall c Hc) in Hcnt. unfold counters in Hcnt.
  injection Hcnt as -> -> ->. auto.
Qed.

End Properties.

(** ** The general results at explicit inputs *)

Lemma population_matches_graph_after_step_witness :
  exists w,
    main stream_A (1 # 2) (1 # 2) 0 0 3 1 = Some w
    /\ List.length (graphs w) = 4%nat
    /\ forall c, In c (graphs w) ->
         c_susceptible c + c_infected c + c_recovered c
         = Z.of_nat (List.length (nodes (c_graph c))).
Proof.
  apply (population_matches_graph_after_step stream_A (1 # 2) (1 # 2) 0 0
           3 1).
  lia.
Defined.

Lemma population_fixed_without_movement_witness :
  exists w,
    main (fun _ => 1 # 4) (1 # 2) (1 # 2) (1 # 2) 0 3 2 = Some w
    /\ List.length (graphs w) = 4%nat
    /\ forall c, In c (graphs w) ->
         c_susceptible c + c_infected c + c_recovered c = 3.
Proof.
  apply (population_fixed_without_movement (fun _ => 1 # 4) (1 # 2) (1 # 2)
           (1 # 2) 0 3 2).
  - reflexivity.
  - intros i. unfold Qle. simpl. lia.
Defined.

Lemma counters_without_infection_and_recovery_witness :
  exists w,
    main (fun _ => 1 # 4) (1 # 2) 0 0 (1 # 2) 3 2 = Some w
    /\ total (graphs w) Susceptible = 4 * (3 - 1)
    /\ total (graphs w) Infected = 4
    /\ total (graphs w) Recovered = 0
    /\ ((1 # 2 == 0)%Q ->
        forall c, In c (graphs w) ->
          c_susceptible c = 3 - 1 /\ c_infected c = 1 /\ c_recovered c = 0).
Proof.
  apply (counters_without_infection_and_recovery (fun _ => 1 # 4) (1 # 2)
           0 0 (1 # 2) 3 2).
  - reflexivity.
  - reflexivity.
  - intros i. unfold Qle. simpl. lia.
Defined.

Lemma migrant_keeps_its_id_witness :
  D_scan_start 0%nat = Some (state_D, 48%nat)
  /\ exists st' dest d d',
       scan_node stream_D (1 # 2) 0 (1 # 2) 1%nat 0%nat state_D 48%nat
       = Some (st', 50%nat)
       /\ findContextToMoveTo stream_D (1 + 1)%nat 49%nat
          = Some (Some (S dest), 50%nat)
       /\ nth_error (ps_graphs state_D) dest = Some d
       /\ nth_error (ps_graphs st') dest = Some d'
       /\ nodes_to_remove st' = nodes_to_remove state_D ++ [0%nat]
       /\ label (c_graph d') 0%nat = Some Infected
       /\ count d' Infected = count d Infected + 1
       /\ (~ In 0%nat (node_ids (c_graph d)) ->
           nodes (c_graph d') = nodes (c_graph d) ++ [(0%nat, Infected)]
           /\ edges (c_graph d') = edges (c_graph d)
           /\ forall m, In m (node_ids (c_graph d)) ->
                label (c_graph d') m = label (c_graph d) m).
Proof.
  split; [vm_compute; reflexivity|].
  apply (migrant_keeps_its_id stream_D (1 # 2) 0 (1 # 2) 1%nat
           0%nat state_D 48%nat
           (mkCommunity
              (mkGraph
                 [(0, Infected); (1, Susceptible); (2, Infected)]%nat
                 [(0, 1)]%nat)
              ["orange"; "orange"; "red"]%string 2 2 0)
           Infected).
  - reflexivity.
  - reflexivity.
  - reflexivity.
  - reflexivity.
Defined.

(** ** Further results at explicit inputs *)

Lemma generateErdosRenyi_empty_witness :
  generateErdosRenyi (fun _ => 1 # 4) (-1) 1 0 (1 # 2) 0%nat
  = Some ((nx_Graph, []), 0%nat).
Proof.
  apply (generateErdosRenyi_empty (fun _ => 1 # 4) (-1) 1 0 (1 # 2) 0%nat).
  lia.
Defined.

Lemma generateErdosRenyi_no_contact_witness :
  exists G cmap k',
    generateErdosRenyi (fun _ => 1 # 4) 2 1 0 0 0%nat = Some ((G, cmap), k')
    /\ edges G = [].
Proof.
  apply (generateErdosRenyi_no_contact (fun _ => 1 # 4) 2 1 0 0 0%nat).
  - reflexivity.
  - intros i. unfold Qle. simpl. lia.
Defined.

Lemma generateErdosRenyi_complete_witness :
  exists G cmap k',
    generateErdosRenyi (fun _ => 1 # 4) 2 1 0 (1 # 2) 0%nat
    = Some ((G, cmap), k')
    /\ forall i j,
         In i (node_ids G) -> In j (node_ids G) -> i <> j ->
         has_edge G i j = true.
Proof.
  apply (generateErdosRenyi_complete (fun _ => 1 # 4) 2 1 0 (1 # 2) 0%nat).
  intros i. reflexivity.
Defined.

Lemma findContextToMoveTo_unknown_group_witness :
  findContextToMoveTo (fun _ => 1 # 4) 5 0%nat = Some (None, 1%nat).
Proof.
  apply (findContextToMoveTo_unknown_group (fun _ => 1 # 4) 5%nat 0%nat).
  lia.
Defined.

Lemma sibling_moves_return_witness :
  exists d,
    findContextToMoveTo (fun _ => 1 # 4) 3 0%nat = Some (Some d, 1%nat)
    /\ findContextToMoveTo (fun _ => 1 # 4) d 1%nat = Some (Some 3%nat, 2%nat).
Proof.
  apply (sibling_moves_return (fun _ => 1 # 4) 3%nat 0%nat 1%nat).
  - lia.
  - unfold Qle. simpl. lia.
  - unfold Qle. simpl. lia.
Defined.

Lemma a_call_only_adds_to_other_communities_witness :
  exists gs' k',
    performGraphIteration (fun _ => 1 # 4) (1 # 2) 0 (1 # 2) 1%nat store_E
      0%nat = Some (gs', k')
    /\ forall i c, i <> 1%nat -> nth_error store_E i = Some c ->
         exists c',
           nth_error gs' i = Some c'
           /\ c_susceptible c <= c_susceptible c'
           /\ c_infected c <= c_infected c'
           /\ c_recovered c <= c_recovered c'
           /\ incl (node_ids (c_graph c)) (node_ids (c_graph c'))
           /\ edges (c_graph c') = edges (c_graph c)
           /\ c_cmap c' = c_cmap c.
Proof.
  apply (a_call_only_adds_to_other_communities (fun _ => 1 # 4) (1 # 2) 0
           (1 # 2) 1%nat store_E 0%nat).
  - split; [reflexivity|]. intros c Hin. simpl in Hin.
    destruct Hin as [<-|[<-|[<-|[<-|[]]]]]; split;
      try (repeat constructor; simpl; intuition discriminate);
      intros e He; simpl in He; intuition (subst; simpl; auto).
  - lia.
Defined.

Lemma a_call_moves_a_node_one_compartment_at_most_witness :
  exists gs' k' c',
    performGraphIteration (fun _ => 1 # 4) (1 # 2) 0 (1 # 2) 1%nat store_E
      0%nat = Some (gs', k')
    /\ nth_error gs' 1 = Some c'
    /\ incl (node_ids (c_graph c')) [0; 1]%nat
    /\ incl (edges (c_graph c')) [(0, 1)]%nat
    /\ c_cmap c' = []
    /\ forall x l l',
         label (mkGraph [(0, Infected); (1, Susceptible)]%nat [(0, 1)]%nat) x
         = Some l ->
         label (c_graph c') x = Some l' ->
         l' = l \/ l' = next_label l.
Proof.
  apply (a_call_moves_a_node_one_compartment_at_most (fun _ => 1 # 4)
           (1 # 2) 0 (1 # 2) 1%nat store_E 0%nat
           (mkCommunity
              (mkGraph [(0, Infected); (1, Susceptible)]%nat [(0, 1)]%nat)
              [] 1 1 0)).
  - split; [reflexivity|]. intros c Hin. simpl in Hin.
    destruct Hin as [<-|[<-|[<-|[<-|[]]]]]; split;
      try (repeat constructor; simpl; intuition discriminate);
      intros e He; simpl in He; intuition (subst; simpl; auto).
  - reflexivity.
Defined.

Lemma a_call_for_an_empty_community_does_nothing_witness :
  performGraphIteration (fun _ => 1 # 4) (1 # 2) 0 (1 # 2) 0%nat
    [hollow; hollow; hollow; hollow] 0%nat
  = Some ([hollow; hollow; hollow; hollow], 0%nat).
Proof.
  apply (a_call_for_an_empty_community_does_nothing (fun _ => 1 # 4)
           (1 # 2) 0 (1 # 2) 0%nat [hollow; hollow; hollow; hollow] 0%nat
           hollow).
  - reflexivity.
  - reflexivity.
Defined.

Lemma recorded_totals_exact_without_movement_witness :
  exists w,
    main (fun _ => 1 # 4) (1 # 2) (1 # 2) (1 # 2) 0 3 2 = Some w
    /\ last (global_susceptible w) 0 = sum_Z (map c_susceptible (graphs w))
    /\ last (global_infected w) 0 = sum_Z (map c_infected (graphs w))
    /\ last (global_recovered w) 0 = sum_Z (map c_recovered (graphs w)).
Proof.
  apply (recorded_totals_exact_without_movement (fun _ => 1 # 4) (1 # 2)
           (1 # 2) (1 # 2) 0 3 2).
  - reflexivity.
  - intros i. unfold Qle. simpl. lia.
Defined.

Lemma labels_agree_with_counters_after_step_witness :
  exists w,
    main stream_A (1 # 2) (1 # 2) 0 0 3 1 = Some w
    /\ forall c, In c (graphs w) ->
         holders (c_graph c) Susceptible = c_susceptible c
         /\ holders (c_graph c) Infected = c_infected c
         /\ holders (c_graph c) Recovered = c_recovered c.
Proof.
  apply (labels_agree_with_counters_after_step stream_A (1 # 2) (1 # 2) 0 0
           3 1).
  lia.
Defined.

Lemma counters_never_negative_from_one_witness :
  exists w,
    main stream_A (1 # 2) (1 # 2) 0 0 3 1 = Some w
    /\ forall c, In c (graphs w) ->
         0 <= c_susceptible c /\ 0 <= c_infected c /\ 0 <= c_recovered c.
Proof.
  apply (counters_never_negative_from_one stream_A (1 # 2) (1 # 2) 0 0 3 1).
  lia.
Defined.

Lemma full_contact_infects_everybody_in_one_step_witness :
  exists w,
    main (fun _ => 1 # 4) (1 # 2) (1 # 2) 0 0 3 1 = Some w
    /\ (forall c, In c (graphs w) ->
          c_susceptible c = 0 /\ c_infected c = 3 /\ c_recovered c = 0)
    /\ global_susceptible w = [4 * (3 - 1); 0]
    /\ global_infected w = [4; 4 * 3]
    /\ global_recovered w = [0; 0].
Proof.
  apply (full_contact_infects_everybody_in_one_step (fun _ => 1 # 4)
           (1 # 2) (1 # 2) 0 0 3).
  - lia.
  - reflexivity.
  - reflexivity.
  - intros i. unfold Qle. simpl. lia.
  - intros i. reflexivity.
  - intros i. reflexivity.
Defined.
